(** * QNET: path costs, graph reductions and the Monte-Carlo harness

    A shallow embedding of [Path.py], [Reductions.py] and [MonteCarlo.py].

    Conventions of the embedding:
    - Python floats and ints that carry costs are rationals ([Q]); every
      arithmetic expression is written exactly as the source writes it, and
      no theorem below depends on rounding.
    - a Python [dict] is an association list in insertion order with unique
      keys ([dict_set] overwrites in place or appends);
    - an exception is a value [Raise e] of the [result] type, a loop that
      need not terminate takes fuel and raises [Diverges] when it runs out;
    - a node object is identified by its [name]; the graph a [Path] refers
      to ([self.G]) is passed explicitly to the methods that read or mutate
      it, so that the aliasing between a path and the working copy is the
      threading of one [Qnet] value;
    - [copy.deepcopy] is the identity on these immutable values. *)

From Stdlib Require Import String List ZArith QArith Bool Arith Lia.
Import ListNotations.
Open Scope string_scope.
Open Scope list_scope.

(** ** Python values, exceptions and dictionaries *)

Inductive exn : Type :=
| AssertionError
| KeyError
| IndexError
| TypeError
| ValueError
| RuntimeError
| NetworkXError
| NodeNotFound
| NetworkXNoPath
| Diverges.

Inductive result (A : Type) : Type :=
| Ok (a : A)
| Raise (e : exn).
Arguments Ok {A} a.
Arguments Raise {A} e.

Definition bind {A B} (c : result A) (k : A -> result B) : result B :=
  match c with
  | Ok a => k a
  | Raise e => Raise e
  end.

Notation "x <- c ;; k" := (bind c (fun x => k))
  (at level 61, c at next level, right associativity).
Notation "' p <- c ;; k" := (bind c (fun p => k))
  (at level 61, p pattern, c at next level, right associativity).

Fixpoint mapM {A B} (f : A -> result B) (l : list A) : result (list B) :=
  match l with
  | [] => Ok []
  | a :: l' => b <- f a ;; bs <- mapM f l' ;; Ok (b :: bs)
  end.

Definition py_assert (b : bool) : result unit :=
  if b then Ok tt else Raise AssertionError.

(** A value stored in a cost vector: a number, or a function object (the
    conversions of a [Qnet] are functions, and [purify_reduce] stores one). *)
Inductive pyval : Type :=
| VNum (q : Q)
| VFun (g : Q -> Q).

Definition is_num (v : pyval) : bool :=
  match v with VNum _ => true | VFun _ => false end.

Definition as_num (v : pyval) : result Q :=
  match v with VNum q => Ok q | VFun _ => Raise TypeError end.

Definition py_add (a b : pyval) : result pyval :=
  x <- as_num a ;; y <- as_num b ;; Ok (VNum (x + y)).

Definition py_mul (a b : pyval) : result pyval :=
  x <- as_num a ;; y <- as_num b ;; Ok (VNum (x * y)).

Definition Qltb (x y : Q) : bool := negb (Qle_bool y x).

Definition py_lt (a b : pyval) : result bool :=
  x <- as_num a ;; y <- as_num b ;; Ok (Qltb x y).

Definition dict := list (string * pyval).

Fixpoint dict_get {V} (k : string) (d : list (string * V)) : option V :=
  match d with
  | [] => None
  | (k', v) :: d' => if String.eqb k k' then Some v else dict_get k d'
  end.

Definition dict_mem {V} (k : string) (d : list (string * V)) : bool :=
  match dict_get k d with Some _ => true | None => false end.

Fixpoint dict_set {V} (k : string) (v : V) (d : list (string * V))
  : list (string * V) :=
  match d with
  | [] => [(k, v)]
  | (k', v') :: d' =>
      if String.eqb k k' then (k, v) :: d' else (k', v') :: dict_set k v d'
  end.

Definition dict_keys {V} (d : list (string * V)) : list string := map fst d.

(** [d[k]]: a missing key raises [KeyError]. *)
Definition dict_item {V} (k : string) (d : list (string * V)) : result V :=
  match dict_get k d with Some v => Ok v | None => Raise KeyError end.

(** [collections.Counter.update(d)].  [None] is the default argument and is
    skipped; an empty counter takes the fast path [dict.update]; otherwise
    every item is added as [count + self.get(elem, 0)]. *)
Fixpoint counter_add_items (counter : dict) (items : dict) : result dict :=
  match items with
  | [] => Ok counter
  | (elem, count) :: items' =>
      let old := match dict_get elem counter with
                 | Some v => v
                 | None => VNum 0
                 end in
      s <- py_add count old ;;
      counter_add_items (dict_set elem s counter) items'
  end.

Definition counter_update (counter : dict) (d : option dict) : result dict :=
  match d with
  | None => Ok counter
  | Some items =>
      match counter with
      | [] => Ok items
      | _ => counter_add_items counter items
      end
  end.

(** [sum_cost_vectors], the local helper of [Path.get_cost_vector] and of
    [purify_reduce]: a counter updated with every element in turn. *)
Fixpoint sum_cost_vectors_from (counter : dict) (cv_list : list (option dict))
  : result dict :=
  match cv_list with
  | [] => Ok counter
  | d :: rest =>
      c <- counter_update counter d ;; sum_cost_vectors_from c rest
  end.

Definition sum_cost_vectors (cv_list : list (option dict)) : result dict :=
  sum_cost_vectors_from [] cv_list.

(** [min(l)]: the first least element; an empty list raises [ValueError]. *)
Fixpoint py_min_from (m : pyval) (l : list pyval) : result pyval :=
  match l with
  | [] => Ok m
  | x :: l' => b <- py_lt x m ;; py_min_from (if b then x else m) l'
  end.

Definition py_min (l : list pyval) : result pyval :=
  match l with
  | [] => Raise ValueError
  | x :: l' => py_min_from x l'
  end.

(** [functools.reduce(f, l)] with no initial value. *)
Fixpoint reduce_from (f : pyval -> pyval -> result pyval) (acc : pyval)
  (l : list pyval) : result pyval :=
  match l with
  | [] => Ok acc
  | x :: l' => a <- f acc x ;; reduce_from f a l'
  end.

Definition functools_reduce (f : pyval -> pyval -> result pyval)
  (l : list pyval) : result pyval :=
  match l with
  | [] => Raise TypeError
  | x :: l' => reduce_from f x l'
  end.

Definition startswith (s prefix : string) : bool := String.prefix prefix s.

(** Modelled from the spec: [QNET.remove_prefix], which is not among the
    sources; it drops the additive marker from a dimension name. *)
Definition remove_prefix (text prefix : string) : string :=
  if startswith text prefix
  then substring (String.length prefix)
         (String.length text - String.length prefix) text
  else text.

(** Modelled from the spec: [QNET.cv_strip_add], which is not among the
    sources; it forgets the additive-marked dimensions of a cost vector. *)
Definition cv_strip_add (cv : dict) : dict :=
  filter (fun kv => negb (startswith (fst kv) "add_")) cv.

(** ** The network snapshot: a [networkx.MultiGraph] of [Qnode]s *)

(** The node classes.  [Ground], [Swapper] and [Satellite] are separate
    subclasses of [Qnode] ([Path.is_valid] tests [Ground] and [Satellite]
    one after the other); only a [Swapper] has a [swap_prob]. *)
Inductive qnode_type : Type :=
| Plain
| Ground
| Swapper (swap_prob : Q)
| Satellite.

Record Qnode : Type := mkQnode {
  name : string;
  kind : qnode_type;
  costs : dict
}.

(** An edge of the multigraph: its endpoints, its key among the parallel
    edges of the pair, and its attribute dictionary (the cost vector). *)
Record Qchan : Type := mkQchan {
  src : string;
  dst : string;
  ekey : nat;
  data : dict
}.

Record Qnet : Type := mkQnet {
  nodes : list Qnode;
  edges : list Qchan;
  net_cost_vector : dict;
  conversions : list (string * ((Q -> Q) * (Q -> Q)))
}.

Definition isinstance_Ground (n : Qnode) : bool :=
  match kind n with Ground => true | _ => false end.

Definition isinstance_Swapper (n : Qnode) : bool :=
  match kind n with Swapper _ => true | _ => false end.

(** Modelled from the spec: [Qnet.getNode], which is not among the sources;
    node lookup by name, [None] when there is no such node. *)
Definition getNode (G : Qnet) (n : string) : option Qnode :=
  find (fun x => String.eqb (name x) n) (nodes G).

Definition has_node (G : Qnet) (n : string) : bool :=
  existsb (fun x => String.eqb (name x) n) (nodes G).

(** The graph is undirected: an edge joins [u] and [v] in either order. *)
Definition joins (e : Qchan) (u v : string) : bool :=
  (String.eqb (src e) u && String.eqb (dst e) v)
  || (String.eqb (src e) v && String.eqb (dst e) u).

Definition is_edge (u v : string) (k : nat) (e : Qchan) : bool :=
  joins e u v && Nat.eqb (ekey e) k.

(** [G.get_edge_data(u, v, key)]: the attribute dictionary, or the default
    [None] when the pair or the key is missing. *)
Definition get_edge_data (G : Qnet) (u v : string) (k : nat) : option dict :=
  option_map data (find (is_edge u v k) (edges G)).

(** [(u, v) in G.edges()]: the data view of a multigraph reports an edge
    for the pair, whatever its key. *)
Definition in_edges (G : Qnet) (u v : string) : bool :=
  existsb (fun e => joins e u v) (edges G).

Fixpoint remove_first {A} (p : A -> bool) (l : list A) : option (list A) :=
  match l with
  | [] => None
  | x :: l' =>
      if p x then Some l'
      else option_map (cons x) (remove_first p l')
  end.

Definition with_edges (G : Qnet) (es : list Qchan) : Qnet :=
  mkQnet (nodes G) es (net_cost_vector G) (conversions G).

(** [G.remove_edge(u, v, key)]: [NetworkXError] when there is no such edge. *)
Definition remove_edge (G : Qnet) (u v : string) (k : nat) : result Qnet :=
  match remove_first (is_edge u v k) (edges G) with
  | Some es => Ok (with_edges G es)
  | None => Raise NetworkXError
  end.

(** [G.remove_nodes_from(l)]: the nodes and their incident edges go; a name
    that is not a node is skipped silently. *)
Definition remove_nodes_from (G : Qnet) (l : list string) : Qnet :=
  let gone n := existsb (String.eqb n) l in
  mkQnet (filter (fun x => negb (gone (name x))) (nodes G))
         (filter (fun e => negb (gone (src e) || gone (dst e))) (edges G))
         (net_cost_vector G) (conversions G).

(** [G.new_edge_key(u, v)]: the number of parallel edges of the pair, moved
    up past keys already in use. *)
Fixpoint first_free (used : list nat) (k fuel : nat) : nat :=
  match fuel with
  | O => k
  | S fuel' =>
      if existsb (Nat.eqb k) used then first_free used (S k) fuel' else k
  end.

Definition new_edge_key (G : Qnet) (u v : string) : nat :=
  let used := map ekey (filter (fun e => joins e u v) (edges G)) in
  first_free used (length used) (S (length used)).

(** Modelled from the spec: [Qnet.add_qchan], which is not among the
    sources; it inserts one new parallel edge between the two nodes, under
    a fresh key, carrying the cost vector it is given. *)
Definition add_qchan (G : Qnet) (u v : string) (cv : dict) : Qnet :=
  with_edges G (edges G ++ [mkQchan u v (new_edge_key G u v) cv]).

(** All simple paths from [cur] to [target] as node names with the key of
    each traversed edge, depth first in edge order.  [visited] holds the
    nodes already on the path, [cur] included. *)
Definition other_end (e : Qchan) (u : string) : option string :=
  if String.eqb (src e) u then Some (dst e)
  else if String.eqb (dst e) u then Some (src e)
  else None.

Fixpoint simple_paths_from (fuel : nat) (es : list Qchan)
  (visited : list string) (cur target : string)
  : list (list string * list nat) :=
  match fuel with
  | O => []
  | S fuel' =>
      if String.eqb cur target then [([cur], [])]
      else
        flat_map
          (fun e =>
             match other_end e cur with
             | Some nxt =>
                 if existsb (String.eqb nxt) visited then []
                 else
                   map (fun p => (cur :: fst p, ekey e :: snd p))
                     (simple_paths_from fuel' es (nxt :: visited) nxt target)
             | None => []
             end)
          es
  end.

(** A simple path has no repeated edge, so its depth is at most the number
    of edges. *)
Definition all_simple_paths (G : Qnet) (u v : string)
  : list (list string * list nat) :=
  simple_paths_from (S (length (edges G))) (edges G) [u] u v.

(** [nx.has_path(G, source, target)]: [NodeNotFound] when an endpoint is not
    in the graph; otherwise whether some path joins them, which is whether
    some simple path does. *)
Definition has_path (G : Qnet) (u v : string) : result bool :=
  if has_node G u && has_node G v
  then Ok (match all_simple_paths G u v with [] => false | _ => true end)
  else Raise NodeNotFound.

(** ** Path.py *)

Record Path : Type := mkPath {
  node_array : list Qnode;
  edge_keys : list nat;
  head : Qnode;
  tail : Qnode;
  cost_vector : dict
}.

(** The first loop of [Path.get_cost_vector]: the attribute dictionary of
    every traversed edge, [None] where [get_edge_data] finds nothing. *)
Fixpoint edge_cost_vectors (G : Qnet) (ns : list Qnode) (ks : list nat)
  : result (list (option dict)) :=
  match ns with
  | cur :: ((nxt :: _) as rest) =>
      match ks with
      | [] => Raise IndexError
      | k :: ks' =>
          tl <- edge_cost_vectors G rest ks' ;;
          Ok (get_edge_data G (name cur) (name nxt) k :: tl)
      end
  | _ => Ok []
  end.

(** The conversion loop [for cost_type in new_cv: ...] of
    [Path.get_cost_vector].  [todo] is what the iterator has still to
    yield and [size0] the size of the dictionary when the iteration began:
    every call of the iterator, the last one included, raises
    [RuntimeError] once the size has changed. *)
Fixpoint convert_additive (G : Qnet) (size0 : nat) (todo : list string)
  (new_cv : dict) : result dict :=
  if negb (Nat.eqb (length new_cv) size0) then Raise RuntimeError
  else
    match todo with
    | [] => Ok new_cv
    | cost_type :: todo' =>
        if startswith cost_type "add_" then
          cost <- dict_item cost_type new_cv ;;
          let plain := remove_prefix cost_type "add_" in
          conv <- dict_item plain (conversions G) ;;
          x <- as_num cost ;;
          convert_additive G size0 todo'
            (dict_set plain (VNum (snd conv x)) new_cv)
        else convert_additive G size0 todo' new_cv
    end.

Definition get_cost_vector (G : Qnet) (node_array : list Qnode)
  (edge_keys : list nat) : result dict :=
  edge_cvs <- edge_cost_vectors G node_array edge_keys ;;
  let element_cvs := edge_cvs ++ map (fun n => Some (costs n)) node_array in
  new_cv <- sum_cost_vectors element_cvs ;;
  convert_additive G (length new_cv) (dict_keys new_cv) new_cv.

(** The check that closes [Path.__init__]: every consecutive pair of nodes
    is joined by some edge. *)
Fixpoint consecutive_in_edges (G : Qnet) (ns : list Qnode) : bool :=
  match ns with
  | cur :: ((nxt :: _) as rest) =>
      in_edges G (name cur) (name nxt) && consecutive_in_edges G rest
  | _ => true
  end.

(** [Path.__init__(G, array, edge_keys)]. *)
Definition Path_init (G : Qnet) (array : list string)
  (edge_keys : option (list nat)) : result Path :=
  node_array <-
    mapM (fun n => match getNode G n with
                   | Some x => Ok x
                   | None => Raise AssertionError
                   end) array ;;
  let edge_keys :=
    match edge_keys with
    | None => repeat 0%nat (length node_array - 1)
    | Some ks => ks
    end in
  match node_array with
  | [] => Raise IndexError
  | hd :: _ =>
      cv <- get_cost_vector G node_array edge_keys ;;
      _ <- py_assert (consecutive_in_edges G node_array) ;;
      Ok (mkPath node_array edge_keys hd (last node_array hd) cv)
  end.

(** [Path.remove_edges]: the graph of the path is the argument and the
    result. *)
Fixpoint remove_edges_from (G : Qnet) (ns : list Qnode) (ks : list nat)
  : result Qnet :=
  match ns with
  | cur :: ((nxt :: _) as rest) =>
      match ks with
      | [] => Raise IndexError
      | k :: ks' =>
          G' <- remove_edge G (name cur) (name nxt) k ;;
          remove_edges_from G' rest ks'
      end
  | _ => Ok G
  end.

Definition remove_edges (p : Path) (G : Qnet) : result Qnet :=
  remove_edges_from G (node_array p) (edge_keys p).

(** [Path.swap_path].  The loop state is [ground_switch], the stored
    potential [swapper] (kept as its [swap_prob], the one attribute read
    from it) and the list [swap_costs]. *)
Definition swap_state : Type := (bool * option Q * list Q)%type.

Definition swap_step (st : swap_state) (node : Qnode) : swap_state :=
  let '(ground_switch, swapper, swap_costs) := st in
  let '(ground_switch, swapper, swap_costs) :=
    if isinstance_Ground node then
      if negb ground_switch then (true, swapper, swap_costs)
      else
        match swapper with
        | Some p => (ground_switch, None, swap_costs ++ [p])
        | None => (ground_switch, swapper, swap_costs)
        end
    else (ground_switch, swapper, swap_costs) in
  match kind node with
  | Swapper p =>
      if ground_switch then (ground_switch, Some p, swap_costs)
      else (ground_switch, swapper, swap_costs)
  | _ => (ground_switch, swapper, swap_costs)
  end.

Definition swap_costs_of (ns : list Qnode) : list Q :=
  snd (fold_left swap_step ns (false, None, [])).

Definition swap_cost_of (ns : list Qnode) : Q :=
  fold_left Qmult (swap_costs_of ns) 1%Q.

Definition swap_path (p : Path) : result dict :=
  let new_cv := cost_vector p in
  e <- dict_item "e" new_cv ;;
  e' <- py_mul e (VNum (swap_cost_of (node_array p))) ;;
  Ok (dict_set "e" e' new_cv).

(** ** Reductions.py *)

(** An argument that the caller may pass as [threshold]: the source asserts
    [isinstance(threshold, int)], so a non-integer must be expressible. *)
Inductive pyarg : Type :=
| ArgInt (z : Z)
| ArgFloat (q : Q).

(** The guard shared by both reductions:
    [assert isinstance(threshold, int); assert threshold > 0]. *)
Definition check_threshold (threshold : option pyarg) : result unit :=
  match threshold with
  | None => Ok tt
  | Some (ArgInt z) => py_assert (0 <? z)%Z
  | Some (ArgFloat _) => Raise AssertionError
  end.

(** [path_counter > threshold], once the guard has passed. *)
Definition counter_exceeds (path_counter : nat) (threshold : option pyarg)
  : bool :=
  match threshold with
  | Some (ArgInt z) => (z <? Z.of_nat path_counter)%Z
  | Some (ArgFloat q) => Qltb q (inject_Z (Z.of_nat path_counter))
  | None => false
  end.

Section Reductions.

(** [QNET.best_path] and [QNET.fidTransform] are not among the sources:
    both reductions are written over them. *)
Variable best_path : Qnet -> string -> string -> string -> result Path.
Variable fidTransform : Q -> Q -> Q.

Definition fid_transform (a b : pyval) : result pyval :=
  x <- as_num a ;; y <- as_num b ;; Ok (VNum (fidTransform x y)).

(** The [while nx.has_path(C, head, tail)] loop of [purify_reduce]. *)
Fixpoint purify_loop (fuel : nat) (threshold : option pyarg) (C : Qnet)
  (head tail : string) (cv_list : list dict) (path_counter : nat)
  : result (Qnet * list dict * nat) :=
  match fuel with
  | O => Raise Diverges
  | S fuel' =>
      connected <- has_path C head tail ;;
      if connected then
        if counter_exceeds path_counter threshold
        then Ok (C, cv_list, path_counter)
        else
          path <- best_path C head tail "f" ;;
          C' <- remove_edges path C ;;
          purify_loop fuel' threshold C' head tail
            (cv_list ++ [cost_vector path]) (S path_counter)
      else Ok (C, cv_list, path_counter)
  end.

(** The loop [for cost_type in sum_cv] that carries the other costs over
    to [new_cv]. *)
Fixpoint other_costs (Q0 : Qnet) (todo : list string) (sum_cv new_cv : dict)
  : result dict :=
  match todo with
  | [] => Ok new_cv
  | cost_type :: todo' =>
      if negb (dict_mem cost_type new_cv) && startswith cost_type "add_"
      then
        cost <- dict_item cost_type sum_cv ;;
        let new_cv := dict_set cost_type cost new_cv in
        let cost_type := remove_prefix cost_type "add_" in
        conv <- dict_item cost_type (conversions Q0) ;;
        let cost := VFun (snd conv) in
        other_costs Q0 todo' sum_cv (dict_set cost_type cost new_cv)
      else other_costs Q0 todo' sum_cv new_cv
  end.

(** Lines 47-87 of [purify_reduce]: the cost vector of the new edge. *)
Definition purified_cost_vector (Q0 : Qnet) (prob : Q) (cv_list : list dict)
  (path_counter : nat) : result dict :=
  let new_cv : dict := [] in
  f_list <- mapM (dict_item "f") cv_list ;;
  pur_f <- functools_reduce fid_transform f_list ;;
  let new_cv := dict_set "f" pur_f new_cv in
  conv_f <- dict_item "f" (conversions Q0) ;;
  x <- as_num pur_f ;;
  let new_cv := dict_set "add_f" (VNum (fst conv_f x)) new_cv in
  e_list <- mapM (dict_item "e") cv_list ;;
  pur_e <- py_min e_list ;;
  pur_e <- py_mul pur_e
             (VNum (Qpower prob (2 * (Z.of_nat path_counter - 1)))) ;;
  let new_cv := dict_set "e" pur_e new_cv in
  conv_e <- dict_item "e" (conversions Q0) ;;
  y <- as_num pur_e ;;
  let new_cv := dict_set "add_e" (VNum (fst conv_e y)) new_cv in
  sum_cv <- sum_cost_vectors (map Some cv_list) ;;
  other_costs Q0 (dict_keys sum_cv) sum_cv new_cv.

Definition purify_reduce (fuel : nat) (Q0 : Qnet) (head tail : string)
  (threshold : option pyarg) (prob : Q) : result Qnet :=
  _ <- check_threshold threshold ;;
  let C := Q0 in
  match getNode C head, getNode C tail with
  | Some head, Some tail =>
      '(C, cv_list, path_counter) <-
        purify_loop fuel threshold C (name head) (name tail) [] 0 ;;
      new_cv <- purified_cost_vector Q0 prob cv_list path_counter ;;
      Ok (add_qchan C (name head) (name tail) new_cv)
  | _, _ => Raise NodeNotFound
  end.

(** The [while nx.has_path(C, head, tail)] loop of [swap_reduce]. *)
Fixpoint swap_loop (fuel : nat) (C : Qnet) (head tail : string)
  (swap_costs : list dict) : result (Qnet * list dict) :=
  match fuel with
  | O => Raise Diverges
  | S fuel' =>
      connected <- has_path C head tail ;;
      if connected then
        path <- best_path C head tail "e" ;;
        new_cv <- swap_path path ;;
        C' <- remove_edges path C ;;
        swap_loop fuel' C' head tail (swap_costs ++ [new_cv])
      else Ok (C, swap_costs)
  end.

Definition swap_reduce (fuel : nat) (Q0 : Qnet) (head tail : string)
  (threshold : option pyarg) : result Qnet :=
  _ <- check_threshold threshold ;;
  let C := Q0 in
  match getNode C head, getNode C tail with
  | Some head, Some tail =>
      '(C, swap_costs) <- swap_loop fuel C (name head) (name tail) [] ;;
      Ok (fold_left
            (fun C cost_vector =>
               add_qchan C (name head) (name tail) cost_vector)
            swap_costs C)
  | _, _ => Raise NodeNotFound
  end.

End Reductions.

(** The resolved value of a dimension on a path, for comparing paths. *)
Definition dimension_value (cost_type : string) (p : Path) : Q :=
  match dict_get cost_type (cost_vector p) with
  | Some (VNum q) => q
  | _ => 0
  end.

Definition better_of (cost_type : string) (best p : Path) : Path :=
  if Qltb (dimension_value cost_type best) (dimension_value cost_type p)
  then p else best.

(** Modelled from the spec: [QNET.best_path], which is not among the
    sources.  Among the simple paths between the two nodes it returns the
    [Path] whose resolved value of the dimension is greatest ("f" and "e"
    are maximised), the first found on ties; [NetworkXNoPath] when there is
    none. *)
Definition best_path (G : Qnet) (source target cost_type : string)
  : result Path :=
  match all_simple_paths G source target with
  | [] => Raise NetworkXNoPath
  | (ns, ks) :: rest =>
      first <- Path_init G ns (Some ks) ;;
      others <- mapM (fun p => Path_init G (fst p) (Some (snd p))) rest ;;
      Ok (fold_left (better_of cost_type) others first)
  end.

(** Modelled from the spec: [QNET.fidTransform], which is not among the
    sources: the binary transform that gives the fidelity of the supply
    kept when two supplies of fidelities [F1] and [F2] are purified against
    each other.  The spec leaves its formula open; this is the usual one,
    and no statement below depends on it. *)
Definition fidTransform (F1 F2 : Q) : Q :=
  (F1 * F2) / (F1 * F2 + (1 - F1) * (1 - F2)).

(** ** MonteCarlo.py *)

(** The pseudo-random source: [sample i] is what the [i]-th call of
    [random.uniform(0, 1)] returns, [cursor] counts the calls made. *)
Record rng : Type := mkRng {
  sample : nat -> Q;
  cursor : nat
}.

Definition random_uniform01 (g : rng) : Q * rng :=
  (sample g (cursor g), mkRng (sample g) (S (cursor g))).

(** A computation that draws random numbers and may raise. *)
Definition rand (A : Type) : Type := rng -> result (A * rng).

Definition pair : Type := (string * string)%type.

(** What a [pair_method] returns: one pair, or a list of pairs. *)
Inductive pairs_value : Type :=
| OnePair (p : pair)
| PairList (l : list pair).

Definition node_in (node : string) (item : pair) : bool :=
  String.eqb node (fst item) || String.eqb node (snd item).

(** The loop [for node in C.nodes()] of [percolate], building
    [kill_list]. *)
Fixpoint mark_nodes (prob : Q) (pairs : list pair) (ns : list string)
  (g : rng) : list string * rng :=
  match ns with
  | [] => ([], g)
  | node :: ns' =>
      if existsb (fun item => negb (node_in node item)) pairs then
        let (xd, g) := random_uniform01 g in
        let (kill_list, g) := mark_nodes prob pairs ns' g in
        (if Qltb xd prob then node :: kill_list else kill_list, g)
      else mark_nodes prob pairs ns' g
  end.

Definition percolate (Q0 : Qnet) (prob : Q)
  (pair_method : Qnet -> rand pairs_value) : rand (Qnet * list pair) :=
  fun g =>
    let C := Q0 in
    '(pairs, g) <- pair_method C g ;;
    let pairs := match pairs with
                 | PairList l => l
                 | OnePair p => [p]
                 end in
    let (kill_list, g) := mark_nodes prob pairs (map name (nodes C)) g in
    Ok ((remove_nodes_from C kill_list, pairs), g).

(** The loop [for pair in pairs] of [reduce_graph]: [true] when it comes to
    a pair with no path, where the source returns [None, None]. *)
Fixpoint some_pair_disconnected (P : Qnet) (pairs : list pair)
  : result bool :=
  match pairs with
  | [] => Ok false
  | p :: rest =>
      connected <- has_path P (fst p) (snd p) ;;
      if connected then some_pair_disconnected P rest else Ok true
  end.

Definition reduce_graph (Q0 : Qnet) (pair_method : Qnet -> rand pairs_value)
  (percolation_prob : Q)
  (reduction_method : Qnet -> string -> string -> result Qnet)
  : rand (option Qnet * option (list pair)) :=
  fun g =>
    '((P, pairs), g) <- percolate Q0 percolation_prob pair_method g ;;
    disconnected <- some_pair_disconnected P pairs ;;
    if disconnected then Ok ((None, None), g)
    else
      match pairs with
      | [] => Raise IndexError
      | (u, v) :: _ =>
          R <- reduction_method P u v ;;
          Ok ((Some R, Some pairs), g)
      end.

Fixpoint generate_graphs (Q0 : Qnet) (pair_method : Qnet -> rand pairs_value)
  (reduction_method : Qnet -> string -> string -> result Qnet)
  (num_iters : nat) (percolation_prob : Q)
  : rand (list (option Qnet * option (list pair))) :=
  fun g =>
    match num_iters with
    | O => Ok ([], g)
    | S n =>
        '(graph, g) <-
          reduce_graph Q0 pair_method percolation_prob reduction_method g ;;
        '(graph_list, g) <-
          generate_graphs Q0 pair_method reduction_method n
            percolation_prob g ;;
        Ok (graph :: graph_list, g)
    end.

(** [np.linspace(start, stop, num)] with the default [endpoint=True]. *)
Definition linspace (start stop : Q) (num : Z) : result (list Q) :=
  if (num <? 0)%Z then Raise ValueError
  else
    let n := Z.to_nat num in
    let div := inject_Z (Z.of_nat (n - 1)) in
    let delta := stop - start in
    let index i := inject_Z (Z.of_nat i) in
    let y :=
      if (1 <? n)%nat then
        let step := delta / div in
        if Qeq_bool step 0
        then map (fun i => index i / div * delta + start) (seq 0 n)
        else map (fun i => index i * step + start) (seq 0 n)
      else map (fun i => index i * delta + start) (seq 0 n) in
    Ok (if (1 <? n)%nat then removelast y ++ [stop] else y).

(** A [pandas.Series]: labels with their values, in order. *)
Definition Series : Type := list (string * pyval).

(** A [pandas.DataFrame]: its column labels, and one dictionary per row of
    the cells that are set (a missing label is NaN). *)
Record DataFrame : Type := mkDataFrame {
  columns : list string;
  rows : list dict
}.

(** [main.at[index, name] = val]; a new label enlarges the columns. *)
Fixpoint set_row (index : nat) (name : string) (val : pyval)
  (rs : list dict) : list dict :=
  match rs, index with
  | [], _ => []
  | r :: rs', O => dict_set name val r :: rs'
  | r :: rs', S i => r :: set_row i name val rs'
  end.

Definition at_set (df : DataFrame) (index : nat) (name : string)
  (val : pyval) : DataFrame :=
  mkDataFrame
    (if existsb (String.eqb name) (columns df) then columns df
     else columns df ++ [name])
    (set_row index name val (rows df)).

(** [std.rename({name: name + " (std)"})]. *)
Definition rename (old new : string) (s : Series) : Series :=
  map (fun kv => if String.eqb (fst kv) old then (new, snd kv) else kv) s.

Definition column (name : string) (df : DataFrame) : list (option pyval) :=
  map (dict_get name) (rows df).

Section MonteMethod.

(** [DataFrame.mean] and [DataFrame.sem] of pandas, over the rows that
    the data method returned. *)
Variable df_mean : list dict -> Series.
Variable df_sem : list dict -> Series.

(** [QNET.best_path], as in the reductions. *)
Variable best_path : Qnet -> string -> string -> string -> result Path.

(** [data_method]: the floor score for the sentinel, else the mean over
    the pairs of the best path's cost vector without its additive
    dimensions. *)
Definition data_method (Q0 : option Qnet) (pairs : option (list pair))
  : result dict :=
  match Q0, pairs with
  | Some Q0, Some pairs =>
      df <- mapM (fun pair =>
                    best_path <- best_path Q0 (fst pair) (snd pair) "f" ;;
                    Ok (cv_strip_add (cost_vector best_path)))
              pairs ;;
      Ok (df_mean df)
  | _, _ => Ok [("e", VNum 0); ("f", VNum (1 # 2))]
  end.

(** The body of [for index, p in enumerate(prob_list)]. *)
Definition monte_step (Q0 : Qnet) (pair_method : Qnet -> rand pairs_value)
  (reduction_method : Qnet -> string -> string -> result Qnet)
  (data_method : option Qnet -> option (list pair) -> result dict)
  (num_iters : nat) (main : DataFrame) (index : nat) (p : Q)
  : rand DataFrame :=
  fun g =>
    '(graph_list, g) <-
      generate_graphs Q0 pair_method reduction_method num_iters p g ;;
    minor <- mapM (fun Rp => data_method (fst Rp) (snd Rp)) graph_list ;;
    let mean := df_mean minor in
    let std := df_sem minor in
    let std :=
      fold_left (fun std name => rename name (String.append name " (std)") std)
        (map fst mean) std in
    let main :=
      fold_left (fun main nv => at_set main index (fst nv) (snd nv))
        mean main in
    let main :=
      fold_left (fun main nv => at_set main index (fst nv) (snd nv))
        std main in
    Ok (main, g).

Fixpoint monte_loop (Q0 : Qnet) (pair_method : Qnet -> rand pairs_value)
  (reduction_method : Qnet -> string -> string -> result Qnet)
  (data_method : option Qnet -> option (list pair) -> result dict)
  (num_iters : nat) (main : DataFrame) (index : nat) (prob_list : list Q)
  : rand DataFrame :=
  fun g =>
    match prob_list with
    | [] => Ok (main, g)
    | p :: rest =>
        '(main, g) <-
          monte_step Q0 pair_method reduction_method data_method
            num_iters main index p g ;;
        monte_loop Q0 pair_method reduction_method data_method
          num_iters main (S index) rest g
    end.

Definition monte_method (Q0 : Qnet) (pair_method : Qnet -> rand pairs_value)
  (reduction_method : Qnet -> string -> string -> result Qnet)
  (data_method : option Qnet -> option (list pair) -> result dict)
  (num_iters : nat) (num_steps : Z) (percolation_range : option (Q * Q))
  : rand DataFrame :=
  fun g =>
    prob_list <-
      match percolation_range with
      | Some (lo, hi) =>
          _ <- py_assert (Qle_bool 0 lo && Qle_bool hi 1) ;;
          linspace lo hi num_steps
      | None => linspace 0 1 num_steps
      end ;;
    let column_labels :=
      "p" :: flat_map (fun key => [key; String.append key " (std)"])
               (dict_keys (net_cost_vector Q0)) in
    let main :=
      mkDataFrame column_labels
        (map (fun p => [("p", VNum p)]) prob_list) in
    monte_loop Q0 pair_method reduction_method data_method num_iters
      main 0 prob_list g.

End MonteMethod.

(** ** Notions used to state the properties *)

(** A cost vector as the library builds them: every value is a number, and
    every additive-marked dimension comes with its plain counterpart and a
    registered conversion. *)
Definition cv_ok (convs : list (string * ((Q -> Q) * (Q -> Q)))) (d : dict)
  : bool :=
  forallb
    (fun kv =>
       is_num (snd kv)
       && (if startswith (fst kv) "add_"
           then dict_mem (remove_prefix (fst kv) "add_") d
                && dict_mem (remove_prefix (fst kv) "add_") convs
           else true))
    d.

Definition chan_ok (G : Qnet) (e : Qchan) : bool :=
  cv_ok (conversions G) (data e)
  && dict_mem "f" (data e) && dict_mem "e" (data e)
  && has_node G (src e) && has_node G (dst e).

(** A snapshot on which the reductions are meant to run: fidelity and
    efficiency have conversions, every node and edge carries a cost vector
    in the shape above, every edge has a fidelity and an efficiency and
    joins two nodes of the graph. *)
Definition well_formed (G : Qnet) : bool :=
  dict_mem "f" (conversions G) && dict_mem "e" (conversions G)
  && forallb (fun n => cv_ok (conversions G) (costs n)) (nodes G)
  && forallb (chan_ok G) (edges G).

(** [ns] with the keys [ks] follows edges of [es]. *)
Fixpoint is_chain (es : list Qchan) (ns : list string) (ks : list nat)
  : bool :=
  match ns, ks with
  | [_], [] => true
  | a :: ((b :: _) as ns'), k :: ks' =>
      existsb (is_edge a b k) es && is_chain es ns' ks'
  | _, _ => false
  end.

(** The edge list once the edges a path traverses are deleted. *)
Fixpoint drop_edges (es : list Qchan) (ns : list string) (ks : list nat)
  : list Qchan :=
  match ns, ks with
  | a :: ((b :: _) as ns'), k :: ks' =>
      drop_edges
        (match remove_first (is_edge a b k) es with
         | Some es' => es'
         | None => es
         end) ns' ks'
  | _, _ => es
  end.

(** The paths the extraction loop of a reduction takes out of [G] one after
    the other, with the cost vector it records for each: every one is a
    simple path between [h] and [t] of the working copy as it then stands,
    and the following ones are searched once its edges are deleted. *)
Fixpoint extracted (G : Qnet) (h t : string)
  (paths : list (list string * list nat)) (cvs : list dict) : Prop :=
  match paths, cvs with
  | [], [] => True
  | p :: paths', cv :: cvs' =>
      In p (all_simple_paths G h t)
      /\ (exists path,
            Path_init G (fst p) (Some (snd p)) = Ok path
            /\ cost_vector path = cv)
      /\ extracted (with_edges G (drop_edges (edges G) (fst p) (snd p))) h t
           paths' cvs'
  | _, _ => False
  end.

Definition without_paths (paths : list (list string * list nat))
  (es : list Qchan) : list Qchan :=
  fold_left (fun es p => drop_edges es (fst p) (snd p)) paths es.

(** The swappers the documentation of [swap_path] calls valid: those with a
    ground node somewhere before and somewhere after them in the path. *)
Fixpoint valid_swap_probs (seen_ground : bool) (ns : list Qnode) : list Q :=
  match ns with
  | [] => []
  | n :: ns' =>
      let rest := valid_swap_probs (seen_ground || isinstance_Ground n) ns' in
      match kind n with
      | Swapper p =>
          if seen_ground && existsb isinstance_Ground ns' then p :: rest
          else rest
      | _ => rest
      end
  end.

(** Every value of the vector is a number. *)
Definition numeric (d : dict) : Prop :=
  Forall (fun kv => is_num (snd kv) = true) d.

Definition numeric_opt (d : option dict) : Prop :=
  match d with Some items => numeric items | None => True end.

Definition mem_opt (k : string) (d : option dict) : bool :=
  match d with Some items => dict_mem k items | None => false end.

(** Every additive-marked dimension has its plain counterpart in the vector
    and a registered conversion. *)
Definition closed (convs : list (string * ((Q -> Q) * (Q -> Q)))) (d : dict)
  : Prop :=
  forall k, dict_mem k d = true -> startswith k "add_" = true ->
    dict_mem (remove_prefix k "add_") d = true
    /\ dict_mem (remove_prefix k "add_") convs = true.

Definition good_opt (convs : list (string * ((Q -> Q) * (Q -> Q))))
  (d : option dict) : Prop :=
  match d with
  | Some items => numeric items /\ closed convs items
  | None => True
  end.

(** A path cost vector the purification can combine. *)
Definition good_cv (convs : list (string * ((Q -> Q) * (Q -> Q))))
  (cv : dict) : Prop :=
  numeric cv /\ closed convs cv
  /\ dict_mem "f" cv = true /\ dict_mem "e" cv = true.

Definition endpoint (es : list Qchan) (x : string) : Prop :=
  exists e, In e es /\ (src e = x \/ dst e = x).

(** The [i]-th point of the evenly spaced grid of [n] points from [lo] to
    [hi]. *)
Definition grid_point (lo hi : Q) (n i : nat) : Q :=
  lo + inject_Z (Z.of_nat i) * ((hi - lo) / inject_Z (Z.of_nat (n - 1))).

(** [grid] is the evenly spaced grid of [n] points from [lo] to [hi]: it
    starts at [lo] when it has a point, ends at [hi] when it has two, never
    decreases when [lo <= hi] and never increases when [hi <= lo]. *)
Definition even_grid (lo hi : Q) (n : nat) (grid : list Q) : Prop :=
  length grid = n
  /\ (forall i, (i < n)%nat -> nth i grid 0 == grid_point lo hi n i)
  /\ ((1 <= n)%nat -> nth 0 grid 0 == lo)
  /\ ((2 <= n)%nat -> last grid 0 = hi)
  /\ (lo <= hi ->
      forall i j, (i <= j)%nat -> (j < n)%nat -> nth i grid 0 <= nth j grid 0)
  /\ (hi <= lo ->
      forall i j, (i <= j)%nat -> (j < n)%nat -> nth j grid 0 <= nth i grid 0).

(** Every batch of trials of the sweep over [prob_list] that starts with
    the random source [g], and its scoring, return. *)
Fixpoint trials_return_along (Q0 : Qnet)
  (pair_method : Qnet -> rand pairs_value)
  (reduction_method : Qnet -> string -> string -> result Qnet)
  (data_method : option Qnet -> option (list pair) -> result dict)
  (num_iters : nat) (prob_list : list Q) (g : rng) : Prop :=
  match prob_list with
  | [] => True
  | p :: rest =>
      exists graph_list g1 minor,
        generate_graphs Q0 pair_method reduction_method num_iters p g
        = Ok (graph_list, g1)
        /\ mapM (fun Rp => data_method (fst Rp) (snd Rp)) graph_list
           = Ok minor
        /\ trials_return_along Q0 pair_method reduction_method data_method
             num_iters rest g1
  end.

(** The range a sweep is asked for, [0, 1] when none is given. *)
Definition range_bounds (percolation_range : option (Q * Q)) : Q * Q :=
  match percolation_range with
  | Some r => r
  | None => (0, 1)
  end.

(** The second table has the rows and the probability column of the
    first. *)
Definition keeps_p (df df' : DataFrame) : Prop :=
  length (rows df') = length (rows df) /\ column "p" df' = column "p" df.

(** ** Sample snapshots *)

Module Samples.

(** A toy conversion pair, inverse to each other, standing for the
    logarithmic conversions of the library. *)
Definition to_add (x : Q) : Q := 1 - x.
Definition from_add (y : Q) : Q := 1 - y.

Definition convs : list (string * ((Q -> Q) * (Q -> Q))) :=
  [("e", (to_add, from_add)); ("f", (to_add, from_add));
   ("t", (to_add, from_add))].

Definition cv (e f : Q) : dict :=
  [("e", VNum e); ("f", VNum f);
   ("add_e", VNum (to_add e)); ("add_f", VNum (to_add f))].

Definition qnode (n : string) (k : qnode_type) : Qnode :=
  mkQnode n k (cv 1 1).

Definition qchan (u v : string) (k : nat) (e f : Q) : Qchan :=
  mkQchan u v k (cv e f).

Definition qnet (ns : list Qnode) (es : list Qchan) : Qnet :=
  mkQnet ns es (cv 1 1) convs.

(** A - G - B, one path. *)
Definition two_hop : Qnet :=
  qnet [qnode "A" Plain; qnode "G" Ground; qnode "B" Plain]
       [qchan "A" "G" 0 (9 # 10) (9 # 10);
        qchan "G" "B" 0 (9 # 10) (9 # 10)].

(** Two parallel edges between A and B. *)
Definition parallel : Qnet :=
  qnet [qnode "A" Plain; qnode "B" Plain]
       [qchan "A" "B" 0 1 1; qchan "A" "B" 1 1 1].

(** A and B with no edge. *)
Definition apart : Qnet :=
  qnet [qnode "A" Plain; qnode "B" Plain] [].

(** Two pairs of parties, A - B and C - D. *)
Definition two_pairs : Qnet :=
  qnet [qnode "A" Plain; qnode "B" Plain; qnode "C" Plain; qnode "D" Plain]
       [qchan "A" "B" 0 1 1; qchan "C" "D" 0 1 1].

(** G1 - T1 - T2 - G2: two swappers in a row between two grounds. *)
Definition two_swappers : Qnet :=
  qnet [qnode "G1" Ground; qnode "T1" (Swapper (1 # 2));
        qnode "T2" (Swapper (1 # 3)); qnode "G2" Ground]
       [qchan "G1" "T1" 0 1 1; qchan "T1" "T2" 0 1 1;
        qchan "T2" "G2" 0 1 1].

(** A - B whose edge also carries a third dimension "t" in both forms. *)
Definition timed : Qnet :=
  qnet [qnode "A" Plain; qnode "B" Plain]
       [mkQchan "A" "B" 0
          (cv 1 1 ++ [("t", VNum (1 # 2)); ("add_t", VNum (1 # 2))])].

(** A - B whose edge carries "t" in its additive form only. *)
Definition additive_only : Qnet :=
  qnet [qnode "A" Plain; qnode "B" Plain]
       [mkQchan "A" "B" 0 (cv 1 1 ++ [("add_t", VNum (1 # 2))])].

Definition fixed_pair (u v : string) : Qnet -> rand pairs_value :=
  fun _ g => Ok (OnePair (u, v), g).

Definition fixed_pairs (l : list pair) : Qnet -> rand pairs_value :=
  fun _ g => Ok (PairList l, g).

(** A source whose every draw is one half. *)
Definition halves : rng := mkRng (fun _ => 1 # 2) 0.

(** Purification of every path, with the default measurement
    probability. *)
Definition purify (P : Qnet) (u v : string) : result Qnet :=
  purify_reduce best_path fidTransform (S (length (edges P))) P u v None
    (1 # 2).

(** The mean of the "e" and "f" columns of the scores. *)
Definition column_mean (key : string) (minor : list dict) : Q :=
  fold_right
    (fun d acc => match dict_get key d with
                  | Some (VNum q) => q + acc
                  | _ => acc
                  end) 0 minor
  / inject_Z (Z.of_nat (length minor)).

Definition mean_ef (minor : list dict) : Series :=
  [("e", VNum (column_mean "e" minor)); ("f", VNum (column_mean "f" minor))].

(** The standard error of samples that are all equal. *)
Definition sem_of_equal (minor : list dict) : Series :=
  [("e", VNum 0); ("f", VNum 0)].

Definition score : option Qnet -> option (list pair) -> result dict :=
  data_method mean_ef best_path.

End Samples.

(** ** Further parts of Path.py *)

(** [Path.stringify]: the names of the nodes, a "-" after each but the
    last.  [pString] is the string built so far. *)
Fixpoint stringify_from (pString : string) (ns : list Qnode) : string :=
  match ns with
  | [] => pString
  | node :: rest =>
      let pString := String.append pString (name node) in
      match rest with
      | [] => pString
      | _ => stringify_from (String.append pString "-") rest
      end
  end.

Definition stringify (p : Path) : string := stringify_from "" (node_array p).

(** [Path.is_valid]: whether the search for a ground or satellite node
    breaks out of the loop. *)
Fixpoint is_valid_from (ns : list Qnode) : bool :=
  match ns with
  | [] => false
  | node :: rest =>
      match kind node with
      | Ground | Satellite => true
      | _ => is_valid_from rest
      end
  end.

Definition is_valid (p : Path) : bool := is_valid_from (node_array p).

(** [Path.update]: the cost vector is computed again over the graph as it
    now is. *)
Definition update (p : Path) (G : Qnet) : result Path :=
  cv <- get_cost_vector G (node_array p) (edge_keys p) ;;
  Ok (mkPath (node_array p) (edge_keys p) (head p) (tail p) cv).

(** ** Further notions *)

(** The number a vector holds for a dimension, zero when it has none. *)
Definition value_of (k : string) (d : dict) : Q :=
  match dict_get k d with
  | Some (VNum q) => q
  | _ => 0
  end.

(** The sum of a dimension over the elements of a path, the first element
    innermost, an element that is [None] counting for nothing. *)
Fixpoint dimension_total (k : string) (cvs : list (option dict)) : Q :=
  match cvs with
  | [] => 0
  | Some d :: rest => dimension_total k rest + value_of k d
  | None :: rest => dimension_total k rest
  end.

(** No dimension of the vector is marked additive twice over. *)
Definition single_marked (d : dict) : Prop :=
  forall k, dict_mem k d = true -> startswith k "add_" = true ->
    startswith (remove_prefix k "add_") "add_" = false.

(** Once a ground node is seen, no two swappers come without a ground node
    between them.  [pending] tells that a swapper has come since the last
    ground node. *)
Fixpoint lone_swappers (seen_ground pending : bool) (ns : list Qnode)
  : bool :=
  match ns with
  | [] => true
  | n :: rest =>
      match kind n with
      | Ground => lone_swappers true false rest
      | Swapper _ =>
          if seen_ground then negb pending && lone_swappers true true rest
          else lone_swappers false false rest
      | _ => lone_swappers seen_ground pending rest
      end
  end.

(** Every edge key is unique within its pair of nodes. *)
Fixpoint unique_keys (es : list Qchan) : bool :=
  match es with
  | [] => true
  | e :: rest =>
      negb (existsb (is_edge (src e) (dst e) (ekey e)) rest)
      && unique_keys rest
  end.

(** The same, as a test. *)
Definition single_markedb (d : dict) : bool :=
  forallb
    (fun kv =>
       negb (startswith (fst kv) "add_")
       || negb (startswith (remove_prefix (fst kv) "add_") "add_"))
    d.

Fixpoint unique (l : list string) : bool :=
  match l with
  | [] => true
  | k :: rest => negb (existsb (String.eqb k) rest) && unique rest
  end.

(** An element of a path is [None] or a dictionary of numbers, its keys
    all different. *)
Definition plain_dict (d : option dict) : Prop :=
  match d with
  | Some items => numeric items /\ NoDup (dict_keys items)
  | None => True
  end.

Definition plain_dictb (d : option dict) : bool :=
  match d with
  | Some items =>
      forallb (fun kv => is_num (snd kv)) items && unique (dict_keys items)
  | None => true
  end.

(** The elements [Path.get_cost_vector] sums: the data of the traversed
    edges, then the costs of the visited nodes. *)
Definition path_elements (edge_cvs : list (option dict)) (ns : list Qnode)
  : list (option dict) :=
  edge_cvs ++ map (fun n => Some (costs n)) ns.

(** The paths the loop of [swap_reduce] takes out of [G] one after the
    other, with the cost vector [swap_path] gives for each. *)
Fixpoint swapped (G : Qnet) (h t : string)
  (paths : list (list string * list nat)) (news : list dict) : Prop :=
  match paths, news with
  | [], [] => True
  | p :: paths', new :: news' =>
      In p (all_simple_paths G h t)
      /\ (exists path,
            Path_init G (fst p) (Some (snd p)) = Ok path
            /\ swap_path path = Ok new)
      /\ swapped (with_edges G (drop_edges (edges G) (fst p) (snd p))) h t
           paths' news'
  | _, _ => False
  end.

(** ** Further samples *)

Module More.

(** What a computation returns, [d] when it raises. *)
Definition returned {A} (d : A) (r : result A) : A :=
  match r with
  | Ok a => a
  | Raise _ => d
  end.

Definition two_hop_nodes : list Qnode :=
  [Samples.qnode "A" Plain; Samples.qnode "G" Ground; Samples.qnode "B" Plain].

Definition two_hop_edge_cvs : list (option dict) :=
  returned [] (edge_cost_vectors Samples.two_hop two_hop_nodes [0; 0]%nat).

Definition two_hop_cv : dict :=
  returned [] (get_cost_vector Samples.two_hop two_hop_nodes [0; 0]%nat).

Definition no_path : Path :=
  mkPath [] [] (Samples.qnode "A" Plain) (Samples.qnode "A" Plain) [].

(** The path A - G - B of the two-hop sample, over the default keys. *)
Definition two_hop_path : Path :=
  returned no_path (Path_init Samples.two_hop ["A"; "G"; "B"] None).

(** The path A - T - B, a swapper between two plain nodes. *)
Definition groundless_path : Path :=
  mkPath
    [Samples.qnode "A" Plain; Samples.qnode "T" (Swapper (1 # 2));
     Samples.qnode "B" Plain]
    [0; 0]%nat
    (Samples.qnode "A" Plain) (Samples.qnode "B" Plain)
    (Samples.cv (1 # 2) 1).

(** The path G1 - T1 - G2 - T2 - G3. *)
Definition relay_path : Path :=
  mkPath
    [Samples.qnode "G1" Ground; Samples.qnode "T1" (Swapper (1 # 2));
     Samples.qnode "G2" Ground; Samples.qnode "T2" (Swapper (1 # 3));
     Samples.qnode "G3" Ground]
    [0; 0; 0; 0]%nat
    (Samples.qnode "G1" Ground) (Samples.qnode "G3" Ground)
    (Samples.cv (1 # 2) 1).

(** The two-hop sample percolated with probability 1 around the pair
    (A, B), every draw being one half. *)
Definition thinned : Qnet * list pair * rng :=
  returned (Samples.apart, [], Samples.halves)
    (percolate Samples.two_hop 1 (Samples.fixed_pair "A" "B")
       Samples.halves).

(** The sample of two pairs percolated with probability one half around
    both pairs, every draw being one half. *)
Definition kept : Qnet * list pair * rng :=
  returned (Samples.apart, [], Samples.halves)
    (percolate Samples.two_pairs (1 # 2)
       (Samples.fixed_pairs [("A", "B"); ("C", "D")]) Samples.halves).

(** The endpoints of the sample whose edge carries "t" in its additive
    form only, what their edge holds, and the sum over the path. *)
Definition additive_nodes : list Qnode :=
  [Samples.qnode "A" Plain; Samples.qnode "B" Plain].

Definition additive_edge_cvs : list (option dict) :=
  returned [] (edge_cost_vectors Samples.additive_only additive_nodes [0%nat]).

Definition additive_sum : dict :=
  returned []
    (sum_cost_vectors
       (additive_edge_cvs ++ map (fun n => Some (costs n)) additive_nodes)).

(** A sweep of three steps over the range (4/5, 1/5) on the sample with
    two parallel edges, two trials a step, every draw being one half. *)
Definition swept : DataFrame * rng :=
  returned (mkDataFrame [] [], Samples.halves)
    (monte_method Samples.mean_ef Samples.sem_of_equal Samples.parallel
       (Samples.fixed_pair "A" "B") Samples.purify Samples.score 2 3
       (Some (4 # 5, 1 # 5)) Samples.halves).

End More.

(** * Properties *)

Open Scope nat_scope.

(** ** Dictionaries *)

Lemma dict_get_set {V} (k k' : string) (v : V) (d : list (string * V)) :
  dict_get k (dict_set k' v d)
  = if String.eqb k k' then Some v else dict_get k d.
Proof.
  induction d as [|[a w] d IH]; simpl.
  - reflexivity.
  - destruct (String.eqb_spec k' a) as [->|Hne]; simpl.
    + destruct (String.eqb k a); reflexivity.
    + rewrite IH. destruct (String.eqb_spec k k') as [->|Hne'].
      * apply String.eqb_neq in Hne. now rewrite Hne.
      * reflexivity.
Qed.

Lemma dict_mem_set {V} (k k' : string) (v : V) (d : list (string * V)) :
  dict_mem k (dict_set k' v d) = String.eqb k k' || dict_mem k d.
Proof.
  unfold dict_mem. rewrite dict_get_set.
  destruct (String.eqb k k'); reflexivity.
Qed.

Lemma dict_set_length {V} (k : string) (v : V) (d : list (string * V)) :
  dict_mem k d = true -> length (dict_set k v d) = length d.
Proof.
  unfold dict_mem. induction d as [|[a w] d IH]; simpl.
  - discriminate.
  - destruct (String.eqb k a); simpl; auto.
Qed.

Lemma dict_get_In {V} (k : string) (v : V) (d : list (string * V)) :
  dict_get k d = Some v -> In (k, v) d.
Proof.
  induction d as [|[a w] d IH]; simpl; [discriminate|].
  destruct (String.eqb_spec k a) as [->|]; intros H.
  - injection H as ->. now left.
  - right. auto.
Qed.

Lemma dict_mem_In {V} (k : string) (d : list (string * V)) :
  dict_mem k d = true <-> In k (dict_keys d).
Proof.
  unfold dict_mem, dict_keys.
  induction d as [|[a w] d IH]; simpl.
  - split; [discriminate | tauto].
  - destruct (String.eqb_spec k a) as [->|Hne].
    + split; auto.
    + rewrite IH. split; [tauto|]. intros [H|H]; [congruence | exact H].
Qed.

Lemma dict_mem_item {V} (k : string) (d : list (string * V)) :
  dict_mem k d = true -> exists v, dict_item k d = Ok v /\ In (k, v) d.
Proof.
  unfold dict_mem, dict_item. destruct (dict_get k d) eqn:E; [|discriminate].
  intros _. eexists. split; [reflexivity|]. now apply dict_get_In.
Qed.

Lemma numeric_set k v d :
  numeric d -> is_num v = true -> numeric (dict_set k v d).
Proof.
  unfold numeric. induction d as [|[a w] d IH]; simpl; intros Hd Hv.
  - constructor; auto.
  - inversion Hd; subst. destruct (String.eqb k a); constructor; auto.
Qed.

Lemma numeric_get k v d : numeric d -> dict_get k d = Some v -> is_num v = true.
Proof.
  intros Hd Hg. apply dict_get_In in Hg.
  unfold numeric in Hd. rewrite Forall_forall in Hd. exact (Hd _ Hg).
Qed.

Lemma is_num_as_num v : is_num v = true -> exists q, v = VNum q.
Proof. destruct v; [eauto | discriminate]. Qed.

(** ** Summing cost vectors *)

Lemma counter_add_items_ok items : forall counter,
  numeric counter -> numeric items ->
  exists c, counter_add_items counter items = Ok c /\ numeric c
    /\ forall k, dict_mem k c = dict_mem k counter || dict_mem k items.
Proof.
  induction items as [|[elem count] items IH]; intros counter Hc Hi; simpl.
  - exists counter. repeat split; auto. intros k. now rewrite orb_false_r.
  - inversion Hi as [|? ? Hcount Hi']; subst. simpl in Hcount.
    destruct (is_num_as_num _ Hcount) as [q ->].
    assert (Hold : exists o, match dict_get elem counter with
                             | Some v => v | None => VNum 0 end = VNum o).
    { destruct (dict_get elem counter) eqn:E.
      - apply is_num_as_num. exact (numeric_get _ _ _ Hc E).
      - eauto. }
    destruct Hold as [o ->]. simpl.
    destruct (IH (dict_set elem (VNum (q + o)) counter)) as (c & Hr & Hn & Hm).
    { apply numeric_set; auto. }
    { exact Hi'. }
    exists c. repeat split; auto.
    intros k. rewrite Hm, dict_mem_set.
    unfold dict_mem at 4. simpl.
    destruct (String.eqb k elem); simpl.
    + now rewrite orb_true_r.
    + reflexivity.
Qed.

Lemma counter_update_ok counter d :
  numeric counter -> numeric_opt d ->
  exists c, counter_update counter d = Ok c /\ numeric c
    /\ forall k, dict_mem k c = dict_mem k counter || mem_opt k d.
Proof.
  intros Hc Hd. destruct d as [items|]; simpl in *.
  - destruct counter as [|kv counter].
    + exists items. repeat split; auto.
    + apply counter_add_items_ok; auto.
  - exists counter. repeat split; auto. intros. now rewrite orb_false_r.
Qed.

Lemma sum_cost_vectors_from_ok cvs : forall counter,
  numeric counter -> Forall numeric_opt cvs ->
  exists c, sum_cost_vectors_from counter cvs = Ok c /\ numeric c
    /\ forall k, dict_mem k c = dict_mem k counter || existsb (mem_opt k) cvs.
Proof.
  induction cvs as [|d cvs IH]; intros counter Hc Hall; simpl.
  - exists counter. repeat split; auto. intros. now rewrite orb_false_r.
  - inversion Hall; subst.
    destruct (counter_update_ok counter d) as (c1 & -> & Hn1 & Hm1); auto.
    simpl. destruct (IH c1) as (c & Hr & Hn & Hm); auto.
    exists c. repeat split; auto.
    intros k. now rewrite Hm, Hm1, orb_assoc.
Qed.

Lemma sum_cost_vectors_ok cvs :
  Forall numeric_opt cvs ->
  exists c, sum_cost_vectors cvs = Ok c /\ numeric c
    /\ forall k, dict_mem k c = existsb (mem_opt k) cvs.
Proof.
  intros H. destruct (sum_cost_vectors_from_ok cvs []) as (c & Hr & Hn & Hm);
    auto.
  - constructor.
  - exists c. repeat split; auto.
Qed.

Lemma cv_ok_spec convs d :
  cv_ok convs d = true -> numeric d /\ closed convs d.
Proof.
  unfold cv_ok. rewrite forallb_forall. intros H. split.
  - apply Forall_forall. intros kv Hin. apply H in Hin.
    now apply andb_prop in Hin.
  - intros k Hk Hadd. destruct (dict_mem_item _ _ Hk) as (v & _ & Hin).
    apply H in Hin. simpl in Hin. rewrite Hadd in Hin.
    apply andb_prop in Hin as [_ Hin]. now apply andb_prop in Hin.
Qed.

Lemma convert_additive_ok G size0 todo : forall d,
  numeric d -> closed (conversions G) d ->
  (forall k, In k todo -> dict_mem k d = true) ->
  length d = size0 ->
  exists d', convert_additive G size0 todo d = Ok d' /\ numeric d'
    /\ forall k, dict_mem k d' = dict_mem k d.
Proof.
  induction todo as [|cost_type todo IH]; intros d Hn Hc Hin Hlen.
  - simpl. rewrite Hlen, Nat.eqb_refl. simpl. exists d. auto.
  - simpl. rewrite Hlen, Nat.eqb_refl. simpl.
    assert (Hk : dict_mem cost_type d = true) by (apply Hin; now left).
    destruct (startswith cost_type "add_") eqn:Hadd.
    + destruct (Hc _ Hk Hadd) as [Hp Hconv].
      destruct (dict_mem_item _ _ Hk) as (cost & -> & Hcost). simpl.
      destruct (dict_mem_item _ _ Hconv) as (conv & -> & _). simpl.
      assert (Hnum : is_num cost = true).
      { unfold numeric in Hn. rewrite Forall_forall in Hn.
        exact (Hn _ Hcost). }
      destruct (is_num_as_num _ Hnum) as [x ->]. simpl.
      set (d1 := dict_set _ _ d).
      assert (Hmem : forall k, dict_mem k d1 = dict_mem k d).
      { intros k. unfold d1. rewrite dict_mem_set.
        destruct (String.eqb_spec k (remove_prefix cost_type "add_"))
          as [->|]; simpl; auto. }
      destruct (IH d1) as (d' & Hr & Hn' & Hm').
      * apply numeric_set; auto.
      * intros k Hk1 Hk2. rewrite !Hmem in *. auto.
      * intros k Hk1. rewrite Hmem. apply Hin. now right.
      * unfold d1. rewrite dict_set_length; auto.
      * exists d'. repeat split; auto. intros k. now rewrite Hm', Hmem.
    + apply IH; auto. intros k Hk1. apply Hin. now right.
Qed.

(** ** Edges and chains *)

Lemma remove_first_some {A} (p : A -> bool) l :
  existsb p l = true ->
  exists l', remove_first p l = Some l' /\ S (length l') = length l
    /\ incl l' l.
Proof.
  induction l as [|x l IH]; simpl; [discriminate|].
  destruct (p x) eqn:E; simpl.
  - intros _. exists l. repeat split; auto. apply incl_tl, incl_refl.
  - intros H. destruct (IH H) as (l' & -> & Hlen & Hincl). simpl.
    exists (x :: l'). repeat split; simpl; auto.
    intros y [->|Hy]; [now left | right; auto].
Qed.

Lemma remove_first_existsb {A} (p q : A -> bool) l l' :
  remove_first p l = Some l' ->
  (forall e, p e = true -> q e = false) ->
  existsb q l' = existsb q l.
Proof.
  revert l'. induction l as [|x l IH]; simpl; intros l'; [discriminate|].
  destruct (p x) eqn:E.
  - intros H Hpq. injection H as <-. now rewrite (Hpq _ E).
  - destruct (remove_first p l) as [l1|] eqn:E1; simpl; [|discriminate].
    intros H Hpq. injection H as <-. simpl. now rewrite (IH _ eq_refl Hpq).
Qed.

Lemma joins_ends e u v :
  joins e u v = true ->
  (src e = u /\ dst e = v) \/ (src e = v /\ dst e = u).
Proof.
  unfold joins. intros H. apply orb_prop in H as [H|H];
    apply andb_prop in H as [H1 H2];
    apply String.eqb_eq in H1, H2; auto.
Qed.

Lemma is_edge_apart a b k x y k' e :
  a <> x -> a <> y -> is_edge a b k e = true -> is_edge x y k' e = false.
Proof.
  unfold is_edge. intros Hx Hy H. apply andb_prop in H as [H _].
  destruct (joins e x y) eqn:E; [|reflexivity].
  apply joins_ends in H, E. exfalso.
  destruct H as [[? ?]|[? ?]], E as [[? ?]|[? ?]]; congruence.
Qed.

Lemma is_chain_remove a b k es es' : forall ns ks,
  remove_first (is_edge a b k) es = Some es' ->
  ~ In a ns -> is_chain es ns ks = true -> is_chain es' ns ks = true.
Proof.
  induction ns as [|x ns IH]; intros ks Hrm Hnot; simpl; auto.
  destruct ns as [|y ns]; destruct ks as [|k' ks]; auto.
  intros H. apply andb_prop in H as [H1 H2].
  apply andb_true_intro. split.
  - rewrite (remove_first_existsb _ (is_edge x y k') _ _ Hrm); auto.
    intros e He. eapply is_edge_apart; eauto; intros ->; apply Hnot; simpl;
      auto.
  - apply IH; auto. intros Hin. apply Hnot. now right.
Qed.

Lemma drop_edges_spec : forall ns ks es,
  NoDup ns -> is_chain es ns ks = true ->
  length (drop_edges es ns ks) + length ks = length es
  /\ incl (drop_edges es ns ks) es.
Proof.
  induction ns as [|a ns IH]; intros ks es Hnd; simpl; [discriminate|].
  destruct ns as [|b ns]; destruct ks as [|k ks]; try discriminate.
  - intros _. split; [simpl; lia | apply incl_refl].
  - intros H. apply andb_prop in H as [H1 H2].
    destruct (remove_first_some _ _ H1) as (es' & Hrm & Hlen & Hincl).
    rewrite Hrm. inversion Hnd as [|? ? Hnot Hnd']; subst.
    destruct (IH ks es' Hnd') as [IH1 IH2].
    { eapply is_chain_remove; eauto. }
    split; [cbn [length]; lia|]. eapply incl_tran; eauto.
Qed.

Lemma remove_edges_from_step G a b rest k ks :
  remove_edges_from G (a :: b :: rest) (k :: ks)
  = (G' <- remove_edge G (name a) (name b) k ;;
     remove_edges_from G' (b :: rest) ks).
Proof. reflexivity. Qed.

Lemma is_chain_step es a b ns k ks :
  is_chain es (a :: b :: ns) (k :: ks)
  = existsb (is_edge a b k) es && is_chain es (b :: ns) ks.
Proof. reflexivity. Qed.

Lemma drop_edges_step es a b ns k ks :
  drop_edges es (a :: b :: ns) (k :: ks)
  = drop_edges
      (match remove_first (is_edge a b k) es with
       | Some es' => es'
       | None => es
       end) (b :: ns) ks.
Proof. reflexivity. Qed.

Lemma with_edges_same G : with_edges G (edges G) = G.
Proof. destruct G; reflexivity. Qed.

Lemma remove_edges_from_ok : forall (nsq : list Qnode) ks G,
  NoDup (map name nsq) -> is_chain (edges G) (map name nsq) ks = true ->
  remove_edges_from G nsq ks
  = Ok (with_edges G (drop_edges (edges G) (map name nsq) ks)).
Proof.
  induction nsq as [|a nsq IH]; intros ks G Hnd; [discriminate|].
  destruct nsq as [|b nsq]; destruct ks as [|k ks]; try discriminate.
  - intros _. simpl. now rewrite with_edges_same.
  - cbn [map] in *. rewrite is_chain_step, remove_edges_from_step,
      drop_edges_step.
    intros H. apply andb_prop in H as [H1 H2].
    destruct (remove_first_some _ _ H1) as (es' & Hrm & Hlen & Hincl).
    unfold remove_edge. rewrite Hrm. cbn [bind].
    inversion Hnd as [|? ? Hnot Hnd']; subst.
    rewrite (IH ks (with_edges G es')); auto.
    cbn [edges with_edges]. eapply is_chain_remove; eauto.
Qed.

(** ** The enumeration of simple paths *)

Lemma other_end_joins e cur nxt :
  other_end e cur = Some nxt ->
  joins e cur nxt = true /\ (src e = nxt \/ dst e = nxt).
Proof.
  unfold other_end, joins.
  destruct (String.eqb_spec (src e) cur) as [Hs|Hs].
  - intros H. injection H as <-. rewrite String.eqb_refl. simpl. auto.
  - destruct (String.eqb_spec (dst e) cur) as [Hd|Hd]; [|discriminate].
    intros H. injection H as <-. rewrite String.eqb_refl.
    rewrite andb_true_r, orb_true_r. auto.
Qed.

Lemma last_cons {A} (l : list A) : forall a d, last (a :: l) d = last l a.
Proof.
  induction l as [|b l IH]; intros a d; [reflexivity|].
  change (last (a :: b :: l) d) with (last (b :: l) d).
  now rewrite (IH b d), (IH b a).
Qed.

Lemma last_In {A} (l : list A) : forall a, In (last l a) (a :: l).
Proof.
  induction l as [|b l IH]; intros a; [now left|].
  rewrite last_cons. right. apply IH.
Qed.

(** What is enumerated is a chain of distinct nodes from [cur] to [tgt]
    that avoids the visited nodes. *)
Lemma simple_paths_sound es tgt : forall fuel vis cur ns ks,
  In (ns, ks) (simple_paths_from fuel es vis cur tgt) ->
  In cur vis ->
  is_chain es ns ks = true
  /\ (exists rest, ns = cur :: rest
        /\ (forall x, In x rest -> ~ In x vis /\ endpoint es x)
        /\ last rest cur = tgt)
  /\ NoDup ns
  /\ (cur <> tgt -> ks <> []).
Proof.
  induction fuel as [|fuel IH]; intros vis cur ns ks Hin Hcur; simpl in Hin.
  - contradiction.
  - destruct (String.eqb_spec cur tgt) as [->|Hne].
    + destruct Hin as [Hin|[]]. injection Hin as <- <-.
      split; [reflexivity|]. split; [|split].
      * exists []. split; auto. split; auto. intros x [].
      * constructor; [intros [] | constructor].
      * congruence.
    + apply in_flat_map in Hin as (e & He & Hin).
      destruct (other_end e cur) as [nxt|] eqn:Eo; [|contradiction].
      destruct (existsb (String.eqb nxt) vis) eqn:Ev; [contradiction|].
      apply in_map_iff in Hin as ([ns' ks'] & Heq & Hin).
      simpl in Heq. injection Heq as <- <-.
      destruct (IH (nxt :: vis) nxt ns' ks' Hin (or_introl eq_refl))
        as (Hch & (rest & -> & Hrest & Hlast) & Hnd & _).
      destruct (other_end_joins _ _ _ Eo) as [Hj Hend].
      assert (Hnv : ~ In nxt vis).
      { intros Hx. rewrite <- Bool.not_true_iff_false in Ev. apply Ev.
        apply existsb_exists. exists nxt. split; auto.
        apply String.eqb_refl. }
      split; [|split; [|split]].
      * rewrite is_chain_step. apply andb_true_intro. split; auto.
        apply existsb_exists. exists e. split; auto.
        unfold is_edge. now rewrite Hj, Nat.eqb_refl.
      * exists (nxt :: rest). split; auto. split.
        -- intros x [<-|Hx].
           ++ split; auto. exists e. auto.
           ++ destruct (Hrest x Hx) as [Hx1 Hx2]. split; auto.
              intros Hv. apply Hx1. now right.
        -- now rewrite last_cons.
      * constructor; auto. intros [<-|Hx]; [auto|].
        destruct (Hrest _ Hx) as [Hx1 _]. apply Hx1. now right.
      * discriminate.
Qed.

Lemma is_edge_other_end a b k e :
  a <> b -> is_edge a b k e = true ->
  other_end e a = Some b /\ ekey e = k.
Proof.
  unfold is_edge, other_end. intros Hne H.
  apply andb_prop in H as [Hj Hk]. apply Nat.eqb_eq in Hk.
  split; [|exact Hk].
  apply joins_ends in Hj as [[Hs Hd]|[Hs Hd]].
  - rewrite Hs, String.eqb_refl. now rewrite Hd.
  - rewrite Hs, Hd, String.eqb_refl.
    replace (String.eqb b a) with false; auto.
    symmetry. apply String.eqb_neq. congruence.
Qed.

(** Every chain of distinct nodes from [cur] to [tgt] that avoids the
    visited nodes is enumerated, given fuel beyond its number of edges. *)
Lemma simple_paths_complete es tgt : forall ns ks fuel vis cur,
  is_chain es (cur :: ns) ks = true ->
  NoDup (cur :: ns) ->
  (forall x, In x ns -> ~ In x vis) ->
  last ns cur = tgt ->
  length ks < fuel ->
  In (cur :: ns, ks) (simple_paths_from fuel es vis cur tgt).
Proof.
  induction ns as [|nxt ns IH]; intros ks fuel vis cur Hch Hnd Hvis Hlast Hfuel;
    (destruct fuel as [|fuel]; [lia|]); simpl simple_paths_from.
  - simpl in Hlast. subst tgt. rewrite String.eqb_refl.
    destruct ks; [now left | discriminate].
  - destruct ks as [|k ks]; [discriminate|].
    rewrite is_chain_step in Hch. apply andb_prop in Hch as [He Hch].
    apply NoDup_cons_iff in Hnd as [Hcur Hnd'].
    rewrite last_cons in Hlast.
    assert (Hne : String.eqb cur tgt = false).
    { apply String.eqb_neq. intros Heq. apply Hcur. rewrite Heq, <- Hlast.
      apply last_In. }
    rewrite Hne.
    apply existsb_exists in He as (e & Hin & He).
    destruct (is_edge_other_end cur nxt k e) as [Ho Hk]; auto.
    { intros ->. apply Hcur. now left. }
    assert (Hnv : existsb (String.eqb nxt) vis = false).
    { apply not_true_iff_false. intros H.
      apply existsb_exists in H as (y & Hy & Hey).
      apply String.eqb_eq in Hey. subst y.
      apply (Hvis nxt); [now left | auto]. }
    apply in_flat_map. exists e. split; auto. rewrite Ho, Hnv.
    apply in_map_iff. exists (nxt :: ns, ks). rewrite Hk. split; auto.
    apply IH; auto.
    + intros x Hx [<-|Hv].
      * apply NoDup_cons_iff in Hnd' as [Hn _]. auto.
      * apply (Hvis x); [now right | exact Hv].
    + simpl in Hfuel. lia.
Qed.

(** The enumeration is exact: it lists the chains of distinct nodes from
    [u] to [v] and nothing else, so that [has_path] answers whether the two
    nodes are connected. *)
Lemma all_simple_paths_spec G u v ns ks :
  In (ns, ks) (all_simple_paths G u v)
  <-> (is_chain (edges G) ns ks = true /\ NoDup ns
       /\ exists rest, ns = u :: rest /\ last rest u = v).
Proof.
  unfold all_simple_paths. split.
  - intros Hin.
    destruct (simple_paths_sound _ _ _ _ _ _ _ Hin (or_introl eq_refl))
      as (Hch & (rest & -> & _ & Hlast) & Hnd & _).
    split; auto. split; auto. exists rest. auto.
  - intros (Hch & Hnd & rest & -> & Hlast).
    apply simple_paths_complete; auto.
    + intros x Hx [<-|[]]. apply NoDup_cons_iff in Hnd as [Hn _]. auto.
    + destruct (drop_edges_spec _ _ _ Hnd Hch) as [Hlen _]. lia.
Qed.

(** ** Paths over a well-formed snapshot *)

Lemma well_formed_spec G :
  well_formed G = true ->
  dict_mem "f" (conversions G) = true
  /\ dict_mem "e" (conversions G) = true
  /\ (forall n, In n (nodes G) -> cv_ok (conversions G) (costs n) = true)
  /\ (forall e, In e (edges G) -> chan_ok G e = true).
Proof.
  unfold well_formed. intros H.
  apply andb_prop in H as [H He]. apply andb_prop in H as [H Hn].
  apply andb_prop in H as [Hf Hce].
  rewrite forallb_forall in Hn, He. auto.
Qed.

Lemma well_formed_with_edges G es :
  well_formed G = true -> incl es (edges G) ->
  well_formed (with_edges G es) = true.
Proof.
  intros H Hincl. destruct (well_formed_spec _ H) as (Hf & He & Hn & Hch).
  unfold well_formed. cbn [with_edges conversions nodes edges].
  rewrite Hf, He. cbn [andb].
  apply andb_true_intro. split.
  - apply forallb_forall. exact Hn.
  - apply forallb_forall. intros e Hin. exact (Hch _ (Hincl _ Hin)).
Qed.

Lemma chan_ok_spec G e :
  chan_ok G e = true ->
  cv_ok (conversions G) (data e) = true
  /\ dict_mem "f" (data e) = true /\ dict_mem "e" (data e) = true
  /\ has_node G (src e) = true /\ has_node G (dst e) = true.
Proof.
  unfold chan_ok. intros H.
  apply andb_prop in H as [H H5]. apply andb_prop in H as [H H4].
  apply andb_prop in H as [H H3]. apply andb_prop in H as [H1 H2]. auto.
Qed.

Lemma getNode_some G n :
  has_node G n = true ->
  exists x, getNode G n = Some x /\ name x = n /\ In x (nodes G).
Proof.
  unfold has_node, getNode. induction (nodes G) as [|y l IH]; simpl.
  - discriminate.
  - destruct (String.eqb_spec (name y) n) as [E|E]; simpl.
    + intros _. exists y. auto.
    + intros H. destruct (IH H) as (x & Hx & Hn & Hin). exists x. auto.
Qed.

Lemma lookup_nodes G : forall ns,
  (forall n, In n ns -> has_node G n = true) ->
  exists l,
    mapM (fun n => match getNode G n with
                   | Some x => Ok x
                   | None => Raise AssertionError
                   end) ns = Ok l
    /\ map name l = ns /\ Forall (fun x => In x (nodes G)) l.
Proof.
  induction ns as [|n ns IH]; intros H; simpl.
  - exists []. auto.
  - destruct (getNode_some G n) as (x & -> & Hn & Hin); [apply H; now left|].
    destruct IH as (l & -> & Hl & Hall); [intros; apply H; now right|].
    simpl. exists (x :: l). repeat split; simpl; auto. now rewrite Hn, Hl.
Qed.

Lemma existsb_find {A} (p : A -> bool) l :
  existsb p l = true -> exists x, find p l = Some x /\ In x l.
Proof.
  induction l as [|y l IH]; simpl; [discriminate|].
  destruct (p y); simpl.
  - intros _. exists y. auto.
  - intros H. destruct (IH H) as (x & Hx & Hin). exists x. auto.
Qed.

Lemma edge_cost_vectors_step G a b rest k ks :
  edge_cost_vectors G (a :: b :: rest) (k :: ks)
  = (tl <- edge_cost_vectors G (b :: rest) ks ;;
     Ok (get_edge_data G (name a) (name b) k :: tl)).
Proof. reflexivity. Qed.

Lemma edge_cost_vectors_ok G :
  (forall e, In e (edges G) -> chan_ok G e = true) ->
  forall nsq ks,
    is_chain (edges G) (map name nsq) ks = true ->
    exists l, edge_cost_vectors G nsq ks = Ok l
      /\ Forall (good_opt (conversions G)) l
      /\ (ks <> [] -> existsb (mem_opt "f") l = true
                     /\ existsb (mem_opt "e") l = true).
Proof.
  intros Hch. induction nsq as [|a nsq IH]; intros ks; [discriminate|].
  destruct nsq as [|b nsq]; destruct ks as [|k ks]; try discriminate.
  - intros _. exists []. repeat split; auto; congruence.
  - cbn [map]. rewrite is_chain_step, edge_cost_vectors_step.
    intros H. apply andb_prop in H as [H1 H2].
    destruct (IH ks H2) as (l & -> & Hl & _). cbn [bind].
    destruct (existsb_find _ _ H1) as (e & Hfind & Hin).
    unfold get_edge_data. rewrite Hfind. cbn [option_map].
    destruct (chan_ok_spec _ _ (Hch _ Hin)) as (Hok & Hf & He & _).
    eexists. split; [reflexivity|]. split.
    + constructor; auto. simpl. now apply cv_ok_spec.
    + intros _. simpl. now rewrite Hf, He.
Qed.

Lemma consecutive_step G a b rest :
  consecutive_in_edges G (a :: b :: rest)
  = in_edges G (name a) (name b) && consecutive_in_edges G (b :: rest).
Proof. reflexivity. Qed.

Lemma consecutive_ok G : forall nsq ks,
  is_chain (edges G) (map name nsq) ks = true ->
  consecutive_in_edges G nsq = true.
Proof.
  induction nsq as [|a nsq IH]; intros ks; [reflexivity|].
  destruct nsq as [|b nsq]; destruct ks as [|k ks]; try discriminate; auto.
  cbn [map]. rewrite is_chain_step, consecutive_step.
  intros H. apply andb_prop in H as [H1 H2].
  apply andb_true_intro. split; [|eauto].
  apply existsb_exists in H1 as (e & Hin & He).
  apply existsb_exists. exists e. split; auto.
  unfold is_edge in He. now apply andb_prop in He.
Qed.

Lemma existsb_app_l {A} (p : A -> bool) l l' :
  existsb p l = true -> existsb p (l ++ l') = true.
Proof. intros H. rewrite existsb_app, H. reflexivity. Qed.

Lemma get_cost_vector_ok G nsq ks :
  well_formed G = true ->
  Forall (fun x => In x (nodes G)) nsq ->
  is_chain (edges G) (map name nsq) ks = true ->
  exists cv, get_cost_vector G nsq ks = Ok cv
    /\ numeric cv /\ closed (conversions G) cv
    /\ (ks <> [] -> dict_mem "f" cv = true /\ dict_mem "e" cv = true).
Proof.
  intros Hwf Hnodes Hchain.
  destruct (well_formed_spec _ Hwf) as (_ & _ & Hn & Hch).
  destruct (edge_cost_vectors_ok G Hch nsq ks Hchain) as (l & Hl & Hgood & Hfe).
  unfold get_cost_vector. rewrite Hl. cbn [bind].
  set (elements := l ++ map (fun n => Some (costs n)) nsq).
  assert (Hel : Forall (good_opt (conversions G)) elements).
  { apply Forall_app. split; auto.
    apply Forall_forall. intros d Hd. apply in_map_iff in Hd as (x & <- & Hx).
    rewrite Forall_forall in Hnodes. simpl. apply cv_ok_spec. auto. }
  destruct (sum_cost_vectors_ok elements) as (c & -> & Hnum & Hmem).
  { eapply Forall_impl; [|exact Hel]. intros [d|]; simpl; tauto. }
  cbn [bind].
  assert (Hclosed : closed (conversions G) c).
  { intros k Hk Hadd. rewrite Hmem in Hk.
    apply existsb_exists in Hk as (d & Hd & Hkd).
    rewrite Forall_forall in Hel. specialize (Hel _ Hd).
    destruct d as [d|]; [|discriminate]. simpl in *.
    destruct Hel as [_ Hc]. destruct (Hc _ Hkd Hadd) as [H1 H2].
    split; auto. rewrite Hmem. apply existsb_exists. exists (Some d). auto. }
  destruct (convert_additive_ok G (length c) (dict_keys c) c)
    as (cv & Hr & Hnum' & Hmem'); auto.
  { intros k0. apply dict_mem_In. }
  exists cv. split; [exact Hr|]. split; [exact Hnum'|]. split.
  - intros k Hk Hadd. rewrite !Hmem' in *. auto.
  - intros Hks. rewrite !Hmem', !Hmem.
    split; apply existsb_app_l; now apply Hfe.
Qed.

Lemma Path_init_ok G ns ks :
  well_formed G = true ->
  (forall n, In n ns -> has_node G n = true) ->
  is_chain (edges G) ns ks = true ->
  exists p, Path_init G ns (Some ks) = Ok p
    /\ map name (node_array p) = ns /\ edge_keys p = ks
    /\ (ks <> [] -> good_cv (conversions G) (cost_vector p)).
Proof.
  intros Hwf Hns Hchain.
  destruct (lookup_nodes G ns Hns) as (l & Hl & Hnames & Hall).
  unfold Path_init. rewrite Hl. cbn [bind].
  destruct l as [|hd l].
  { subst ns. discriminate. }
  rewrite <- Hnames in Hchain.
  destruct (get_cost_vector_ok G (hd :: l) ks Hwf Hall Hchain)
    as (cv & -> & Hnum & Hcl & Hfe).
  cbn [bind]. rewrite (consecutive_ok _ _ _ Hchain). cbn [py_assert bind].
  eexists. split; [reflexivity|]. cbn [node_array edge_keys cost_vector].
  split; [exact Hnames|]. split; [reflexivity|].
  intros Hks. destruct (Hfe Hks). unfold good_cv. auto.
Qed.

(** ** The cost vector of the purified edge *)

Lemma mapM_item_ok key : forall cvs,
  Forall (fun cv => numeric cv /\ dict_mem key cv = true) cvs ->
  exists vs, mapM (dict_item key) cvs = Ok vs
    /\ Forall (fun v => is_num v = true) vs /\ length vs = length cvs.
Proof.
  induction cvs as [|cv cvs IH]; intros H; simpl.
  - exists []. auto.
  - inversion H as [|? ? [Hn Hm] H']; subst.
    destruct (dict_mem_item _ _ Hm) as (v & -> & Hin).
    destruct (IH H') as (vs & -> & Hvs & Hlen). simpl.
    exists (v :: vs). repeat split; simpl; auto.
    constructor; auto. unfold numeric in Hn. rewrite Forall_forall in Hn.
    exact (Hn _ Hin).
Qed.

Lemma reduce_from_ok ft : forall l acc,
  is_num acc = true -> Forall (fun v => is_num v = true) l ->
  exists q, reduce_from (fid_transform ft) acc l = Ok (VNum q).
Proof.
  induction l as [|x l IH]; intros acc Ha Hl; simpl.
  - destruct (is_num_as_num _ Ha) as [q ->]. eauto.
  - inversion Hl; subst.
    destruct (is_num_as_num _ Ha) as [q ->].
    destruct (is_num_as_num x) as [r ->]; auto. simpl. apply IH; auto.
Qed.

Lemma py_min_from_ok : forall l m,
  is_num m = true -> Forall (fun v => is_num v = true) l ->
  exists q, py_min_from m l = Ok (VNum q).
Proof.
  induction l as [|x l IH]; intros m Hm Hl; simpl.
  - destruct (is_num_as_num _ Hm) as [q ->]. eauto.
  - inversion Hl; subst.
    destruct (is_num_as_num _ Hm) as [q ->].
    destruct (is_num_as_num x) as [r ->]; auto. simpl.
    apply IH; auto. now destruct (Qltb r q).
Qed.

Lemma other_costs_ok Q0 sum_cv : forall todo new_cv,
  (forall k, In k todo ->
     dict_mem k sum_cv = true
     /\ (startswith k "add_" = true ->
         dict_mem (remove_prefix k "add_") (conversions Q0) = true)) ->
  exists r, other_costs Q0 todo sum_cv new_cv = Ok r.
Proof.
  induction todo as [|k todo IH]; intros new_cv H; simpl.
  - eauto.
  - assert (IH' : forall cv, exists r, other_costs Q0 todo sum_cv cv = Ok r).
    { intros cv. apply IH. intros; apply H; now right. }
    destruct (H k (or_introl eq_refl)) as [Hk Hconv].
    destruct (negb (dict_mem k new_cv)); simpl; auto.
    destruct (startswith k "add_") eqn:Hadd; auto.
    destruct (dict_mem_item _ _ Hk) as (v & -> & _). simpl.
    destruct (dict_mem_item _ _ (Hconv eq_refl)) as (c & -> & _). simpl.
    auto.
Qed.

Lemma purified_cost_vector_ok ft Q0 prob cvs n :
  dict_mem "f" (conversions Q0) = true ->
  dict_mem "e" (conversions Q0) = true ->
  cvs <> [] -> Forall (good_cv (conversions Q0)) cvs ->
  exists new_cv, purified_cost_vector ft Q0 prob cvs n = Ok new_cv.
Proof.
  intros Hcf Hce Hne Hgood. unfold purified_cost_vector.
  destruct (mapM_item_ok "f" cvs) as (fs & -> & Hfs & Hlf).
  { eapply Forall_impl; [|exact Hgood]. unfold good_cv. tauto. }
  cbn [bind].
  destruct fs as [|f0 fs].
  { destruct cvs; [congruence | discriminate]. }
  inversion Hfs; subst. cbn [functools_reduce].
  destruct (reduce_from_ok ft fs f0) as (pf & ->); auto. cbn [bind].
  destruct (dict_mem_item _ _ Hcf) as (conv_f & -> & _). cbn [bind as_num].
  destruct (mapM_item_ok "e" cvs) as (es & -> & Hes & Hle).
  { eapply Forall_impl; [|exact Hgood]. unfold good_cv. tauto. }
  cbn [bind].
  destruct es as [|e0 es].
  { destruct cvs; [congruence | discriminate]. }
  inversion Hes; subst. cbn [py_min].
  destruct (py_min_from_ok es e0) as (pe & ->); auto.
  cbn [bind py_mul as_num].
  destruct (dict_mem_item _ _ Hce) as (conv_e & -> & _). cbn [bind].
  destruct (sum_cost_vectors_ok (map Some cvs)) as (c & -> & Hnum & Hmem).
  { apply Forall_forall. intros d Hd. apply in_map_iff in Hd as (cv & <- & Hcv).
    rewrite Forall_forall in Hgood. apply Hgood in Hcv. simpl.
    unfold good_cv in Hcv. tauto. }
  cbn [bind]. apply other_costs_ok.
  intros k Hk. apply dict_mem_In in Hk. split; auto.
  intros Hadd. rewrite Hmem in Hk.
  apply existsb_exists in Hk as (d & Hd & Hkd).
  apply in_map_iff in Hd as (cv & <- & Hcv). simpl in Hkd.
  rewrite Forall_forall in Hgood. destruct (Hgood _ Hcv) as (_ & Hcl & _).
  now destruct (Hcl _ Hkd Hadd).
Qed.

(** ** The extraction loop of purify_reduce *)

Lemma has_path_nodes G u v b :
  has_path G u v = Ok b -> has_node G u = true /\ has_node G v = true.
Proof.
  unfold has_path.
  destruct (has_node G u), (has_node G v); simpl; try discriminate; auto.
Qed.

Lemma counter_exceeds_zero threshold :
  check_threshold threshold = Ok tt -> counter_exceeds 0 threshold = false.
Proof.
  destruct threshold as [[z|q]|]; simpl; try discriminate; auto.
  destruct (0 <? z)%Z eqn:E; simpl; [|discriminate].
  intros _. apply Z.ltb_lt in E. apply Z.ltb_ge. lia.
Qed.

Section PurifyLoop.

Variable bp : Qnet -> string -> string -> string -> result Path.
Variable ft : Q -> Q -> Q.

(** What the reductions rely on: when the two nodes are connected, the
    search returns the [Path] built over one of the simple paths between
    them. *)
Hypothesis bp_simple : forall G u v cost_type,
  has_path G u v = Ok true ->
  exists ns ks,
    In (ns, ks) (all_simple_paths G u v)
    /\ bp G u v cost_type = Path_init G ns (Some ks).

Lemma extract_path C h t cost_type :
  well_formed C = true -> h <> t -> has_path C h t = Ok true ->
  exists p ns ks,
    In (ns, ks) (all_simple_paths C h t)
    /\ Path_init C ns (Some ks) = Ok p
    /\ bp C h t cost_type = Ok p
    /\ remove_edges p C = Ok (with_edges C (drop_edges (edges C) ns ks))
    /\ good_cv (conversions C) (cost_vector p)
    /\ ks <> []
    /\ length (drop_edges (edges C) ns ks) + length ks = length (edges C)
    /\ incl (drop_edges (edges C) ns ks) (edges C).
Proof.
  intros Hwf Hne Hpath.
  destruct (bp_simple C h t cost_type Hpath) as (ns & ks & Hin & Hbp).
  destruct (has_path_nodes _ _ _ _ Hpath) as [Hh Ht].
  destruct (simple_paths_sound _ _ _ _ _ _ _ Hin (or_introl eq_refl))
    as (Hchain & (rest & Hns & Hrest & _) & Hnd & Hks).
  destruct (well_formed_spec _ Hwf) as (_ & _ & _ & Hch).
  destruct (Path_init_ok C ns ks Hwf) as (p & Hp & Hnames & Hkeys & Hgood);
    auto.
  { subst ns. intros n [<-|Hn]; auto.
    destruct (Hrest _ Hn) as [_ (e & He & Hend)].
    destruct (chan_ok_spec _ _ (Hch _ He)) as (_ & _ & _ & Hs & Hd).
    destruct Hend as [<-|<-]; auto. }
  destruct (drop_edges_spec ns ks (edges C) Hnd Hchain) as [Hlen Hincl].
  exists p, ns, ks. rewrite Hbp. split; [exact Hin|].
  split; [exact Hp|]. split; [exact Hp|]. split; [|auto].
  unfold remove_edges. rewrite Hkeys, <- Hnames.
  apply remove_edges_from_ok; now rewrite Hnames.
Qed.

Lemma purify_loop_ok threshold h t :
  h <> t -> check_threshold threshold = Ok tt ->
  forall fuel C cvs k,
    well_formed C = true ->
    has_node C h = true -> has_node C t = true ->
    length (edges C) < fuel ->
    exists paths cvs',
      purify_loop bp fuel threshold C h t cvs k
      = Ok (with_edges C (without_paths paths (edges C)),
            cvs ++ cvs', k + length cvs')
      /\ extracted C h t paths cvs'
      /\ length paths = length cvs'
      /\ Forall (good_cv (conversions C)) cvs'
      /\ length (without_paths paths (edges C)) + length paths
         <= length (edges C)
      /\ incl (without_paths paths (edges C)) (edges C)
      /\ (has_path C h t = Ok true -> counter_exceeds k threshold = false ->
          paths <> []).
Proof.
  intros Hne Hthr.
  induction fuel as [|fuel IH]; intros C cvs k Hwf Hh Ht Hfuel; [lia|].
  assert (Hstop :
    exists paths cvs',
      Ok (C, cvs, k)
      = Ok (with_edges C (without_paths paths (edges C)),
            cvs ++ cvs', k + length cvs')
      /\ extracted C h t paths cvs'
      /\ length paths = length cvs'
      /\ Forall (good_cv (conversions C)) cvs'
      /\ length (without_paths paths (edges C)) + length paths
         <= length (edges C)
      /\ incl (without_paths paths (edges C)) (edges C)
      /\ paths = []).
  { exists [], []. cbn [without_paths fold_left length].
    rewrite with_edges_same, app_nil_r, !Nat.add_0_r.
    cbn [extracted]. repeat split; auto. apply incl_refl. }
  cbn [purify_loop].
  assert (Hhp : exists b, has_path C h t = Ok b).
  { unfold has_path. rewrite Hh, Ht. simpl. eauto. }
  destruct Hhp as [b Hb]. rewrite Hb. cbn [bind].
  destruct b.
  - destruct (counter_exceeds k threshold) eqn:Hex.
    + destruct Hstop as (paths & cvs' & H1 & H0 & H2 & H3 & H4 & H5 & H6).
      exists paths, cvs'. split; [exact H1|]. split; [exact H0|].
      split; [exact H2|].
      split; [exact H3|]. split; [exact H4|]. split; [exact H5|].
      intros _. discriminate.
    + destruct (extract_path C h t "f" Hwf Hne Hb)
        as (p & ns & ks & Hin & Hinit & Hbp & Hrm & Hgood & Hks & Hlen
            & Hincl).
      rewrite Hbp. cbn [bind]. rewrite Hrm. cbn [bind].
      destruct (IH (with_edges C (drop_edges (edges C) ns ks))
                  (cvs ++ [cost_vector p]) (S k))
        as (paths & cvs' & Hr & Hx & Hl & Hg & Hp & Hi & _); auto.
      { now apply well_formed_with_edges. }
      { cbn [edges with_edges]. destruct ks; [congruence|].
        cbn [length] in Hlen. lia. }
      exists ((ns, ks) :: paths), (cost_vector p :: cvs').
      rewrite Hr.
      change (without_paths ((ns, ks) :: paths) (edges C))
        with (without_paths paths (drop_edges (edges C) ns ks)).
      rewrite <- app_assoc. cbn [app length].
      rewrite Nat.add_succ_r.
      cbn [edges with_edges conversions] in Hp, Hi, Hg.
      split; [reflexivity|].
      split; [cbn [extracted fst snd]; eauto|].
      split; [congruence|].
      split; [constructor; auto|].
      split; [destruct ks; [congruence|]; cbn [length] in Hlen; lia|].
      split; [eapply incl_tran; eauto|].
      intros _ _. discriminate.
  - destruct Hstop as (paths & cvs' & H1 & H0 & H2 & H3 & H4 & H5 & H6).
    exists paths, cvs'. split; [exact H1|]. split; [exact H0|].
    split; [exact H2|].
    split; [exact H3|]. split; [exact H4|]. split; [exact H5|].
    discriminate.
Qed.

(** C1 (amended): on a well-formed snapshot in which some path joins two
    distinct nodes [h] and [t], [purify_reduce] returns, given fuel beyond
    the number of edges, the working copy and not the original snapshot.
    It purifies at least one path; each purified path is a simple path
    between [h] and [t] of the working copy as it then stands.  The nodes
    of the result are those of the input; its edges are the edges of the
    input with the edges of every purified path deleted (so at least one
    edge of the input is gone), followed by exactly one new edge between
    [h] and [t] that carries the combined cost vector of the purified
    paths. *)
Theorem purify_reduce_returns_working_copy fuel Q0 h t threshold prob :
  well_formed Q0 = true ->
  h <> t ->
  check_threshold threshold = Ok tt ->
  has_path Q0 h t = Ok true ->
  length (edges Q0) < fuel ->
  exists paths cvs new_cv R,
    purify_reduce bp ft fuel Q0 h t threshold prob = Ok R
    /\ paths <> [] /\ extracted Q0 h t paths cvs
    /\ purified_cost_vector ft Q0 prob cvs (length paths) = Ok new_cv
    /\ nodes R = nodes Q0
    /\ edges R
       = without_paths paths (edges Q0)
         ++ [mkQchan h t
               (new_edge_key
                  (with_edges Q0 (without_paths paths (edges Q0))) h t)
               new_cv]
    /\ incl (without_paths paths (edges Q0)) (edges Q0)
    /\ length (without_paths paths (edges Q0)) < length (edges Q0).
Proof.
  intros Hwf Hne Hthr Hpath Hfuel.
  destruct (has_path_nodes _ _ _ _ Hpath) as [Hh Ht].
  destruct (getNode_some _ _ Hh) as (x & Hx & Hxn & _).
  destruct (getNode_some _ _ Ht) as (y & Hy & Hyn & _).
  destruct (purify_loop_ok threshold h t Hne Hthr fuel Q0 [] 0)
    as (paths & cvs & Hloop & Hex & Hlen & Hgood & Hsize & Hincl & Hsome);
    auto.
  destruct (well_formed_spec _ Hwf) as (Hcf & Hce & _ & _).
  assert (Hpaths : paths <> []).
  { apply Hsome; auto. now apply counter_exceeds_zero. }
  destruct (purified_cost_vector_ok ft Q0 prob cvs (length cvs) Hcf Hce)
    as (new_cv & Hcv); auto.
  { destruct cvs; [|discriminate]. destruct paths; [congruence|discriminate]. }
  exists paths, cvs, new_cv.
  eexists. unfold purify_reduce. rewrite Hthr. cbn [bind].
  rewrite Hx, Hy, Hxn, Hyn, Hloop. cbn [bind app Nat.add].
  rewrite Hcv. cbn [bind].
  split; [reflexivity|]. split; [exact Hpaths|]. split; [exact Hex|].
  split; [now rewrite Hlen|]. split; [reflexivity|].
  split; [reflexivity|]. split; [exact Hincl|].
  destruct paths; [congruence|]. cbn [length] in Hsize. lia.
Qed.

End PurifyLoop.

Lemma mapM_raise {A B} (f : A -> result B) l e :
  mapM f l = Raise e -> exists x, In x l /\ f x = Raise e.
Proof.
  induction l as [|a l IH]; simpl; [discriminate|].
  destruct (f a) eqn:E; simpl.
  - destruct (mapM f l); simpl; [discriminate|].
    intros H. destruct IH as (x & Hx & Hf); auto. exists x. auto.
  - intros H. injection H as <-. exists a. auto.
Qed.

Lemma mapM_ok {A B} (f : A -> result B) l bs :
  mapM f l = Ok bs -> forall b, In b bs -> exists x, In x l /\ f x = Ok b.
Proof.
  revert bs. induction l as [|a l IH]; simpl; intros bs.
  - intros H. injection H as <-. intros b [].
  - destruct (f a) eqn:E; simpl; [|discriminate].
    destruct (mapM f l) as [bs'|]; simpl; [|discriminate].
    intros H. injection H as <-. intros b [<-|Hb].
    + exists a. auto.
    + destruct (IH _ eq_refl b Hb) as (x & Hx & Hf). exists x. auto.
Qed.

Lemma fold_better_in cost_type : forall others first,
  fold_left (better_of cost_type) others first = first
  \/ In (fold_left (better_of cost_type) others first) others.
Proof.
  induction others as [|p others IH]; intros first; simpl; auto.
  destruct (IH (better_of cost_type first p)) as [H|H]; auto.
  rewrite H. unfold better_of. destruct (Qltb _ _); auto.
Qed.

(** The search modelled from the spec is such a search. *)
Lemma best_path_simple G u v cost_type :
  has_path G u v = Ok true ->
  exists ns ks,
    In (ns, ks) (all_simple_paths G u v)
    /\ best_path G u v cost_type = Path_init G ns (Some ks).
Proof.
  unfold has_path, best_path.
  destruct (has_node G u && has_node G v); [|discriminate].
  destruct (all_simple_paths G u v) as [|[ns ks] rest]; [discriminate|].
  intros _. destruct (Path_init G ns (Some ks)) as [first|e] eqn:Efirst.
  - cbn [bind].
    destruct (mapM (fun p => Path_init G (fst p) (Some (snd p))) rest)
      as [others|e] eqn:Eothers; cbn [bind].
    + destruct (fold_better_in cost_type others first) as [H|H].
      * exists ns, ks. rewrite H. split; [now left | auto].
      * destruct (mapM_ok _ _ _ Eothers _ H) as ([ns' ks'] & Hin & Hp).
        exists ns', ks'. split; [now right | auto].
    + destruct (mapM_raise _ _ _ Eothers) as ([ns' ks'] & Hin & Hp).
      exists ns', ks'. split; [now right | auto].
  - exists ns, ks. split; [now left | auto].
Qed.

(** The hypotheses of the theorem hold of the two-hop sample. *)
Lemma purify_reduce_returns_working_copy_witness :
  exists paths cvs new_cv R,
    purify_reduce best_path fidTransform 3 Samples.two_hop "A" "B" None
      (1 # 2) = Ok R
    /\ paths <> [] /\ extracted Samples.two_hop "A" "B" paths cvs
    /\ purified_cost_vector fidTransform Samples.two_hop (1 # 2) cvs
         (length paths) = Ok new_cv
    /\ nodes R = nodes Samples.two_hop
    /\ edges R
       = without_paths paths (edges Samples.two_hop)
         ++ [mkQchan "A" "B"
               (new_edge_key
                  (with_edges Samples.two_hop
                     (without_paths paths (edges Samples.two_hop)))
                  "A" "B")
               new_cv]
    /\ incl (without_paths paths (edges Samples.two_hop))
         (edges Samples.two_hop)
    /\ length (without_paths paths (edges Samples.two_hop))
       < length (edges Samples.two_hop).
Proof.
  apply (purify_reduce_returns_working_copy best_path fidTransform
           best_path_simple 3 Samples.two_hop "A" "B" None (1 # 2)).
  - reflexivity.
  - discriminate.
  - reflexivity.
  - reflexivity.
  - simpl. lia.
Defined.

(** C1 as stated fails: on the two-hop sample the returned graph has a
    single edge, and neither edge of the input is among its edges. *)
Lemma purify_reduce_drops_path_edges :
  exists R,
    purify_reduce best_path fidTransform 3 Samples.two_hop "A" "B" None
      (1 # 2) = Ok R
    /\ length (edges R) = 1
    /\ forall e, In e (edges Samples.two_hop) -> ~ In e (edges R).
Proof.
  eexists. split; [reflexivity|]. split; [reflexivity|].
  intros e [<-|[<-|[]]] [H|[]]; discriminate H.
Qed.

(** ** The disconnected pair *)


Lemma some_pair_disconnected_spec P : forall pairs,
  some_pair_disconnected P pairs = Ok true
  <-> exists pre p post,
        pairs = pre ++ p :: post
        /\ Forall (fun q => has_path P (fst q) (snd q) = Ok true) pre
        /\ has_path P (fst p) (snd p) = Ok false.
Proof.
  induction pairs as [|q pairs IH]; cbn [some_pair_disconnected].
  - split; [discriminate|]. intros (pre & p & post & H & _).
    destruct pre; discriminate H.
  - destruct (has_path P (fst q) (snd q)) as [[|]|] eqn:E; cbn [bind].
    + rewrite IH. split.
      * intros (pre & p & post & -> & Hpre & Hp).
        exists (q :: pre), p, post. split; [reflexivity|].
        split; [now constructor | exact Hp].
      * intros (pre & p & post & H & Hpre & Hp).
        destruct pre as [|q' pre]; cbn [app] in H; injection H as <- ->.
        -- congruence.
        -- exists pre, p, post. split; [reflexivity|].
           split; [now inversion Hpre | exact Hp].
    + split; [|reflexivity]. intros _. exists [], q, pairs. auto.
    + split; [discriminate|]. intros (pre & p & post & H & Hpre & Hp).
      destruct pre as [|q' pre]; cbn [app] in H; injection H as <- ->.
      * congruence.
      * inversion Hpre; congruence.
Qed.

Lemma reduce_graph_sentinel Q0 pair_method prob reduction_method g P pairs
  g' :
  percolate Q0 prob pair_method g = Ok ((P, pairs), g') ->
  reduce_graph Q0 pair_method prob reduction_method g = Ok ((None, None), g')
  <-> some_pair_disconnected P pairs = Ok true.
Proof.
  intros Hperc. unfold reduce_graph. rewrite Hperc. cbn [bind].
  destruct (some_pair_disconnected P pairs) as [[|]|]; cbn [bind].
  - split; reflexivity.
  - split; [|discriminate]. destruct pairs as [|[u v] rest]; [discriminate|].
    destruct (reduction_method P u v); cbn [bind]; discriminate.
  - split; discriminate.
Qed.


(** With two selected pairs a party can be missing from the percolated
    graph (C3): with [prob = 1] every node of the sample of two pairs is
    deleted, and [reduce_graph] raises [NodeNotFound] at the first pair
    instead of returning the sentinel. *)
Example reduce_graph_two_pairs_raises :
  reduce_graph Samples.two_pairs
    (Samples.fixed_pairs [("A", "B"); ("C", "D")]) 1 Samples.purify
    Samples.halves
  = Raise NodeNotFound.
Proof. reflexivity. Qed.


(** ** percolate *)

(** C3 (code bug): with two selected pairs A - B and C - D and [prob = 1],
    [percolate] deletes A, a party of the first pair: the test
    [any(node not in item for item in pairs)] holds of a node as soon as
    one pair does not contain it. *)
Theorem percolate_deletes_party_of_second_pair :
  exists P g',
    percolate Samples.two_pairs 1
      (Samples.fixed_pairs [("A", "B"); ("C", "D")]) Samples.halves
    = Ok ((P, [("A", "B"); ("C", "D")]), g')
    /\ has_node Samples.two_pairs "A" = true
    /\ has_node P "A" = false
    /\ nodes P = [].
Proof. do 2 eexists. split; [reflexivity|]. repeat split. Qed.

Lemma mark_nodes_single_pair prob u v : forall ns g,
  ~ In u (fst (mark_nodes prob [(u, v)] ns g))
  /\ ~ In v (fst (mark_nodes prob [(u, v)] ns g)).
Proof.
  induction ns as [|n ns IH]; intros g; simpl; [tauto|].
  unfold node_in. simpl. rewrite orb_false_r.
  destruct (String.eqb_spec n u) as [->|Hu]; simpl; [apply IH|].
  destruct (String.eqb_spec n v) as [->|Hv]; simpl; [apply IH|].
  destruct (mark_nodes prob [(u, v)] ns _) as [kill g1] eqn:E.
  specialize (IH (mkRng (sample g) (S (cursor g)))). rewrite E in IH.
  destruct (Qltb _ prob); simpl in *; intuition congruence.
Qed.

Lemma existsb_filter {A} (p q : A -> bool) l :
  (forall y, q y = true -> p y = true) ->
  existsb q (filter p l) = existsb q l.
Proof.
  intros H. induction l as [|a l IH]; simpl; auto.
  destruct (p a) eqn:Ep; simpl.
  - now rewrite IH.
  - destruct (q a) eqn:Eq; [|exact IH].
    apply H in Eq. congruence.
Qed.

Lemma has_node_remove G kill x :
  ~ In x kill -> has_node (remove_nodes_from G kill) x = has_node G x.
Proof.
  intros Hx. unfold has_node, remove_nodes_from. cbn [nodes].
  apply existsb_filter. intros y Hy. apply String.eqb_eq in Hy. subst x.
  apply negb_true_iff. apply not_true_iff_false. intros Hk.
  apply existsb_exists in Hk as (z & Hz & Hez).
  apply String.eqb_eq in Hez. now subst z.
Qed.

(** With one selected pair, [percolate] keeps both parties. *)
Lemma percolate_keeps_single_pair Q0 prob pair_method g u v g1 P pairs g' :
  pair_method Q0 g = Ok (OnePair (u, v), g1) ->
  percolate Q0 prob pair_method g = Ok ((P, pairs), g') ->
  pairs = [(u, v)]
  /\ has_node P u = has_node Q0 u /\ has_node P v = has_node Q0 v.
Proof.
  unfold percolate. intros -> . cbn [bind].
  pose proof (mark_nodes_single_pair prob u v (map name (nodes Q0)) g1)
    as [Hu Hv].
  match goal with
  | |- context [mark_nodes ?a ?b ?c ?d] =>
      change (mark_nodes prob [(u, v)] (map name (nodes Q0)) g1)
        with (mark_nodes a b c d) in Hu, Hv;
      destruct (mark_nodes a b c d) as [kill g2]
  end.
  intros H. injection H as <- <- <-. simpl in Hu, Hv.
  split; [reflexivity|]. split; now apply has_node_remove.
Qed.

Lemma mark_nodes_prob_zero pairs : forall ns g,
  (forall i, (0 <= sample g i)%Q) ->
  fst (mark_nodes 0 pairs ns g) = [].
Proof.
  induction ns as [|n ns IH]; intros g Hg; simpl; auto.
  destruct (existsb _ pairs); [|auto].
  specialize (IH (mkRng (sample g) (S (cursor g))) Hg).
  destruct (mark_nodes 0 pairs ns _) as [kill g1]. simpl in *.
  unfold Qltb. rewrite (proj2 (Qle_bool_iff 0 _) (Hg (cursor g))). exact IH.
Qed.

Lemma filter_all {A} (p : A -> bool) l :
  (forall x, p x = true) -> filter p l = l.
Proof.
  intros H. induction l as [|x l IH]; simpl; auto. now rewrite H, IH.
Qed.

(** With [prob = 0], [percolate] removes no node and no edge, whatever the
    pairs, as long as the draws are not negative. *)
Lemma percolate_prob_zero Q0 pair_method g P pairs g' :
  (forall G g0 r g1, pair_method G g0 = Ok (r, g1) -> sample g1 = sample g0) ->
  (forall i, (0 <= sample g i)%Q) ->
  percolate Q0 0 pair_method g = Ok ((P, pairs), g') ->
  nodes P = nodes Q0 /\ edges P = edges Q0.
Proof.
  unfold percolate. intros Hpm Hg.
  destruct (pair_method Q0 g) as [[r g1]|] eqn:E; [|discriminate].
  cbn [bind].
  set (ps := match r with PairList l => l | OnePair p => [p] end).
  pose proof (mark_nodes_prob_zero ps (map name (nodes Q0)) g1) as Hk.
  destruct (mark_nodes 0 ps (map name (nodes Q0)) g1) as [kill g2].
  simpl in Hk. rewrite Hk.
  - intros H. injection H as <- _ _. unfold remove_nodes_from. simpl.
    split; apply filter_all; reflexivity.
  - intros i. rewrite (Hpm _ _ _ _ E). apply Hg.
Qed.

(** ** swap_path *)

(** C4 (code bug): on the path G1 - T1 - T2 - G2 both swappers have a
    ground node on either side, with swap probabilities 1/2 and 1/3, but
    [swap_path] records T2 alone: the efficiency is multiplied by 1/3 and
    not by 1/6. *)
Theorem swap_path_counts_last_swapper_only :
  exists p cv,
    Path_init Samples.two_swappers ["G1"; "T1"; "T2"; "G2"] None = Ok p
    /\ valid_swap_probs false (node_array p) = [1 # 2; 1 # 3]
    /\ swap_costs_of (node_array p) = [1 # 3]
    /\ swap_path p = Ok cv
    /\ dict_get "e" (cost_vector p) = Some (VNum 1)
    /\ dict_get "e" cv = Some (VNum (1 * (1 * (1 # 3))))
    /\ ~ (1 * (1 * (1 # 3)) == 1 * (1 * (1 # 2) * (1 # 3)))%Q.
Proof.
  do 2 eexists. split; [reflexivity|].
  repeat (split; [reflexivity|]). intros H. discriminate H.
Qed.

(** [swap_path] changes the efficiency only. *)
Lemma swap_path_frame p cv k :
  swap_path p = Ok cv -> k <> "e" ->
  dict_get k cv = dict_get k (cost_vector p).
Proof.
  unfold swap_path. destruct (dict_item "e" (cost_vector p)); [|discriminate].
  cbn [bind]. destruct (py_mul _ _); [|discriminate]. cbn [bind].
  intros H Hk. injection H as <-. rewrite dict_get_set.
  apply String.eqb_neq in Hk. now rewrite Hk.
Qed.

Lemma swap_costs_no_swapper : forall ns st,
  Forall (fun n => isinstance_Swapper n = false) ns ->
  snd (fst st) = None ->
  snd (fold_left swap_step ns st) = snd st.
Proof.
  induction ns as [|n ns IH]; intros [[gs sw] costs] Hall Hsw; simpl in *; auto.
  inversion Hall as [|? ? Hn Hall']; subst.
  unfold isinstance_Swapper in Hn. unfold isinstance_Ground.
  destruct (kind n); try discriminate; simpl;
    try (destruct gs; simpl; rewrite IH; auto);
    rewrite IH; auto.
Qed.

(** A path with no swapper keeps its cost vector: the factor is 1. *)
Lemma swap_path_no_swapper p e :
  Forall (fun n => isinstance_Swapper n = false) (node_array p) ->
  dict_get "e" (cost_vector p) = Some (VNum e) ->
  swap_path p = Ok (dict_set "e" (VNum (e * 1)) (cost_vector p)).
Proof.
  intros Hall He. unfold swap_path, dict_item. rewrite He. cbn [bind].
  unfold swap_cost_of, swap_costs_of.
  rewrite (swap_costs_no_swapper _ (false, None, []) Hall eq_refl).
  reflexivity.
Qed.

(** ** The threshold of purify_reduce *)

(** C5 (code bug): with [threshold = 1] and two parallel edges between A
    and B, the extraction loop records and removes two paths: the test
    [path_counter > threshold] lets a path through when the counter equals
    the threshold. *)
Theorem purify_loop_exceeds_threshold :
  exists C cv_list,
    purify_loop best_path 5 (Some (ArgInt 1)) Samples.parallel "A" "B" [] 0
    = Ok (C, cv_list, 2)
    /\ check_threshold (Some (ArgInt 1)) = Ok tt
    /\ length cv_list = 2
    /\ length (edges Samples.parallel) = 2
    /\ edges C = [].
Proof. do 2 eexists. split; [reflexivity|]. repeat split. Qed.

(** ** Path construction and the cost vector of a path *)

(** C6 (code bug): in the two-hop sample G and B are joined by an edge of
    key 0 only, yet the path A - G - B with the keys 0 and 7 is constructed:
    the closing check looks at the node pairs and not at the keys, and the
    missing edge counts for nothing in the cost vector (efficiency 9/10,
    against 8/10 over the existing keys). *)
Theorem Path_init_accepts_missing_key :
  get_edge_data Samples.two_hop "G" "B" 7 = None
  /\ exists p full e e',
       Path_init Samples.two_hop ["A"; "G"; "B"] (Some [0; 7]) = Ok p
       /\ edge_keys p = [0; 7]
       /\ dict_get "e" (cost_vector p) = Some (VNum e)
       /\ (e == 9 # 10)%Q
       /\ Path_init Samples.two_hop ["A"; "G"; "B"] (Some [0; 0]) = Ok full
       /\ dict_get "e" (cost_vector full) = Some (VNum e')
       /\ (e' == 8 # 10)%Q.
Proof.
  split; [reflexivity|]. do 4 eexists.
  split; [reflexivity|]. split; [reflexivity|]. split; [reflexivity|].
  split; [reflexivity|]. split; [reflexivity|]. split; reflexivity.
Qed.

Lemma dict_set_length_new {V} (k : string) (v : V) (d : list (string * V)) :
  dict_mem k d = false -> length (dict_set k v d) = S (length d).
Proof.
  unfold dict_mem. induction d as [|[a w] d IH]; simpl; auto.
  destruct (String.eqb k a); simpl; [discriminate | auto].
Qed.

(** The conversion loop never returns when some additive-marked dimension
    it is to visit has no plain counterpart in the summed vector. *)
Lemma convert_additive_raises G size0 : forall todo d k,
  In k todo -> startswith k "add_" = true ->
  dict_mem (remove_prefix k "add_") d = false ->
  forall r, convert_additive G size0 todo d <> Ok r.
Proof.
  induction todo as [|c todo IH]; intros d k Hin Hadd Hmiss r; [contradiction|].
  simpl. destruct (Nat.eqb (length d) size0) eqn:Hlen; simpl; [|discriminate].
  apply Nat.eqb_eq in Hlen.
  destruct (startswith c "add_") eqn:Hc.
  - destruct (dict_item c d) as [cost|]; [|discriminate]. cbn [bind].
    destruct (dict_item _ (conversions G)) as [conv|]; [|discriminate].
    cbn [bind]. destruct (as_num cost) as [x|]; [|discriminate]. cbn [bind].
    destruct (dict_mem (remove_prefix c "add_") d) eqn:Hplain.
    + destruct Hin as [->|Hin]; [congruence|].
      apply (IH _ k); auto. rewrite dict_mem_set, Hmiss, orb_false_r.
      apply String.eqb_neq. intros Heq. congruence.
    + destruct todo as [|c' todo]; simpl;
        rewrite (dict_set_length_new _ _ _ Hplain), Hlen;
        (replace (Nat.eqb (S size0) size0) with false
           by (symmetry; apply Nat.eqb_neq; lia)); discriminate.
  - destruct Hin as [->|Hin]; [congruence|]. apply (IH _ k); auto.
Qed.

(** X2: [Path.get_cost_vector], lines 105-116: it returns no vector when
    the summed vector has an additive-marked dimension without its plain
    counterpart. *)
Lemma get_cost_vector_needs_plain G ns ks edge_cvs new_cv k :
  edge_cost_vectors G ns ks = Ok edge_cvs ->
  sum_cost_vectors (edge_cvs ++ map (fun n => Some (costs n)) ns)
  = Ok new_cv ->
  dict_mem k new_cv = true -> startswith k "add_" = true ->
  dict_mem (remove_prefix k "add_") new_cv = false ->
  forall cv, get_cost_vector G ns ks <> Ok cv.
Proof.
  intros He Hs Hk Hadd Hmiss cv. unfold get_cost_vector.
  rewrite He. cbn [bind]. rewrite Hs. cbn [bind].
  apply (convert_additive_raises G _ _ _ k); auto.
  now apply dict_mem_In.
Qed.

(** C7 (code bug): the edge of the sample carries "add_t" and no "t", and
    "t" has a registered conversion; the summed vector then has "add_t"
    without "t", and the conversion loop, which inserts the new key "t"
    into the dictionary it is iterating over, raises [RuntimeError]: no
    cost vector and no path is returned. *)
Theorem get_cost_vector_additive_only_raises :
  exists new_cv,
    sum_cost_vectors
      [get_edge_data Samples.additive_only "A" "B" 0;
       Some (costs (Samples.qnode "A" Plain));
       Some (costs (Samples.qnode "B" Plain))] = Ok new_cv
    /\ dict_mem "add_t" new_cv = true
    /\ dict_mem "t" new_cv = false
    /\ dict_mem "t" (conversions Samples.additive_only) = true
    /\ get_cost_vector Samples.additive_only
         [Samples.qnode "A" Plain; Samples.qnode "B" Plain] [0]
       = Raise RuntimeError
    /\ Path_init Samples.additive_only ["A"; "B"] None = Raise RuntimeError.
Proof. eexists. split; [reflexivity|]. repeat split. Qed.

(** ** The other dimensions of the purified edge *)

(** C8 (code bug): the purified path carries a third dimension "t" in both
    forms; the new edge has the additive sum under "add_t", but under "t"
    it has the inverse conversion itself, a function, where
    [Path.get_cost_vector] stores the conversion applied to the sum. *)
Theorem purify_reduce_stores_conversion_function :
  exists R new s,
    purify_reduce best_path fidTransform 3 Samples.timed "A" "B" None (1 # 2)
    = Ok R
    /\ edges R = [new]
    /\ dict_get "add_t" (data new) = Some (VNum s) /\ (s == 1 # 2)%Q
    /\ dict_get "t" (data new) = Some (VFun Samples.from_add).
Proof.
  do 3 eexists. split; [reflexivity|]. split; [reflexivity|].
  split; [reflexivity|]. split; reflexivity.
Qed.

(** ** swap_reduce *)

(** C10: for a positive integer [k], [swap_reduce] with [threshold = k]
    returns what it returns with no threshold, whatever the search, the
    snapshot and the fuel: the argument is read by the two assertions
    only. *)
Theorem swap_reduce_ignores_threshold bp fuel Q0 h t k :
  (0 < k)%Z ->
  swap_reduce bp fuel Q0 h t (Some (ArgInt k)) = swap_reduce bp fuel Q0 h t None.
Proof.
  intros Hk. unfold swap_reduce, check_threshold.
  apply Z.ltb_lt in Hk. rewrite Hk. reflexivity.
Qed.

(** The theorem at the two-hop sample and the threshold 2. *)
Lemma swap_reduce_ignores_threshold_witness :
  swap_reduce best_path 3 Samples.two_hop "A" "B" (Some (ArgInt 2))
  = swap_reduce best_path 3 Samples.two_hop "A" "B" None.
Proof.
  apply (swap_reduce_ignores_threshold best_path 3 Samples.two_hop "A" "B" 2).
  reflexivity.
Defined.

(** There [swap_reduce] returns the working copy with one new edge. *)
Example swap_reduce_two_hop :
  exists R new,
    swap_reduce best_path 3 Samples.two_hop "A" "B" (Some (ArgInt 2)) = Ok R
    /\ edges R = [new] /\ src new = "A" /\ dst new = "B".
Proof. do 2 eexists. split; [reflexivity|]. repeat split. Qed.

(** ** The probability grid *)

Lemma inject_nat_nonzero m : m <> 0 -> ~ (inject_Z (Z.of_nat m) == 0)%Q.
Proof.
  intros Hm H. unfold Qeq in H. simpl in H. lia.
Qed.

Lemma linspace_grid lo hi num :
  (2 <= num)%Z ->
  exists grid,
    linspace lo hi num = Ok grid
    /\ length grid = Z.to_nat num
    /\ last grid 0%Q = hi
    /\ forall i, i < Z.to_nat num ->
         (nth i grid 0 == grid_point lo hi (Z.to_nat num) i)%Q.
Proof.
  intros Hnum. unfold linspace.
  replace (num <? 0)%Z with false by (symmetry; apply Z.ltb_ge; lia).
  remember (Z.to_nat num) as n eqn:Hn.
  destruct n as [|[|m]]; [lia | lia |].
  replace (1 <? S (S m)) with true by reflexivity.
  change (S (S m) - 1) with (S m).
  set (div := inject_Z (Z.of_nat (S m))).
  assert (Hdiv : ~ (div == 0)%Q) by (apply inject_nat_nonzero; lia).
  set (f := fun i : nat =>
              if Qeq_bool ((hi - lo) / div) 0
              then (inject_Z (Z.of_nat i) / div * (hi - lo) + lo)%Q
              else (inject_Z (Z.of_nat i) * ((hi - lo) / div) + lo)%Q).
  assert (Hy : (if Qeq_bool ((hi - lo) / div) 0
                then map (fun i => (inject_Z (Z.of_nat i) / div * (hi - lo)
                                    + lo)%Q) (seq 0 (S (S m)))
                else map (fun i => (inject_Z (Z.of_nat i) * ((hi - lo) / div)
                                    + lo)%Q) (seq 0 (S (S m))))
               = map f (seq 0 (S (S m)))).
  { unfold f. destruct (Qeq_bool ((hi - lo) / div) 0); reflexivity. }
  rewrite Hy. rewrite (seq_S (S m) 0), map_app. cbn [map].
  rewrite removelast_last.
  eexists. split; [reflexivity|]. split; [|split].
  - rewrite length_app, length_map, length_seq. simpl. lia.
  - apply last_last.
  - intros i Hi. unfold grid_point. change (S (S m) - 1) with (S m).
    fold div.
    destruct (Nat.eq_dec i (S m)) as [->|Hne].
    + rewrite app_nth2; rewrite length_map, length_seq; [|lia].
      rewrite Nat.sub_diag. simpl nth. fold div. field. exact Hdiv.
    + rewrite app_nth1 by (rewrite length_map, length_seq; lia).
      rewrite (nth_indep _ 0%Q (f 0)) by (rewrite length_map, length_seq; lia).
      rewrite map_nth, seq_nth by lia. simpl Nat.add. unfold f.
      destruct (Qeq_bool ((hi - lo) / div) 0); field; exact Hdiv.
Qed.

Lemma grid_point_mono lo hi n i j :
  (lo <= hi)%Q -> i <= j -> (grid_point lo hi n i <= grid_point lo hi n j)%Q.
Proof.
  intros Hle Hij. unfold grid_point.
  apply Qplus_le_r. apply Qmult_le_compat_r.
  - rewrite <- Zle_Qle. lia.
  - destruct (n - 1) as [|m].
    + unfold Qdiv, Qinv. simpl. rewrite Qmult_0_r. apply Qle_refl.
    + apply Qle_shift_div_l.
      * unfold Qlt. simpl. lia.
      * rewrite Qmult_0_l. unfold Qminus. rewrite <- Qle_minus_iff. exact Hle.
Qed.

Lemma linspace_grid_any lo hi num :
  (0 <= num)%Z ->
  exists grid,
    linspace lo hi num = Ok grid
    /\ length grid = Z.to_nat num
    /\ (2 <= Z.to_nat num -> last grid 0%Q = hi)
    /\ forall i, i < Z.to_nat num ->
         (nth i grid 0 == grid_point lo hi (Z.to_nat num) i)%Q.
Proof.
  intros Hnum.
  destruct (Z_lt_le_dec num 2) as [Hsmall|Hbig].
  - unfold linspace.
    replace (num <? 0)%Z with false by (symmetry; apply Z.ltb_ge; lia).
    assert (Hn : Z.to_nat num = 0 \/ Z.to_nat num = 1) by lia.
    destruct Hn as [-> | ->]; cbn [Nat.ltb Nat.leb seq map];
      eexists; (split; [reflexivity|]); (split; [reflexivity|]);
      (split; [lia|]); intros i Hi; [lia|].
    assert (i = 0) by lia. subst i. unfold grid_point. cbn [nth].
    change (inject_Z (Z.of_nat 0)) with 0%Q. ring.
  - destruct (linspace_grid lo hi num Hbig) as (grid & H1 & H2 & H3 & H4).
    exists grid. auto.
Qed.

Lemma linspace_negative lo hi num :
  (num < 0)%Z -> linspace lo hi num = Raise ValueError.
Proof.
  intros H. unfold linspace. apply Z.ltb_lt in H. now rewrite H.
Qed.

Lemma grid_point_anti lo hi n i j :
  (hi <= lo)%Q -> i <= j -> (grid_point lo hi n j <= grid_point lo hi n i)%Q.
Proof.
  intros Hle Hij.
  pose proof (grid_point_mono hi lo n i j Hle Hij) as H.
  unfold grid_point in *.
  apply Qplus_le_r in H. apply Qplus_le_r.
  apply Qopp_le_compat in H.
  setoid_replace (inject_Z (Z.of_nat j) * ((hi - lo) / inject_Z (Z.of_nat (n - 1))))%Q
    with (- (inject_Z (Z.of_nat j) * ((lo - hi) / inject_Z (Z.of_nat (n - 1)))))%Q.
  - setoid_replace (inject_Z (Z.of_nat i) * ((hi - lo) / inject_Z (Z.of_nat (n - 1))))%Q
      with (- (inject_Z (Z.of_nat i) * ((lo - hi) / inject_Z (Z.of_nat (n - 1)))))%Q.
    + exact H.
    + unfold Qdiv. ring.
  - unfold Qdiv. ring.
Qed.

Lemma even_grid_of_points lo hi n grid :
  length grid = n ->
  (2 <= n -> last grid 0%Q = hi) ->
  (forall i, i < n -> (nth i grid 0 == grid_point lo hi n i)%Q) ->
  even_grid lo hi n grid.
Proof.
  intros Hlen Hlast Hnth.
  split; [exact Hlen|]. split; [exact Hnth|].
  split; [|split; [exact Hlast|split]].
  - intros Hn. rewrite Hnth by lia. unfold grid_point.
    change (inject_Z (Z.of_nat 0)) with 0%Q. ring.
  - intros Hle i j Hij Hj. rewrite (Hnth i), (Hnth j) by lia.
    now apply grid_point_mono.
  - intros Hle i j Hij Hj. rewrite (Hnth i), (Hnth j) by lia.
    now apply grid_point_anti.
Qed.

(** ** The table of monte_method *)

Lemma set_row_length name val : forall rs index,
  length (set_row index name val rs) = length rs.
Proof.
  induction rs as [|r rs IH]; intros [|i]; simpl; auto.
Qed.

Lemma set_row_other name val key : forall rs index,
  name <> key ->
  map (dict_get key) (set_row index name val rs) = map (dict_get key) rs.
Proof.
  induction rs as [|r rs IH]; intros [|i] Hne; simpl; auto.
  - rewrite dict_get_set.
    replace (String.eqb key name) with false; auto.
    symmetry. apply String.eqb_neq. congruence.
  - now rewrite IH.
Qed.

Lemma keeps_p_refl df : keeps_p df df.
Proof. split; reflexivity. Qed.

Lemma keeps_p_trans a b c : keeps_p a b -> keeps_p b c -> keeps_p a c.
Proof. unfold keeps_p. intros [H1 H2] [H3 H4]. split; congruence. Qed.

Lemma at_set_series_keeps_p index : forall (s : Series) df,
  ~ In "p" (map fst s) ->
  keeps_p df
    (fold_left (fun main nv => at_set main index (fst nv) (snd nv)) s df).
Proof.
  induction s as [|[name val] s IH]; intros df Hp; simpl.
  - apply keeps_p_refl.
  - simpl in Hp. eapply keeps_p_trans; [|apply IH; tauto].
    split; unfold column; simpl.
    + apply set_row_length.
    + apply set_row_other. tauto.
Qed.

Lemma append_length a b :
  String.length (String.append a b) = String.length a + String.length b.
Proof. induction a as [|c a IH]; simpl; auto. Qed.

Lemma rename_labels old new (s : Series) l :
  In l (map fst (rename old new s)) -> l = new \/ In l (map fst s).
Proof.
  unfold rename. induction s as [|[k v] s IH]; simpl; [tauto|].
  destruct (String.eqb k old); simpl; intuition.
Qed.

Lemma renamed_std_labels : forall names (std : Series) l,
  In l (map fst
          (fold_left (fun std name =>
                        rename name (String.append name " (std)") std)
             names std)) ->
  In l (map fst std) \/ exists name, l = String.append name " (std)".
Proof.
  induction names as [|n names IH]; intros std l; simpl; auto.
  intros H. apply IH in H as [H|H]; auto.
  apply rename_labels in H as [->|H]; eauto.
Qed.

Section Sweep.

Variable df_mean df_sem : list dict -> Series.
Variable Q0 : Qnet.
Variable pair_method : Qnet -> rand pairs_value.
Variable reduction_method : Qnet -> string -> string -> result Qnet.
Variable data_method : option Qnet -> option (list pair) -> result dict.
Variable num_iters : nat.

(** No statistic is labelled like the probability column. *)
Hypothesis stats_not_p : forall minor,
  ~ In "p" (map fst (df_mean minor)) /\ ~ In "p" (map fst (df_sem minor)).

Lemma monte_step_returned main index p g main' g' :
  monte_step df_mean df_sem Q0 pair_method reduction_method data_method
    num_iters main index p g = Ok (main', g') ->
  keeps_p main main'
  /\ exists graph_list minor,
       generate_graphs Q0 pair_method reduction_method num_iters p g
       = Ok (graph_list, g')
       /\ mapM (fun Rp => data_method (fst Rp) (snd Rp)) graph_list
          = Ok minor.
Proof.
  unfold monte_step.
  destruct (generate_graphs Q0 pair_method reduction_method num_iters p g)
    as [[graph_list g1]|]; [|discriminate].
  cbn [bind].
  destruct (mapM _ graph_list) as [minor|] eqn:Hm; [|discriminate].
  cbn [bind]. intros H. injection H as <- <-.
  split; [|eauto].
  destruct (stats_not_p minor) as [Hmean Hsem].
  eapply keeps_p_trans; apply at_set_series_keeps_p; auto.
  intros H. apply renamed_std_labels in H as [H|[name H]]; auto.
  apply (f_equal String.length) in H. rewrite append_length in H.
  simpl in H. lia.
Qed.

Lemma monte_step_returns main index p g graph_list g1 minor :
  generate_graphs Q0 pair_method reduction_method num_iters p g
  = Ok (graph_list, g1) ->
  mapM (fun Rp => data_method (fst Rp) (snd Rp)) graph_list = Ok minor ->
  exists main',
    monte_step df_mean df_sem Q0 pair_method reduction_method data_method
      num_iters main index p g = Ok (main', g1).
Proof.
  intros Hg Hm. unfold monte_step. rewrite Hg. cbn [bind]. rewrite Hm.
  cbn [bind]. eexists. reflexivity.
Qed.

Lemma monte_loop_returned : forall prob_list main index g main' g',
  monte_loop df_mean df_sem Q0 pair_method reduction_method data_method
    num_iters main index prob_list g = Ok (main', g') ->
  keeps_p main main'
  /\ trials_return_along Q0 pair_method reduction_method data_method
       num_iters prob_list g.
Proof.
  induction prob_list as [|p rest IH]; intros main index g main' g' H;
    cbn [monte_loop] in H.
  - injection H as <- <-. split; [apply keeps_p_refl | exact I].
  - destruct (monte_step df_mean df_sem Q0 pair_method reduction_method
                data_method num_iters main index p g)
      as [[m1 g1]|] eqn:Hs; [|discriminate].
    cbn [bind] in H.
    destruct (monte_step_returned _ _ _ _ _ _ Hs)
      as (Hk & graph_list & minor & Hg & Hm).
    destruct (IH _ _ _ _ _ H) as [Hk' Hrest].
    split; [eapply keeps_p_trans; eauto|].
    cbn [trials_return_along]. exists graph_list, g1, minor. auto.
Qed.

Lemma monte_loop_returns : forall prob_list main index g,
  trials_return_along Q0 pair_method reduction_method data_method num_iters
    prob_list g ->
  exists main' g',
    monte_loop df_mean df_sem Q0 pair_method reduction_method data_method
      num_iters main index prob_list g = Ok (main', g').
Proof.
  induction prob_list as [|p rest IH]; intros main index g H;
    cbn [monte_loop].
  - do 2 eexists. reflexivity.
  - cbn [trials_return_along] in H.
    destruct H as (graph_list & g1 & minor & Hg & Hm & Hrest).
    destruct (monte_step_returns main index p g _ _ _ Hg Hm) as [m1 ->].
    cbn [bind]. apply IH. exact Hrest.
Qed.

Lemma prob_list_validated num_steps percolation_range prob_list :
  match percolation_range with
  | Some (lo, hi) =>
      _ <- py_assert (Qle_bool 0 lo && Qle_bool hi 1) ;;
      linspace lo hi num_steps
  | None => linspace 0 1 num_steps
  end = Ok prob_list ->
  (0 <= fst (range_bounds percolation_range))%Q
  /\ (snd (range_bounds percolation_range) <= 1)%Q
  /\ linspace (fst (range_bounds percolation_range))
       (snd (range_bounds percolation_range)) num_steps = Ok prob_list.
Proof.
  destruct percolation_range as [[lo hi]|]; cbn [range_bounds fst snd].
  - destruct (Qle_bool 0 lo) eqn:Hlo; [|discriminate].
    destruct (Qle_bool hi 1) eqn:Hhi; [|discriminate].
    cbn [andb py_assert bind]. apply Qle_bool_iff in Hlo, Hhi. auto.
  - intros H. split; [apply Qle_refl|]. split; [apply Qle_refl | exact H].
Qed.

Lemma prob_list_of_valid num_steps percolation_range :
  (0 <= fst (range_bounds percolation_range))%Q ->
  (snd (range_bounds percolation_range) <= 1)%Q ->
  match percolation_range with
  | Some (lo, hi) =>
      _ <- py_assert (Qle_bool 0 lo && Qle_bool hi 1) ;;
      linspace lo hi num_steps
  | None => linspace 0 1 num_steps
  end = linspace (fst (range_bounds percolation_range))
          (snd (range_bounds percolation_range)) num_steps.
Proof.
  destruct percolation_range as [[lo hi]|]; cbn [range_bounds fst snd];
    [|reflexivity].
  intros Hlo Hhi. apply Qle_bool_iff in Hlo, Hhi. now rewrite Hlo, Hhi.
Qed.


End Sweep.



(** * Further properties *)

(** ** Dimension names *)

Lemma substring_all s : substring 0 (String.length s) s = s.
Proof. induction s as [|c s IH]; simpl; [reflexivity | now rewrite IH]. Qed.

Lemma prefix_split p : forall s,
  String.prefix p s = true ->
  s = String.append p
        (substring (String.length p) (String.length s - String.length p) s).
Proof.
  induction p as [|a p IH]; intros s H.
  - simpl. rewrite Nat.sub_0_r. now rewrite substring_all.
  - destruct s as [|b s]; simpl in H; [discriminate|].
    destruct (Ascii.ascii_dec a b) as [->|]; [|discriminate].
    simpl. f_equal. now apply IH.
Qed.

Lemma add_prefix_split k :
  startswith k "add_" = true ->
  k = String.append "add_" (remove_prefix k "add_").
Proof.
  intros H. unfold remove_prefix. rewrite H. now apply prefix_split.
Qed.

Lemma remove_prefix_inj k k' :
  startswith k "add_" = true -> startswith k' "add_" = true ->
  remove_prefix k "add_" = remove_prefix k' "add_" -> k = k'.
Proof.
  intros H H' E. rewrite (add_prefix_split k H), (add_prefix_split k' H').
  now rewrite E.
Qed.

(** ** What the conversion loop writes *)

Lemma convert_additive_frame G size0 : forall todo d d',
  convert_additive G size0 todo d = Ok d' ->
  forall x,
    (forall c, In c todo -> startswith c "add_" = true ->
               remove_prefix c "add_" <> x) ->
    dict_get x d' = dict_get x d.
Proof.
  induction todo as [|c todo IH]; intros d d' H x Hx; simpl in H;
    destruct (negb (Nat.eqb (length d) size0)); try discriminate.
  - now injection H as <-.
  - destruct (startswith c "add_") eqn:Hc.
    + destruct (dict_item c d) as [cost|]; [|discriminate]. cbn [bind] in H.
      destruct (dict_item _ (conversions G)) as [conv|]; [|discriminate].
      cbn [bind] in H. destruct (as_num cost) as [a|]; [|discriminate].
      cbn [bind] in H. rewrite (IH _ _ H x).
      * rewrite dict_get_set.
        replace (String.eqb x (remove_prefix c "add_")) with false; auto.
        symmetry. apply String.eqb_neq. intros ->.
        apply (Hx c); auto. now left.
      * intros c' Hin. apply Hx. now right.
    + apply (IH _ _ H). intros c' Hin. apply Hx. now right.
Qed.

Lemma convert_additive_mem G size0 : forall todo d d',
  convert_additive G size0 todo d = Ok d' ->
  forall k, dict_mem k d' = dict_mem k d.
Proof.
  induction todo as [|c todo IH]; intros d d' H k; simpl in H;
    destruct (Nat.eqb (length d) size0) eqn:Hlen; simpl in H;
    try discriminate.
  - now injection H as <-.
  - apply Nat.eqb_eq in Hlen.
    destruct (startswith c "add_") eqn:Hc; [|eauto].
    destruct (dict_item c d) as [cost|]; [|discriminate]. cbn [bind] in H.
    destruct (dict_item _ (conversions G)) as [conv|]; [|discriminate].
    cbn [bind] in H. destruct (as_num cost) as [a|]; [|discriminate].
    cbn [bind] in H.
    destruct (dict_mem (remove_prefix c "add_") d) eqn:Hp.
    + rewrite (IH _ _ H), dict_mem_set.
      destruct (String.eqb_spec k (remove_prefix c "add_")) as [->|];
        simpl; auto.
    + exfalso. destruct todo; simpl in H;
        rewrite (dict_set_length_new _ _ _ Hp), Hlen in H;
        replace (Nat.eqb (S size0) size0) with false in H
          by (symmetry; apply Nat.eqb_neq; lia);
        discriminate.
Qed.

Lemma dict_item_get {V} k (d : list (string * V)) v :
  dict_item k d = Ok v -> dict_get k d = Some v.
Proof.
  unfold dict_item. destruct (dict_get k d); [|discriminate].
  now intros [= ->].
Qed.

Lemma convert_additive_resolves G size0 : forall todo d d',
  convert_additive G size0 todo d = Ok d' ->
  single_marked d ->
  forall c, In c todo -> startswith c "add_" = true ->
    exists a conv,
      dict_get c d = Some (VNum a)
      /\ dict_get (remove_prefix c "add_") (conversions G) = Some conv
      /\ dict_get (remove_prefix c "add_") d' = Some (VNum (snd conv a)).
Proof.
  induction todo as [|c0 todo IH]; intros d d' H Hs c Hin Hc; [contradiction|].
  pose proof (convert_additive_mem _ _ _ _ _ H) as Hmem.
  simpl in H. destruct (negb (Nat.eqb (length d) size0)); [discriminate|].
  destruct (startswith c0 "add_") eqn:Hc0.
  - destruct (dict_item c0 d) as [cost|] eqn:Hcost; [|discriminate].
    cbn [bind] in H.
    destruct (dict_item _ (conversions G)) as [conv|] eqn:Hconv;
      [|discriminate].
    cbn [bind] in H. destruct cost as [a|g]; [|discriminate].
    cbn [bind as_num] in H.
    set (d1 := dict_set (remove_prefix c0 "add_") (VNum (snd conv a)) d) in *.
    assert (Hmem1 : forall k, dict_mem k d1 = dict_mem k d).
    { intros k. transitivity (dict_mem k d'); [|apply Hmem].
      symmetry. apply (convert_additive_mem _ _ _ _ _ H). }
    assert (Hadd : forall k, startswith k "add_" = true ->
                             dict_mem k d = true ->
                             dict_get k d1 = dict_get k d).
    { intros k Hk Hkd. unfold d1. rewrite dict_get_set.
      replace (String.eqb k (remove_prefix c0 "add_")) with false; auto.
      symmetry. apply String.eqb_neq. intros ->.
      apply dict_item_get in Hcost.
      assert (Hm0 : dict_mem c0 d = true)
        by (unfold dict_mem; now rewrite Hcost).
      specialize (Hs c0 Hm0 Hc0). congruence. }
    assert (Hs1 : single_marked d1).
    { intros k Hk. rewrite Hmem1 in Hk. now apply Hs. }
    destruct (in_dec string_dec c todo) as [Hin'|Hnot].
    + destruct (IH _ _ H Hs1 c Hin' Hc) as (a' & conv' & Ha & Hcv & Hr).
      exists a', conv'. split; [|auto].
      rewrite <- Hadd; auto.
      rewrite <- Hmem1. unfold dict_mem. now rewrite Ha.
    + destruct Hin as [<-|Hin]; [|contradiction].
      exists a, conv. split; [now apply dict_item_get|].
      split; [now apply dict_item_get|].
      rewrite (convert_additive_frame _ _ _ _ _ H).
      * unfold d1. rewrite dict_get_set. now rewrite String.eqb_refl.
      * intros c' Hc' Hs' E. apply Hnot.
        rewrite (remove_prefix_inj c0 c' Hc0 Hs'); auto.
  - destruct Hin as [<-|Hin]; [congruence|]. now apply (IH _ _ H).
Qed.

Lemma convert_additive_keeps_additive G size0 todo d d' :
  convert_additive G size0 todo d = Ok d' ->
  single_marked d ->
  (forall c, In c todo -> dict_mem c d = true) ->
  forall k, startswith k "add_" = true -> dict_get k d' = dict_get k d.
Proof.
  intros H Hs Htodo k Hk. apply (convert_additive_frame _ _ _ _ _ H).
  intros c Hin Hc E. specialize (Hs c (Htodo c Hin) Hc). congruence.
Qed.

(** ** What the summation holds *)

Lemma value_of_set k k' q d :
  value_of k (dict_set k' (VNum q) d)
  = if String.eqb k k' then q else value_of k d.
Proof.
  unfold value_of. rewrite dict_get_set. now destruct (String.eqb k k').
Qed.

Lemma value_of_cons k k' q d :
  value_of k ((k', VNum q) :: d)
  = if String.eqb k k' then q else value_of k d.
Proof. unfold value_of. simpl. now destruct (String.eqb k k'). Qed.

Lemma dict_get_not_key {V} k (d : list (string * V)) :
  ~ In k (dict_keys d) -> dict_get k d = None.
Proof.
  intros H. destruct (dict_get k d) eqn:E; auto.
  exfalso. apply H. apply dict_mem_In. unfold dict_mem. now rewrite E.
Qed.

Lemma counter_add_items_value items : forall counter c,
  numeric counter -> numeric items -> NoDup (dict_keys items) ->
  counter_add_items counter items = Ok c ->
  forall k, (value_of k c == value_of k items + value_of k counter)%Q.
Proof.
  induction items as [|[elem count] items IH]; intros counter c Hc Hi Hnd H k.
  - simpl in H. injection H as <-. unfold value_of at 2. simpl. ring.
  - simpl in H. inversion Hi as [|? ? Hcount Hi']; subst. simpl in Hcount.
    destruct (is_num_as_num _ Hcount) as [q ->].
    simpl in Hnd. apply NoDup_cons_iff in Hnd as [Hnew Hnd].
    assert (Hold : match dict_get elem counter with
                   | Some v => v | None => VNum 0 end
                   = VNum (value_of elem counter)).
    { unfold value_of. destruct (dict_get elem counter) as [v|] eqn:E; auto.
      destruct (is_num_as_num v) as [o ->]; auto.
      exact (numeric_get _ _ _ Hc E). }
    rewrite Hold in H. simpl in H.
    rewrite (IH _ _ (numeric_set elem (VNum (q + value_of elem counter))
                       counter Hc eq_refl) Hi' Hnd H k).
    rewrite value_of_set, value_of_cons.
    destruct (String.eqb_spec k elem) as [->|Hne]; [|reflexivity].
    unfold value_of at 1. rewrite (dict_get_not_key _ _ Hnew). ring.
Qed.

Lemma counter_update_value counter d c :
  numeric counter -> plain_dict d ->
  counter_update counter d = Ok c ->
  numeric c
  /\ forall k, (value_of k c
                == match d with Some items => value_of k items | None => 0 end
                   + value_of k counter)%Q.
Proof.
  intros Hc Hd H. destruct d as [items|]; simpl in *.
  - destruct Hd as [Hn Hnd]. destruct counter as [|kv counter].
    + injection H as <-. split; auto. intros k. unfold value_of at 3.
      simpl. ring.
    + destruct (counter_add_items_ok items (kv :: counter) Hc Hn)
        as (c' & Hr & Hn' & _).
      rewrite Hr in H. injection H as <-. split; auto.
      now apply counter_add_items_value.
  - injection H as <-. split; auto. intros k. ring.
Qed.

Lemma sum_cost_vectors_from_value cvs : forall counter c,
  numeric counter -> Forall plain_dict cvs ->
  sum_cost_vectors_from counter cvs = Ok c ->
  forall k, (value_of k c == dimension_total k cvs + value_of k counter)%Q.
Proof.
  induction cvs as [|d cvs IH]; intros counter c Hc Hall H k; simpl in H.
  - injection H as <-. simpl. ring.
  - inversion Hall as [|? ? Hd Hall']; subst.
    destruct (counter_update counter d) as [c1|] eqn:E; [|discriminate].
    cbn [bind] in H.
    destruct (counter_update_value _ _ _ Hc Hd E) as [Hn1 Hv1].
    rewrite (IH _ _ Hn1 Hall' H k), Hv1.
    destruct d as [items|]; simpl; ring.
Qed.

Lemma unique_NoDup l : unique l = true -> NoDup l.
Proof.
  induction l as [|k l IH]; simpl; intros H; constructor.
  - apply andb_prop in H as [H _]. intros Hin.
    apply negb_true_iff in H. apply not_true_iff_false in H. apply H.
    apply existsb_exists. exists k. split; auto. apply String.eqb_refl.
  - apply andb_prop in H as [_ H]. auto.
Qed.

Lemma plain_dictb_spec d : plain_dictb d = true -> plain_dict d.
Proof.
  destruct d as [items|]; simpl; auto. intros H.
  apply andb_prop in H as [Hn Hu]. split.
  - apply Forall_forall. rewrite forallb_forall in Hn. auto.
  - now apply unique_NoDup.
Qed.

Lemma single_markedb_spec d : single_markedb d = true -> single_marked d.
Proof.
  unfold single_markedb. rewrite forallb_forall. intros H k Hk Hadd.
  destruct (dict_mem_item _ _ Hk) as (v & _ & Hin).
  apply H in Hin. simpl in Hin. rewrite Hadd in Hin. simpl in Hin.
  now apply negb_true_iff.
Qed.

Lemma single_marked_mem d d' :
  (forall k, dict_mem k d' = dict_mem k d) ->
  single_marked d' -> single_marked d.
Proof. intros Hm Hs k Hk. apply Hs. now rewrite Hm. Qed.

(** X1: [Path.get_cost_vector], lines 78-116: when the elements of the path
    are dictionaries of numbers with distinct keys and no dimension of the
    result is marked additive twice over, every additive-marked dimension
    of the vector of the path holds the sum of that dimension over the
    traversed edges and the visited nodes, and its plain counterpart holds
    the registered inverse conversion of that sum. *)
Theorem get_cost_vector_sums_and_resolves G ns ks edge_cvs cv :
  edge_cost_vectors G ns ks = Ok edge_cvs ->
  forallb plain_dictb (path_elements edge_cvs ns) = true ->
  get_cost_vector G ns ks = Ok cv ->
  single_markedb cv = true ->
  forall k, startswith k "add_" = true -> dict_mem k cv = true ->
    exists a conv,
      dict_get k cv = Some (VNum a)
      /\ (a == dimension_total k (path_elements edge_cvs ns))%Q
      /\ dict_get (remove_prefix k "add_") (conversions G) = Some conv
      /\ dict_get (remove_prefix k "add_") cv = Some (VNum (snd conv a)).
Proof.
  intros He Hplain Hcv Hs k Hk Hmem.
  unfold get_cost_vector in Hcv. rewrite He in Hcv. cbn [bind] in Hcv.
  fold (path_elements edge_cvs ns) in Hcv.
  destruct (sum_cost_vectors (path_elements edge_cvs ns)) as [c|] eqn:Hsum;
    [|discriminate].
  cbn [bind] in Hcv.
  assert (Hall : Forall plain_dict (path_elements edge_cvs ns)).
  { apply Forall_forall. rewrite forallb_forall in Hplain.
    intros d Hd. apply plain_dictb_spec. auto. }
  pose proof (convert_additive_mem _ _ _ _ _ Hcv) as Hm.
  assert (Hsc : single_marked c).
  { apply (single_marked_mem c cv Hm). now apply single_markedb_spec. }
  rewrite Hm in Hmem.
  destruct (convert_additive_resolves _ _ _ _ _ Hcv Hsc k) as
    (a & conv & Ha & Hconv & Hplainv); auto.
  { now apply dict_mem_In. }
  exists a, conv. split; [|split; [|auto]].
  - rewrite (convert_additive_keeps_additive _ _ _ _ _ Hcv Hsc); auto.
    intros c0. apply dict_mem_In.
  - pose proof (sum_cost_vectors_from_value _ [] c (Forall_nil _) Hall Hsum k)
      as Hv.
    unfold value_of at 1 in Hv. rewrite Ha in Hv. rewrite Hv.
    unfold value_of. simpl. ring.
Qed.

Lemma get_cost_vector_sums_and_resolves_witness :
  exists a conv,
    dict_get "add_e" More.two_hop_cv = Some (VNum a)
    /\ (a == dimension_total "add_e"
               (path_elements More.two_hop_edge_cvs More.two_hop_nodes))%Q
    /\ dict_get (remove_prefix "add_e" "add_") (conversions Samples.two_hop)
       = Some conv
    /\ dict_get (remove_prefix "add_e" "add_") More.two_hop_cv
       = Some (VNum (snd conv a)).
Proof.
  apply (get_cost_vector_sums_and_resolves Samples.two_hop
           More.two_hop_nodes [0; 0] More.two_hop_edge_cvs More.two_hop_cv);
    reflexivity.
Defined.

Lemma get_cost_vector_needs_plain_witness :
  get_cost_vector Samples.additive_only More.additive_nodes [0] <> Ok [].
Proof.
  apply (get_cost_vector_needs_plain Samples.additive_only
           More.additive_nodes [0] More.additive_edge_cvs More.additive_sum
           "add_t"); reflexivity.
Defined.

(** ** Path construction *)

Lemma lookup_nodes_inv G : forall array l,
  mapM (fun n => match getNode G n with
                 | Some x => Ok x
                 | None => Raise AssertionError
                 end) array = Ok l ->
  map name l = array /\ Forall (fun x => In x (nodes G)) l.
Proof.
  induction array as [|n array IH]; intros l H; simpl in H.
  - injection H as <-. auto.
  - destruct (getNode G n) as [x|] eqn:E; [|discriminate]. cbn [bind] in H.
    destruct (mapM _ array) as [l'|] eqn:E'; [|discriminate].
    cbn [bind] in H. injection H as <-.
    destruct (IH l' eq_refl) as [Hn Hall].
    unfold getNode in E. apply find_some in E as [Hin Hname].
    apply String.eqb_eq in Hname. simpl. split; [congruence|].
    constructor; auto.
Qed.

Lemma lookup_nodes_unknown G n : forall array,
  In n array -> has_node G n = false ->
  mapM (fun n => match getNode G n with
                 | Some x => Ok x
                 | None => Raise AssertionError
                 end) array = Raise AssertionError.
Proof.
  intros array Hin Hn.
  assert (Hnone : getNode G n = None).
  { unfold getNode. destruct (find _ (nodes G)) as [x|] eqn:E; auto.
    apply find_some in E as [Hx Hname]. unfold has_node in Hn.
    apply not_true_iff_false in Hn. exfalso. apply Hn.
    apply existsb_exists. eauto. }
  induction array as [|m array IH]; [contradiction|]. simpl.
  destruct (getNode G m) as [x|] eqn:E; [|reflexivity]. cbn [bind].
  destruct Hin as [->|Hin]; [congruence|]. now rewrite IH.
Qed.

Lemma edge_cost_vectors_keys G : forall ns ks l,
  edge_cost_vectors G ns ks = Ok l -> length ns - 1 <= length ks.
Proof.
  induction ns as [|a ns IH]; intros ks l H; simpl; [lia|].
  destruct ns as [|b ns]; [simpl; lia|].
  destruct ks as [|k ks]; [discriminate|].
  rewrite edge_cost_vectors_step in H.
  destruct (edge_cost_vectors G (b :: ns) ks) as [tl|] eqn:E; [|discriminate].
  apply IH in E. simpl in *. lia.
Qed.

(** X3: [Path.__init__], lines 33-38: a name that is not a node of the
    snapshot makes the construction raise [AssertionError], whatever the
    keys. *)
Theorem Path_init_unknown_node G array edge_keys n :
  In n array -> has_node G n = false ->
  Path_init G array edge_keys = Raise AssertionError.
Proof.
  intros Hin Hn. unfold Path_init.
  now rewrite (lookup_nodes_unknown G n array Hin Hn).
Qed.

Lemma Path_init_unknown_node_witness :
  Path_init Samples.two_hop ["A"; "Z"; "B"] None = Raise AssertionError.
Proof.
  apply (Path_init_unknown_node Samples.two_hop ["A"; "Z"; "B"] None "Z").
  - right. left. reflexivity.
  - reflexivity.
Defined.

(** X4: [Path.__init__], lines 33-57: a path that is constructed lists
    nodes of the snapshot under the names given, from its head to its
    tail; it has the keys given, or a zero for every hop; there are keys
    enough for its hops; some edge joins every two consecutive nodes; and
    its cost vector is the one [get_cost_vector] computes over the
    snapshot. *)
Theorem Path_init_returns_valid_path G array keys p :
  Path_init G array keys = Ok p ->
  map name (node_array p) = array
  /\ Forall (fun x => In x (nodes G)) (node_array p)
  /\ hd_error (node_array p) = Some (head p)
  /\ tail p = last (node_array p) (head p)
  /\ edge_keys p = match keys with
                   | Some ks => ks
                   | None => repeat 0 (length array - 1)
                   end
  /\ length array - 1 <= length (edge_keys p)
  /\ consecutive_in_edges G (node_array p) = true
  /\ get_cost_vector G (node_array p) (edge_keys p) = Ok (cost_vector p).
Proof.
  unfold Path_init. intros H.
  destruct (mapM _ array) as [l|] eqn:El; [|discriminate]. cbn [bind] in H.
  destruct (lookup_nodes_inv G array l El) as [Hnames Hall].
  destruct l as [|hd l]; [discriminate|].
  match type of H with
  | context [get_cost_vector G ?a ?b] =>
      destruct (get_cost_vector G a b) as [cv|] eqn:Ecv; [|discriminate]
  end.
  cbn [bind] in H.
  destruct (consecutive_in_edges G (hd :: l)) eqn:Econs; [|discriminate].
  cbn [py_assert bind] in H. injection H as <-.
  cbn [node_array edge_keys head tail cost_vector].
  assert (Hlen : length (hd :: l) = length array)
    by (rewrite <- Hnames; now rewrite length_map).
  rewrite <- Hlen.
  split; [exact Hnames|]. split; [exact Hall|]. split; [reflexivity|].
  split; [reflexivity|]. split; [reflexivity|]. split; [|auto].
  unfold get_cost_vector in Ecv.
  match type of Ecv with
  | context [edge_cost_vectors G ?a ?b] =>
      destruct (edge_cost_vectors G a b) as [ecv|] eqn:Ee; [|discriminate]
  end.
  exact (edge_cost_vectors_keys _ _ _ _ Ee).
Qed.

Lemma Path_init_returns_valid_path_witness :
  map name (node_array More.two_hop_path) = ["A"; "G"; "B"]
  /\ Forall (fun x => In x (nodes Samples.two_hop))
       (node_array More.two_hop_path)
  /\ hd_error (node_array More.two_hop_path) = Some (head More.two_hop_path)
  /\ tail More.two_hop_path
     = last (node_array More.two_hop_path) (head More.two_hop_path)
  /\ edge_keys More.two_hop_path = repeat 0 (length ["A"; "G"; "B"] - 1)
  /\ length ["A"; "G"; "B"] - 1 <= length (edge_keys More.two_hop_path)
  /\ consecutive_in_edges Samples.two_hop (node_array More.two_hop_path)
     = true
  /\ get_cost_vector Samples.two_hop (node_array More.two_hop_path)
       (edge_keys More.two_hop_path)
     = Ok (cost_vector More.two_hop_path).
Proof.
  apply (Path_init_returns_valid_path Samples.two_hop ["A"; "G"; "B"] None
           More.two_hop_path).
  reflexivity.
Defined.

(** ** stringify *)

Lemma append_assoc a b c :
  String.append (String.append a b) c = String.append a (String.append b c).
Proof. induction a as [|x a IH]; simpl; [reflexivity | now rewrite IH]. Qed.

Lemma append_empty a : String.append a "" = a.
Proof. induction a as [|x a IH]; simpl; [reflexivity | now rewrite IH]. Qed.

Lemma stringify_from_concat : forall ns acc,
  stringify_from acc ns
  = String.append acc (String.concat "-" (map name ns)).
Proof.
  induction ns as [|n ns IH]; intros acc.
  - simpl. now rewrite append_empty.
  - destruct ns as [|m ns].
    + reflexivity.
    + change (stringify_from acc (n :: m :: ns))
        with (stringify_from
                (String.append (String.append acc (name n)) "-") (m :: ns)).
      rewrite IH. cbn [map String.concat].
      now rewrite !append_assoc.
Qed.

(** X5: [Path.stringify], lines 122-138: the names of the nodes in order,
    joined by "-", with no separator at either end. *)
Theorem stringify_joins_names p :
  stringify p = String.concat "-" (map name (node_array p)).
Proof. unfold stringify. now rewrite stringify_from_concat. Qed.

(** ** remove_edges *)

Lemma remove_first_inv {A} (p : A -> bool) : forall l l',
  remove_first p l = Some l' ->
  S (length l') = length l /\ incl l' l /\ existsb p l = true.
Proof.
  induction l as [|x l IH]; intros l' H; simpl in H; [discriminate|].
  simpl. destruct (p x) eqn:E.
  - injection H as <-. repeat split; auto. apply incl_tl, incl_refl.
  - destruct (remove_first p l) as [l1|]; [|discriminate].
    simpl in H. injection H as <-.
    destruct (IH l1 eq_refl) as (Hlen & Hincl & Hex).
    repeat split; simpl; auto.
    intros y [->|Hy]; [now left | right; auto].
Qed.

Lemma remove_first_none {A} (p : A -> bool) l :
  existsb p l = false -> remove_first p l = None.
Proof.
  induction l as [|x l IH]; simpl; auto.
  destruct (p x); simpl; [discriminate|]. intros H. now rewrite IH.
Qed.

Lemma remove_edges_from_frame : forall ns ks G G',
  remove_edges_from G ns ks = Ok G' ->
  nodes G' = nodes G
  /\ conversions G' = conversions G
  /\ net_cost_vector G' = net_cost_vector G
  /\ incl (edges G') (edges G)
  /\ length (edges G') + (length ns - 1) = length (edges G).
Proof.
  induction ns as [|a ns IH]; intros ks G G' H.
  - simpl in H. injection H as <-.
    repeat split; auto using incl_refl; simpl; lia.
  - destruct ns as [|b ns].
    + simpl in H. injection H as <-.
      repeat split; auto using incl_refl; simpl; lia.
    + destruct ks as [|k ks]; [discriminate|].
      rewrite remove_edges_from_step in H. unfold remove_edge in H.
      destruct (remove_first _ (edges G)) as [es|] eqn:E; [|discriminate].
      cbn [bind] in H.
      destruct (remove_first_inv _ _ _ E) as (Hlen & Hincl & _).
      destruct (IH ks _ _ H) as (Hn & Hc & Ht & Hi & Hl).
      cbn [nodes conversions net_cost_vector edges with_edges] in *.
      split; [auto|]. split; [auto|]. split; [auto|].
      split; [eapply incl_tran; eauto|]. cbn [length] in *. lia.
Qed.

(** X6: [Path.remove_edges], lines 140-152: when it returns, the snapshot
    has its nodes, its conversions and its template vector as before,
    every edge left was an edge before, and exactly one edge per hop of
    the path is gone. *)
Theorem remove_edges_deletes_one_edge_per_hop p G G' :
  remove_edges p G = Ok G' ->
  nodes G' = nodes G
  /\ conversions G' = conversions G
  /\ net_cost_vector G' = net_cost_vector G
  /\ incl (edges G') (edges G)
  /\ length (edges G') + (length (node_array p) - 1) = length (edges G).
Proof. apply remove_edges_from_frame. Qed.

Lemma remove_edges_deletes_one_edge_per_hop_witness :
  nodes (with_edges Samples.two_hop []) = nodes Samples.two_hop
  /\ conversions (with_edges Samples.two_hop [])
     = conversions Samples.two_hop
  /\ net_cost_vector (with_edges Samples.two_hop [])
     = net_cost_vector Samples.two_hop
  /\ incl (edges (with_edges Samples.two_hop [])) (edges Samples.two_hop)
  /\ length (edges (with_edges Samples.two_hop []))
     + (length (node_array More.two_hop_path) - 1)
     = length (edges Samples.two_hop).
Proof.
  apply (remove_edges_deletes_one_edge_per_hop More.two_hop_path
           Samples.two_hop (with_edges Samples.two_hop [])).
  reflexivity.
Defined.

Lemma is_edge_same a b k e x :
  is_edge a b k e = true ->
  is_edge a b k x = is_edge (src e) (dst e) (ekey e) x.
Proof.
  unfold is_edge. intros H. apply andb_prop in H as [Hj Hk].
  apply Nat.eqb_eq in Hk. subst k. f_equal.
  apply joins_ends in Hj as [[<- <-]|[<- <-]]; unfold joins; auto.
  apply orb_comm.
Qed.

Lemma existsb_same {A} (p q : A -> bool) l :
  (forall x, p x = q x) -> existsb p l = existsb q l.
Proof.
  intros H. induction l as [|x l IH]; simpl; auto. now rewrite H, IH.
Qed.

Lemma unique_keys_remove a b k : forall es es',
  unique_keys es = true ->
  remove_first (is_edge a b k) es = Some es' ->
  existsb (is_edge a b k) es' = false /\ unique_keys es' = true.
Proof.
  induction es as [|e es IH]; intros es' Hu H; simpl in H; [discriminate|].
  simpl in Hu. apply andb_prop in Hu as [Hnew Hu].
  apply negb_true_iff in Hnew.
  destruct (is_edge a b k e) eqn:E.
  - injection H as <-. split; auto.
    rewrite <- Hnew. apply existsb_same. intros x. now apply is_edge_same.
  - destruct (remove_first _ es) as [es1|] eqn:E1; [|discriminate].
    simpl in H. injection H as <-.
    destruct (remove_first_inv _ _ _ E1) as (_ & Hincl & _).
    destruct (IH es1 Hu eq_refl) as [Hno Hu1]. simpl. rewrite E, Hno.
    split; auto. rewrite Hu1, andb_true_r. apply negb_true_iff.
    apply not_true_iff_false. intros Hex.
    apply existsb_exists in Hex as (x & Hx & Hxe).
    apply not_true_iff_false in Hnew. apply Hnew.
    apply existsb_exists. exists x. auto.
Qed.

Lemma existsb_incl {A} (q : A -> bool) l l' :
  incl l' l -> existsb q l = false -> existsb q l' = false.
Proof.
  intros Hincl H. apply not_true_iff_false. intros Hex.
  apply existsb_exists in Hex as (x & Hx & Hq).
  apply not_true_iff_false in H. apply H. apply existsb_exists. eauto.
Qed.

(** X7: [Path.remove_edges], lines 140-152: in a snapshot whose keys are
    unique within each pair, a second call on a path of at least one hop
    raises [NetworkXError]: the first call has left no edge for the first
    hop. *)
Theorem remove_edges_twice_raises p G G' :
  unique_keys (edges G) = true ->
  2 <= length (node_array p) ->
  remove_edges p G = Ok G' ->
  remove_edges p G' = Raise NetworkXError.
Proof.
  unfold remove_edges. intros Hu Hlen H.
  destruct (node_array p) as [|a [|b ns]]; simpl in Hlen; try lia.
  destruct (edge_keys p) as [|k ks]; [discriminate|].
  rewrite remove_edges_from_step in *. unfold remove_edge in *.
  destruct (remove_first _ (edges G)) as [es|] eqn:E; [|discriminate].
  cbn [bind] in H.
  destruct (unique_keys_remove _ _ _ _ _ Hu E) as [Hno _].
  destruct (remove_edges_from_frame _ _ _ _ H) as (_ & _ & _ & Hincl & _).
  cbn [edges with_edges] in Hincl.
  now rewrite (remove_first_none _ _ (existsb_incl _ _ _ Hincl Hno)).
Qed.

Lemma remove_edges_twice_raises_witness :
  remove_edges More.two_hop_path (with_edges Samples.two_hop [])
  = Raise NetworkXError.
Proof.
  apply (remove_edges_twice_raises More.two_hop_path Samples.two_hop).
  - reflexivity.
  - simpl. lia.
  - reflexivity.
Defined.

(** ** update *)

Lemma find_none_existsb {A} (p : A -> bool) l :
  existsb p l = false -> find p l = None.
Proof.
  induction l as [|x l IH]; simpl; auto.
  destruct (p x); simpl; [discriminate | exact IH].
Qed.

Lemma edge_cost_vectors_removed : forall ns ks G G',
  unique_keys (edges G) = true ->
  remove_edges_from G ns ks = Ok G' ->
  edge_cost_vectors G' ns ks = Ok (repeat None (length ns - 1))
  /\ unique_keys (edges G') = true.
Proof.
  induction ns as [|a ns IH]; intros ks G G' Hu H.
  - simpl in H. injection H as <-. auto.
  - destruct ns as [|b ns].
    + simpl in H. injection H as <-. auto.
    + destruct ks as [|k ks]; [discriminate|].
      rewrite remove_edges_from_step in H. unfold remove_edge in H.
      destruct (remove_first _ (edges G)) as [es|] eqn:E; [|discriminate].
      cbn [bind] in H.
      destruct (unique_keys_remove _ _ _ _ _ Hu E) as [Hno Hu1].
      destruct (IH ks (with_edges G es) G' Hu1 H) as [Hrest Hu'].
      destruct (remove_edges_from_frame _ _ _ _ H) as (_ & _ & _ & Hincl & _).
      cbn [edges with_edges] in Hincl.
      rewrite edge_cost_vectors_step, Hrest. cbn [bind].
      unfold get_edge_data.
      rewrite (find_none_existsb _ _ (existsb_incl _ _ _ Hincl Hno)).
      split; [|exact Hu']. cbn [option_map length Nat.sub].
      rewrite Nat.sub_0_r. reflexivity.
Qed.

Lemma sum_cost_vectors_from_none n : forall counter rest,
  sum_cost_vectors_from counter (repeat None n ++ rest)
  = sum_cost_vectors_from counter rest.
Proof. induction n as [|n IH]; intros counter rest; simpl; auto. Qed.

(** X8: [Path.update], lines 154-155, after [Path.remove_edges], lines
    140-152, in a snapshot whose keys are unique within each pair: the
    update does not raise for the edges that are gone; every hop reads
    [None], and the cost vector is computed again from the costs of the
    nodes alone. *)
Theorem update_after_remove_edges p G G' :
  unique_keys (edges G) = true ->
  remove_edges p G = Ok G' ->
  edge_cost_vectors G' (node_array p) (edge_keys p)
  = Ok (repeat None (length (node_array p) - 1))
  /\ update p G'
     = (cv <- (new_cv <- sum_cost_vectors
                           (map (fun n => Some (costs n)) (node_array p)) ;;
               convert_additive G' (length new_cv) (dict_keys new_cv)
                 new_cv) ;;
        Ok (mkPath (node_array p) (edge_keys p) (head p) (tail p) cv)).
Proof.
  intros Hu H. unfold remove_edges in H.
  destruct (edge_cost_vectors_removed _ _ _ _ Hu H) as [He _].
  split; [exact He|]. unfold update, get_cost_vector. rewrite He.
  cbn [bind]. unfold sum_cost_vectors.
  now rewrite sum_cost_vectors_from_none.
Qed.

Lemma update_after_remove_edges_witness :
  edge_cost_vectors (with_edges Samples.two_hop [])
    (node_array More.two_hop_path) (edge_keys More.two_hop_path)
  = Ok (repeat None (length (node_array More.two_hop_path) - 1))
  /\ update More.two_hop_path (with_edges Samples.two_hop [])
     = (cv <- (new_cv <- sum_cost_vectors
                           (map (fun n => Some (costs n))
                              (node_array More.two_hop_path)) ;;
               convert_additive (with_edges Samples.two_hop [])
                 (length new_cv) (dict_keys new_cv) new_cv) ;;
        Ok (mkPath (node_array More.two_hop_path)
              (edge_keys More.two_hop_path) (head More.two_hop_path)
              (tail More.two_hop_path) cv)).
Proof.
  apply (update_after_remove_edges More.two_hop_path Samples.two_hop
           (with_edges Samples.two_hop [])).
  - reflexivity.
  - reflexivity.
Defined.

(** ** swap_path *)

Lemma dict_keys_set {V} k (v : V) d :
  dict_mem k d = true -> dict_keys (dict_set k v d) = dict_keys d.
Proof.
  unfold dict_mem, dict_keys. induction d as [|[a w] d IH]; simpl.
  - discriminate.
  - destruct (String.eqb_spec k a) as [->|]; simpl; [reflexivity|].
    intros H. now rewrite IH.
Qed.

(** X10: [Path.swap_path], lines 185-191: what is returned has the
    dimensions of the path's vector in the same order, the efficiency
    multiplied by the accumulated swap cost, and every other dimension as
    it was, the additive efficiency included. *)
Theorem swap_path_changes_efficiency_only p cv :
  swap_path p = Ok cv ->
  dict_keys cv = dict_keys (cost_vector p)
  /\ (forall k, k <> "e" -> dict_get k cv = dict_get k (cost_vector p))
  /\ exists e,
       dict_get "e" (cost_vector p) = Some (VNum e)
       /\ dict_get "e" cv = Some (VNum (e * swap_cost_of (node_array p))).
Proof.
  unfold swap_path, dict_item. intros H.
  destruct (dict_get "e" (cost_vector p)) as [v|] eqn:E; [|discriminate].
  cbn [bind] in H. destruct v as [e|g]; [|discriminate].
  cbn [py_mul as_num bind] in H. injection H as <-.
  split; [|split].
  - apply dict_keys_set. unfold dict_mem. now rewrite E.
  - intros k Hk. rewrite dict_get_set.
    apply String.eqb_neq in Hk. now rewrite Hk.
  - exists e. split; auto. rewrite dict_get_set. now rewrite String.eqb_refl.
Qed.

Lemma swap_path_changes_efficiency_only_witness :
  dict_keys (More.returned [] (swap_path More.relay_path))
  = dict_keys (cost_vector More.relay_path)
  /\ (forall k, k <> "e" ->
        dict_get k (More.returned [] (swap_path More.relay_path))
        = dict_get k (cost_vector More.relay_path))
  /\ exists e,
       dict_get "e" (cost_vector More.relay_path) = Some (VNum e)
       /\ dict_get "e" (More.returned [] (swap_path More.relay_path))
          = Some (VNum (e * swap_cost_of (node_array More.relay_path))).
Proof.
  apply (swap_path_changes_efficiency_only More.relay_path).
  reflexivity.
Defined.

(** X11: [Path.swap_path], lines 189-191: it returns exactly when the
    path's vector holds a number for the efficiency; with no efficiency it
    raises [KeyError]. *)
Theorem swap_path_needs_efficiency p :
  (dict_get "e" (cost_vector p) = None -> swap_path p = Raise KeyError)
  /\ ((exists cv, swap_path p = Ok cv)
      <-> exists e, dict_get "e" (cost_vector p) = Some (VNum e)).
Proof.
  unfold swap_path, dict_item. split.
  - intros ->. reflexivity.
  - destruct (dict_get "e" (cost_vector p)) as [[e|g]|]; cbn; split.
    + eauto.
    + eauto.
    + intros [cv H]. discriminate.
    + intros [e H]. discriminate.
    + intros [cv H]. discriminate.
    + intros [e H]. discriminate.
Qed.

Lemma swap_step_state ns : forall gs sw costs,
  (sw <> None -> gs = true) ->
  lone_swappers gs (match sw with Some _ => true | None => false end) ns
  = true ->
  snd (fold_left swap_step ns (gs, sw, costs))
  = costs
    ++ (match sw with
        | Some p => if existsb isinstance_Ground ns then [p] else []
        | None => []
        end)
    ++ valid_swap_probs gs ns.
Proof.
  induction ns as [|n ns IH]; intros gs sw costs Hinv Hlone.
  - simpl. destruct sw; now rewrite app_nil_r.
  - destruct n as [nm [| |q|] cs];
      cbn [fold_left lone_swappers valid_swap_probs existsb swap_step kind
           isinstance_Ground negb orb andb] in *.
    + (* plain *)
      rewrite orb_false_r. now rewrite (IH gs sw costs Hinv Hlone).
    + (* ground *)
      rewrite orb_true_r.
      destruct gs; cbn [negb].
      * destruct sw as [p|].
        -- rewrite (IH true None (costs ++ [p])); [|congruence|exact Hlone].
           now rewrite <- app_assoc.
        -- rewrite (IH true None costs); [|congruence|exact Hlone].
           reflexivity.
      * destruct sw as [p|]; [now specialize (Hinv ltac:(discriminate))|].
        rewrite (IH true None costs); [|congruence|exact Hlone].
        reflexivity.
    + (* swapper *)
      rewrite orb_false_r.
      destruct gs.
      * apply andb_prop in Hlone as [Hp Hlone].
        destruct sw as [p|]; [discriminate|].
        rewrite (IH true (Some q) costs); [|auto|exact Hlone].
        cbn [andb]. destruct (existsb isinstance_Ground ns); reflexivity.
      * destruct sw as [p|]; [now specialize (Hinv ltac:(discriminate))|].
        rewrite (IH false None costs); [|congruence|exact Hlone].
        reflexivity.
    + (* satellite *)
      rewrite orb_false_r. now rewrite (IH gs sw costs Hinv Hlone).
Qed.

(** X12: [Path.swap_path], lines 166-183: on a path where, once a ground
    node is seen, no two swappers come without a ground node between them,
    the swappers recorded are exactly those with a ground node somewhere
    before and somewhere after them, in path order. *)
Theorem swap_costs_of_lone_swappers ns :
  lone_swappers false false ns = true ->
  swap_costs_of ns = valid_swap_probs false ns.
Proof.
  intros H. unfold swap_costs_of.
  rewrite (swap_step_state ns false None [] ltac:(congruence) H).
  reflexivity.
Qed.

Lemma swap_costs_of_lone_swappers_witness :
  swap_costs_of (node_array More.relay_path)
  = valid_swap_probs false (node_array More.relay_path).
Proof.
  apply (swap_costs_of_lone_swappers (node_array More.relay_path)).
  reflexivity.
Defined.

(** ** is_valid and swap_path *)

Lemma swap_step_no_ground : forall ns costs,
  is_valid_from ns = false ->
  fold_left swap_step ns (false, None, costs) = (false, None, costs).
Proof.
  induction ns as [|n ns IH]; intros costs H; [reflexivity|].
  cbn [is_valid_from] in H. cbn [fold_left].
  destruct n as [nm [| |q|] cs]; cbn [kind] in H; try discriminate;
    cbn [swap_step kind isinstance_Ground isinstance_Swapper negb andb];
    now apply IH.
Qed.

(** X13: [Path.is_valid], lines 66-76, against [Path.swap_path], lines
    157-191: on a path that is not valid, one with no ground node and no
    satellite, [swap_path] records no swapper, and the efficiency it
    returns is that of the path times one. *)
Theorem swap_path_of_invalid_path p e :
  is_valid p = false ->
  dict_get "e" (cost_vector p) = Some (VNum e) ->
  swap_costs_of (node_array p) = []
  /\ swap_path p = Ok (dict_set "e" (VNum (e * 1)) (cost_vector p)).
Proof.
  intros Hv He.
  assert (Hc : swap_costs_of (node_array p) = []).
  { unfold swap_costs_of. now rewrite swap_step_no_ground. }
  split; [exact Hc|].
  unfold swap_path, dict_item, swap_cost_of. rewrite He, Hc. reflexivity.
Qed.

Lemma swap_path_of_invalid_path_witness :
  swap_costs_of (node_array More.groundless_path) = []
  /\ swap_path More.groundless_path
     = Ok (dict_set "e" (VNum ((1 # 2) * 1))
             (cost_vector More.groundless_path)).
Proof.
  apply (swap_path_of_invalid_path More.groundless_path (1 # 2));
    reflexivity.
Defined.

(** ** The extraction loop of purify_reduce, whatever the search *)

Lemma purify_loop_counter bp z h t : forall fuel C cvs k C' cvs' k',
  purify_loop bp fuel (Some (ArgInt z)) C h t cvs k = Ok (C', cvs', k') ->
  (Z.of_nat k <= z + 1)%Z ->
  (Z.of_nat k' <= z + 1)%Z /\ k <= k'
  /\ length cvs' = length cvs + (k' - k).
Proof.
  induction fuel as [|fuel IH]; intros C cvs k C' cvs' k' H Hk;
    [discriminate|].
  cbn [purify_loop] in H.
  destruct (has_path C h t) as [[|]|]; cbn [bind] in H; try discriminate.
  - cbn [counter_exceeds] in H.
    destruct (z <? Z.of_nat k)%Z eqn:Ez.
    + injection H as <- <- <-. split; auto. split; auto. lia.
    + apply Z.ltb_ge in Ez.
      destruct (bp C h t "f") as [p|]; [|discriminate]. cbn [bind] in H.
      destruct (remove_edges p C) as [C1|]; [|discriminate].
      cbn [bind] in H.
      apply IH in H; [|lia]. destruct H as (H1 & H2 & H3).
      rewrite length_app in H3. simpl in H3. split; auto. split; lia.
  - injection H as <- <- <-. split; auto. split; auto. lia.
Qed.

Lemma purify_loop_stops bp threshold h t : forall fuel C cvs k C' cvs' k',
  purify_loop bp fuel threshold C h t cvs k = Ok (C', cvs', k') ->
  has_path C' h t = Ok false \/ counter_exceeds k' threshold = true.
Proof.
  induction fuel as [|fuel IH]; intros C cvs k C' cvs' k' H; [discriminate|].
  cbn [purify_loop] in H.
  destruct (has_path C h t) as [[|]|] eqn:Ep; cbn [bind] in H;
    try discriminate.
  - destruct (counter_exceeds k threshold) eqn:Ec.
    + injection H as <- <- <-. now right.
    + destruct (bp C h t "f") as [p|]; [|discriminate]. cbn [bind] in H.
      destruct (remove_edges p C) as [C1|]; [|discriminate].
      cbn [bind] in H. eauto.
  - injection H as <- <- <-. now left.
Qed.

(** X14: [purify_reduce], lines 37-45: on a well-formed snapshot, between
    two distinct nodes of it, with a positive integer threshold, a search
    that returns the [Path] over a simple path whenever the nodes are
    connected, and fuel beyond the number of edges, the extraction loop
    returns.  It has then recorded at most [threshold + 1] paths, one cost
    vector for each, and it stops because no path is left or with exactly
    [threshold + 1] paths recorded. *)
Theorem purify_loop_at_most_threshold_plus_one bp fuel z C h t :
  (forall G u v cost_type,
     has_path G u v = Ok true ->
     exists ns ks,
       In (ns, ks) (all_simple_paths G u v)
       /\ bp G u v cost_type = Path_init G ns (Some ks)) ->
  well_formed C = true -> h <> t -> (0 < z)%Z ->
  has_node C h = true -> has_node C t = true ->
  length (edges C) < fuel ->
  exists C' cv_list k,
    purify_loop bp fuel (Some (ArgInt z)) C h t [] 0 = Ok (C', cv_list, k)
    /\ (Z.of_nat k <= z + 1)%Z /\ length cv_list = k
    /\ (has_path C' h t = Ok false \/ Z.of_nat k = (z + 1)%Z).
Proof.
  intros Hbp Hwf Hne Hz Hh Ht Hfuel.
  assert (Hthr : check_threshold (Some (ArgInt z)) = Ok tt).
  { cbn [check_threshold]. apply Z.ltb_lt in Hz. now rewrite Hz. }
  destruct (purify_loop_ok bp Hbp (Some (ArgInt z)) h t Hne Hthr fuel C [] 0
              Hwf Hh Ht Hfuel) as (paths & cvs & Hloop & _).
  do 3 eexists. split; [exact Hloop|].
  destruct (purify_loop_counter _ _ _ _ _ _ _ _ _ _ _ Hloop) as (Hk & _ & Hl);
    [lia|].
  cbn [length Nat.add app] in *.
  split; [exact Hk|]. split; [lia|].
  destruct (purify_loop_stops _ _ _ _ _ _ _ _ _ _ _ Hloop) as [Hno|Hex];
    [now left | right].
  cbn [counter_exceeds] in Hex. apply Z.ltb_lt in Hex. lia.
Qed.

Lemma purify_loop_at_most_threshold_plus_one_witness :
  exists C' cv_list k,
    purify_loop best_path 5 (Some (ArgInt 1)) Samples.parallel "A" "B" [] 0
    = Ok (C', cv_list, k)
    /\ (Z.of_nat k <= 1 + 1)%Z /\ length cv_list = k
    /\ (has_path C' "A" "B" = Ok false \/ Z.of_nat k = (1 + 1)%Z).
Proof.
  apply (purify_loop_at_most_threshold_plus_one best_path 5 1
           Samples.parallel "A" "B" best_path_simple).
  - reflexivity.
  - discriminate.
  - reflexivity.
  - reflexivity.
  - reflexivity.
  - simpl. lia.
Defined.

(** [purify_reduce], lines 37-45: with no threshold the loop ends only when
    no path is left between head and tail in the working copy. *)
Lemma purify_loop_exhausts bp h t : forall fuel C cvs k C' cvs' k',
  purify_loop bp fuel None C h t cvs k = Ok (C', cvs', k') ->
  has_path C' h t = Ok false.
Proof.
  induction fuel as [|fuel IH]; intros C cvs k C' cvs' k' H; [discriminate|].
  cbn [purify_loop] in H.
  destruct (has_path C h t) as [[|]|] eqn:Ep; cbn [bind] in H;
    try discriminate.
  - cbn [counter_exceeds] in H.
    destruct (bp C h t "f") as [p|]; [|discriminate]. cbn [bind] in H.
    destruct (remove_edges p C) as [C1|]; [|discriminate].
    cbn [bind] in H. eauto.
  - now injection H as <- <- <-.
Qed.

(** ** The only path of the reduced graph *)

Lemma last_single {A} (t : A) l :
  NoDup (t :: l) -> last l t = t -> l = [].
Proof.
  intros Hnd Hlast. destruct l as [|x l]; auto. exfalso.
  apply NoDup_cons_iff in Hnd as [Hnot _]. apply Hnot.
  rewrite last_cons in Hlast. rewrite <- Hlast. apply last_In.
Qed.

Lemma is_chain_without h t extra es : forall ns ks,
  Forall (fun e => joins e h t = true) extra -> ~ In h ns ->
  is_chain (es ++ extra) ns ks = true -> is_chain es ns ks = true.
Proof.
  induction ns as [|a ns IH]; intros ks Hj Hnot H; auto.
  destruct ns as [|b ns]; destruct ks as [|k ks]; auto; try discriminate.
  rewrite is_chain_step in *. apply andb_prop in H as [H1 H2].
  apply andb_true_intro. split.
  - rewrite existsb_app in H1. apply orb_prop in H1 as [H1|H1]; auto.
    exfalso. apply existsb_exists in H1 as (e & He & H1).
    rewrite Forall_forall in Hj. specialize (Hj _ He).
    unfold is_edge in H1. apply andb_prop in H1 as [H1 _].
    apply joins_ends in H1, Hj. apply Hnot. simpl.
    destruct H1 as [[? ?]|[? ?]], Hj as [[? ?]|[? ?]]; subst; auto;
      try (left; congruence); right; left; congruence.
  - apply IH; auto. intros Hin. apply Hnot. now right.
Qed.

(** Once no path is left between two distinct nodes, edges added between
    them are the only simple paths from one to the other. *)
Lemma direct_paths_only C R h t extra ns ks :
  h <> t -> has_path C h t = Ok false ->
  edges R = edges C ++ extra ->
  Forall (fun e => joins e h t = true) extra ->
  In (ns, ks) (all_simple_paths R h t) ->
  ns = [h; t] /\ exists e, In e extra /\ ks = [ekey e].
Proof.
  intros Hne Hno HR Hj Hin.
  assert (Hempty : all_simple_paths C h t = []).
  { unfold has_path in Hno.
    destruct (has_node C h && has_node C t); [|discriminate].
    destruct (all_simple_paths C h t); [reflexivity | discriminate]. }
  apply all_simple_paths_spec in Hin. rewrite HR in Hin.
  destruct Hin as (Hch & Hnd & rest & -> & Hlast).
  destruct rest as [|b rest].
  { simpl in Hlast. congruence. }
  destruct ks as [|k ks]; [discriminate|].
  rewrite is_chain_step in Hch. apply andb_prop in Hch as [H1 H2].
  pose proof Hnd as Hnd0.
  apply NoDup_cons_iff in Hnd as [Hnot Hnd].
  apply (is_chain_without h t) in H2; auto.
  rewrite existsb_app in H1.
  destruct (existsb (is_edge h b k) (edges C)) eqn:Hold.
  - exfalso.
    assert (Hin : In (h :: b :: rest, k :: ks) (all_simple_paths C h t)).
    { apply all_simple_paths_spec. split.
      - rewrite is_chain_step, Hold. exact H2.
      - split; auto. exists (b :: rest). auto. }
    rewrite Hempty in Hin. contradiction.
  - cbn [orb] in H1. apply existsb_exists in H1 as (e & He & H1).
    unfold is_edge in H1. apply andb_prop in H1 as [Hjb Hk].
    apply Nat.eqb_eq in Hk.
    rewrite Forall_forall in Hj. specialize (Hj _ He).
    assert (Hb : b = t).
    { apply joins_ends in Hjb, Hj.
      destruct Hjb as [[? ?]|[? ?]], Hj as [[? ?]|[? ?]]; try congruence;
        exfalso; apply Hnot; left; congruence. }
    subst b. rewrite last_cons in Hlast.
    rewrite (last_single t rest Hnd Hlast) in *.
    destruct ks; [|discriminate]. split; [reflexivity|].
    exists e. split; [exact He | now rewrite Hk].
Qed.

(** ** Purifying a single path *)

Lemma other_costs_mem Q0 sum_cv x : forall todo new_cv r,
  other_costs Q0 todo sum_cv new_cv = Ok r ->
  dict_mem x new_cv = true -> dict_mem x r = true.
Proof.
  induction todo as [|c todo IH]; intros new_cv r H Hx; simpl in H.
  - now injection H as <-.
  - destruct (negb (dict_mem c new_cv) && startswith c "add_").
    + destruct (dict_item c sum_cv); [|discriminate]. cbn [bind] in H.
      destruct (dict_item _ (conversions Q0)); [|discriminate].
      cbn [bind] in H. apply IH in H; auto.
      rewrite !dict_mem_set, Hx. now rewrite !orb_true_r.
    + eauto.
Qed.

Lemma other_costs_keeps Q0 sum_cv x : forall todo new_cv r,
  other_costs Q0 todo sum_cv new_cv = Ok r ->
  dict_mem x new_cv = true ->
  (forall c, In c todo -> startswith c "add_" = true ->
     remove_prefix c "add_" = x -> dict_mem c new_cv = true) ->
  dict_get x r = dict_get x new_cv.
Proof.
  induction todo as [|c todo IH]; intros new_cv r H Hx Hc; simpl in H.
  - now injection H as <-.
  - destruct (dict_mem c new_cv) eqn:Hm; cbn [negb andb] in H.
    + apply IH; auto. intros c' Hin. apply Hc. now right.
    + destruct (startswith c "add_") eqn:Hs.
      * destruct (dict_item c sum_cv); [|discriminate]. cbn [bind] in H.
        destruct (dict_item _ (conversions Q0)); [|discriminate].
        cbn [bind] in H. apply IH in H.
        -- rewrite H, !dict_get_set.
           destruct (String.eqb_spec x (remove_prefix c "add_")) as [E|E].
           { rewrite (Hc c) in Hm; auto; [discriminate | now left]. }
           destruct (String.eqb_spec x c) as [E'|E']; auto.
           subst x. congruence.
        -- rewrite !dict_mem_set, Hx. now rewrite !orb_true_r.
        -- intros c' Hin Hs' Hr. rewrite !dict_mem_set.
           rewrite (Hc c'); auto; [now rewrite !orb_true_r | now right].
      * apply IH; auto. intros c' Hin. apply Hc. now right.
Qed.

(** X15: [purify_reduce], lines 47-87: when one path only is purified,
    the new edge has the fidelity of that path and its efficiency times
    one, whatever the measurement probability and the fidelity transform,
    and the additive forms the conversions of the graph give for them. *)
Theorem purify_single_path_keeps_costs ft Q0 prob cv f e conv_f conv_e :
  cv_ok (conversions Q0) cv = true ->
  dict_get "f" cv = Some (VNum f) -> dict_get "e" cv = Some (VNum e) ->
  dict_get "f" (conversions Q0) = Some conv_f ->
  dict_get "e" (conversions Q0) = Some conv_e ->
  dict_mem "add_add_f" cv = false -> dict_mem "add_add_e" cv = false ->
  exists new_cv,
    purified_cost_vector ft Q0 prob [cv] 1 = Ok new_cv
    /\ dict_get "f" new_cv = Some (VNum f)
    /\ dict_get "e" new_cv = Some (VNum (e * 1)%Q)
    /\ dict_get "add_f" new_cv = Some (VNum (fst conv_f f))
    /\ dict_get "add_e" new_cv = Some (VNum (fst conv_e (e * 1)%Q)).
Proof.
  intros Hok Hf He Hcf Hce Hnf Hne.
  destruct (cv_ok_spec _ _ Hok) as [Hnum Hclosed].
  unfold purified_cost_vector. cbn [mapM]. unfold dict_item at 1 2 3 4.
  rewrite Hf, He, Hcf, Hce.
  cbn [bind functools_reduce reduce_from as_num py_min py_min_from py_mul
       map sum_cost_vectors sum_cost_vectors_from counter_update].
  change (Qpower prob (2 * (Z.of_nat 1 - 1))) with 1%Q.
  set (new := dict_set "add_e" _ _).
  destruct (other_costs_ok Q0 cv (dict_keys cv) new) as [r Hr].
  { intros k Hk. apply dict_mem_In in Hk. split; auto.
    intros Hs. now apply Hclosed. }
  exists r. split; [exact Hr|].
  assert (Hkeep : forall x v, dict_get x new = Some v ->
            (forall c, In c (dict_keys cv) -> startswith c "add_" = true ->
               remove_prefix c "add_" = x -> dict_mem c new = true) ->
            dict_get x r = Some v).
  { intros x v Hx Hc. rewrite <- Hx.
    apply (other_costs_keeps _ _ _ _ _ _ Hr); auto.
    unfold dict_mem. now rewrite Hx. }
  assert (Hsplit : forall c x, startswith c "add_" = true ->
            remove_prefix c "add_" = x -> c = String.append "add_" x).
  { intros c x Hs <-. now apply add_prefix_split. }
  split; [|split; [|split]]; apply Hkeep; try reflexivity;
    intros c Hin Hs Hx; apply (Hsplit c _ Hs) in Hx; subst c;
    try reflexivity; apply dict_mem_In in Hin; simpl in Hin; congruence.
Qed.

Lemma purify_single_path_keeps_costs_witness :
  exists new_cv,
    purified_cost_vector fidTransform Samples.two_hop (1 # 3)
      [More.two_hop_cv] 1 = Ok new_cv
    /\ dict_get "f" new_cv = Some (VNum (value_of "f" More.two_hop_cv))
    /\ dict_get "e" new_cv
       = Some (VNum (value_of "e" More.two_hop_cv * 1)%Q)
    /\ dict_get "add_f" new_cv
       = Some (VNum (fst (Samples.to_add, Samples.from_add)
                       (value_of "f" More.two_hop_cv)))
    /\ dict_get "add_e" new_cv
       = Some (VNum (fst (Samples.to_add, Samples.from_add)
                       (value_of "e" More.two_hop_cv * 1)%Q)).
Proof.
  apply (purify_single_path_keeps_costs fidTransform Samples.two_hop (1 # 3)
           More.two_hop_cv); reflexivity.
Defined.

(** ** swap_reduce on a whole snapshot *)

Lemma swap_path_ok convs p :
  good_cv convs (cost_vector p) -> exists new, swap_path p = Ok new.
Proof.
  intros (Hnum & _ & _ & He). unfold swap_path.
  destruct (dict_mem_item _ _ He) as (v & Hv & Hin). rewrite Hv.
  cbn [bind]. unfold numeric in Hnum. rewrite Forall_forall in Hnum.
  destruct (is_num_as_num v (Hnum _ Hin)) as [q ->]. simpl. eauto.
Qed.

Lemma fold_add_qchan h t : forall news C,
  exists new_edges,
    edges (fold_left (fun C cv => add_qchan C h t cv) news C)
    = edges C ++ new_edges
    /\ nodes (fold_left (fun C cv => add_qchan C h t cv) news C) = nodes C
    /\ map data new_edges = news
    /\ Forall (fun e => src e = h /\ dst e = t) new_edges.
Proof.
  induction news as [|cv news IH]; intros C; simpl.
  - exists []. rewrite app_nil_r. auto.
  - destruct (IH (add_qchan C h t cv)) as (l & He & Hn & Hd & Hs).
    exists (mkQchan h t (new_edge_key C h t) cv :: l).
    rewrite He, Hn. unfold add_qchan. cbn [edges nodes with_edges].
    rewrite <- app_assoc. cbn [app map data]. rewrite Hd.
    split; [reflexivity|]. split; [reflexivity|]. split; [reflexivity|].
    constructor; auto.
Qed.

Section SwapLoop.

Variable bp : Qnet -> string -> string -> string -> result Path.

Hypothesis bp_simple : forall G u v cost_type,
  has_path G u v = Ok true ->
  exists ns ks,
    In (ns, ks) (all_simple_paths G u v)
    /\ bp G u v cost_type = Path_init G ns (Some ks).

Lemma swap_loop_ok h t :
  h <> t ->
  forall fuel C costs,
    well_formed C = true ->
    has_node C h = true -> has_node C t = true ->
    length (edges C) < fuel ->
    exists paths news,
      swap_loop bp fuel C h t costs
      = Ok (with_edges C (without_paths paths (edges C)), costs ++ news)
      /\ swapped C h t paths news
      /\ has_path (with_edges C (without_paths paths (edges C))) h t
         = Ok false
      /\ incl (without_paths paths (edges C)) (edges C)
      /\ (has_path C h t = Ok true -> paths <> []).
Proof.
  intros Hne.
  induction fuel as [|fuel IH]; intros C costs Hwf Hh Ht Hfuel; [lia|].
  cbn [swap_loop].
  assert (Hhp : exists b, has_path C h t = Ok b).
  { unfold has_path. rewrite Hh, Ht. simpl. eauto. }
  destruct Hhp as [b Hb]. rewrite Hb. cbn [bind]. destruct b.
  - destruct (extract_path bp bp_simple C h t "e" Hwf Hne Hb)
      as (p & ns & ks & Hin & Hinit & Hbp & Hrm & Hgood & Hks & Hlen
          & Hincl).
    rewrite Hbp. cbn [bind].
    destruct (swap_path_ok _ _ Hgood) as [new Hnew]. rewrite Hnew.
    cbn [bind]. rewrite Hrm. cbn [bind].
    destruct (IH (with_edges C (drop_edges (edges C) ns ks))
                (costs ++ [new]))
      as (paths & news & Hr & Hx & Hno & Hi & _); auto.
    { now apply well_formed_with_edges. }
    { cbn [edges with_edges]. destruct ks; [congruence|].
      cbn [length] in Hlen. lia. }
    exists ((ns, ks) :: paths), (new :: news). rewrite Hr.
    change (without_paths ((ns, ks) :: paths) (edges C))
      with (without_paths paths (drop_edges (edges C) ns ks)).
    rewrite <- app_assoc. cbn [app edges with_edges] in *.
    split; [reflexivity|].
    split; [cbn [swapped fst snd]; eauto|].
    split; [exact Hno|].
    split; [eapply incl_tran; eauto|].
    intros _. discriminate.
  - exists [], []. cbn [without_paths fold_left].
    rewrite with_edges_same, app_nil_r. cbn [swapped].
    split; [reflexivity|]. split; [exact I|]. split; [exact Hb|].
    split; [apply incl_refl | discriminate].
Qed.

(** X16: [swap_reduce], lines 121-146: on a well-formed snapshot, between
    two distinct nodes of it and given fuel beyond the number of edges,
    [swap_reduce] returns.  It swaps every path: the paths it takes are
    simple paths between the two nodes of the working copy as it then
    stands, the loop leaves no path between them, and the result has the
    nodes of the input and its edges less those of the swapped paths,
    followed by one new edge between the two nodes for each swapped path,
    in order, carrying what [swap_path] gave for it. *)
Theorem swap_reduce_swaps_every_path fuel Q0 h t threshold :
  well_formed Q0 = true ->
  h <> t ->
  check_threshold threshold = Ok tt ->
  has_node Q0 h = true -> has_node Q0 t = true ->
  length (edges Q0) < fuel ->
  exists paths news new_edges R,
    swap_reduce bp fuel Q0 h t threshold = Ok R
    /\ swapped Q0 h t paths news
    /\ has_path (with_edges Q0 (without_paths paths (edges Q0))) h t
       = Ok false
    /\ (has_path Q0 h t = Ok true -> paths <> [])
    /\ nodes R = nodes Q0
    /\ edges R = without_paths paths (edges Q0) ++ new_edges
    /\ incl (without_paths paths (edges Q0)) (edges Q0)
    /\ map data new_edges = news
    /\ Forall (fun e => src e = h /\ dst e = t) new_edges.
Proof.
  intros Hwf Hne Hthr Hh Ht Hfuel.
  destruct (getNode_some _ _ Hh) as (x & Hx & Hxn & _).
  destruct (getNode_some _ _ Ht) as (y & Hy & Hyn & _).
  destruct (swap_loop_ok h t Hne fuel Q0 [] Hwf Hh Ht Hfuel)
    as (paths & news & Hloop & Hsw & Hno & Hincl & Hsome).
  destruct (fold_add_qchan h t news
              (with_edges Q0 (without_paths paths (edges Q0))))
    as (new_edges & He & Hn & Hd & Hs).
  exists paths, news, new_edges. eexists.
  unfold swap_reduce. rewrite Hthr. cbn [bind].
  rewrite Hx, Hy, Hxn, Hyn, Hloop. cbn [bind app].
  split; [reflexivity|]. split; [exact Hsw|]. split; [exact Hno|].
  split; [exact Hsome|]. split; [exact Hn|]. split; [exact He|].
  split; [exact Hincl|]. split; [exact Hd | exact Hs].
Qed.

End SwapLoop.

Lemma swap_reduce_swaps_every_path_witness :
  exists paths news new_edges R,
    swap_reduce best_path 3 Samples.two_hop "A" "B" None = Ok R
    /\ swapped Samples.two_hop "A" "B" paths news
    /\ has_path (with_edges Samples.two_hop
                   (without_paths paths (edges Samples.two_hop))) "A" "B"
       = Ok false
    /\ (has_path Samples.two_hop "A" "B" = Ok true -> paths <> [])
    /\ nodes R = nodes Samples.two_hop
    /\ edges R = without_paths paths (edges Samples.two_hop) ++ new_edges
    /\ incl (without_paths paths (edges Samples.two_hop))
         (edges Samples.two_hop)
    /\ map data new_edges = news
    /\ Forall (fun e => src e = "A" /\ dst e = "B") new_edges.
Proof.
  apply (swap_reduce_swaps_every_path best_path best_path_simple 3
           Samples.two_hop "A" "B" None).
  - reflexivity.
  - discriminate.
  - reflexivity.
  - reflexivity.
  - reflexivity.
  - simpl. lia.
Defined.

(** X17: [swap_reduce], lines 134-146, against [purify_reduce], lines
    38-52: between two nodes of the snapshot that no path joins,
    [swap_reduce] returns the snapshot as it is, whatever the search,
    where [purify_reduce] raises [TypeError]. *)
Theorem swap_reduce_not_connected bp ft fuel Q0 h t threshold prob :
  check_threshold threshold = Ok tt ->
  has_path Q0 h t = Ok false ->
  swap_reduce bp (S fuel) Q0 h t threshold = Ok Q0
  /\ purify_reduce bp ft (S fuel) Q0 h t threshold prob = Raise TypeError.
Proof.
  intros Hthr Hno.
  destruct (has_path_nodes _ _ _ _ Hno) as [Hh Ht].
  destruct (getNode_some _ _ Hh) as (x & Hx & Hxn & _).
  destruct (getNode_some _ _ Ht) as (y & Hy & Hyn & _).
  unfold swap_reduce, purify_reduce. rewrite Hthr. cbn [bind].
  rewrite Hx, Hy, Hxn, Hyn. cbn [swap_loop purify_loop].
  rewrite Hno. cbn [bind fold_left]. split; reflexivity.
Qed.

Lemma swap_reduce_not_connected_witness :
  swap_reduce best_path 1 Samples.apart "A" "B" (Some (ArgInt 3))
  = Ok Samples.apart
  /\ purify_reduce best_path fidTransform 1 Samples.apart "A" "B"
       (Some (ArgInt 3)) (1 # 2) = Raise TypeError.
Proof.
  apply (swap_reduce_not_connected best_path fidTransform 0 Samples.apart
           "A" "B" (Some (ArgInt 3)) (1 # 2)); reflexivity.
Defined.

(** ** The paths left between the two nodes *)

Lemma getNode_name G n x : getNode G n = Some x -> name x = n.
Proof.
  unfold getNode. intros H. apply find_some in H as [_ H].
  now apply String.eqb_eq.
Qed.

Lemma swap_loop_exhausts bp h t : forall fuel C costs C' costs',
  swap_loop bp fuel C h t costs = Ok (C', costs') ->
  has_path C' h t = Ok false.
Proof.
  induction fuel as [|fuel IH]; intros C costs C' costs' H; [discriminate|].
  cbn [swap_loop] in H.
  destruct (has_path C h t) as [[|]|] eqn:Ep; cbn [bind] in H;
    try discriminate.
  - destruct (bp C h t "e") as [p|]; [|discriminate]. cbn [bind] in H.
    destruct (swap_path p); [|discriminate]. cbn [bind] in H.
    destruct (remove_edges p C) as [C1|]; [|discriminate].
    cbn [bind] in H. eauto.
  - now injection H as <- <-.
Qed.

(** X18: [purify_reduce], lines 38-45 and 90, and [swap_reduce], lines
    134-145: whatever the search, in what [purify_reduce] with no
    threshold or [swap_reduce] returns for two distinct nodes, every
    simple path from the one to the other is a single edge. *)
Theorem reductions_leave_direct_paths bp ft fuel Q0 h t threshold prob R
  ns ks :
  h <> t ->
  purify_reduce bp ft fuel Q0 h t None prob = Ok R
  \/ swap_reduce bp fuel Q0 h t threshold = Ok R ->
  In (ns, ks) (all_simple_paths R h t) ->
  ns = [h; t] /\ length ks = 1.
Proof.
  intros Hne H Hin.
  assert (Hdirect : exists C extra,
            has_path C h t = Ok false /\ edges R = edges C ++ extra
            /\ Forall (fun e => joins e h t = true) extra).
  { destruct H as [H|H].
    - unfold purify_reduce in H. cbn [check_threshold bind] in H.
      destruct (getNode Q0 h) as [x|] eqn:Hx; [|discriminate].
      destruct (getNode Q0 t) as [y|] eqn:Hy; [|discriminate].
      apply getNode_name in Hx, Hy. rewrite Hx, Hy in H.
      destruct (purify_loop bp fuel None Q0 h t [] 0)
        as [[[C cvs] k]|] eqn:Hloop; [|discriminate].
      cbn [bind] in H.
      destruct (purified_cost_vector ft Q0 prob cvs k) as [new|];
        [|discriminate].
      cbn [bind] in H. injection H as <-.
      exists C, [mkQchan h t (new_edge_key C h t) new].
      split; [apply (purify_loop_exhausts _ _ _ _ _ _ _ _ _ _ Hloop)|].
      split; [reflexivity|]. constructor; [|constructor].
      unfold joins. simpl. now rewrite !String.eqb_refl.
    - unfold swap_reduce in H.
      destruct (check_threshold threshold); [|discriminate].
      cbn [bind] in H.
      destruct (getNode Q0 h) as [x|] eqn:Hx; [|discriminate].
      destruct (getNode Q0 t) as [y|] eqn:Hy; [|discriminate].
      apply getNode_name in Hx, Hy. rewrite Hx, Hy in H.
      destruct (swap_loop bp fuel Q0 h t []) as [[C news]|] eqn:Hloop;
        [|discriminate].
      cbn [bind] in H. injection H as <-.
      destruct (fold_add_qchan h t news C) as (extra & He & _ & _ & Hs).
      exists C, extra.
      split; [apply (swap_loop_exhausts _ _ _ _ _ _ _ _ Hloop)|].
      split; [exact He|].
      eapply Forall_impl; [|exact Hs]. intros e [Hsrc Hdst].
      unfold joins. now rewrite Hsrc, Hdst, !String.eqb_refl. }
  destruct Hdirect as (C & extra & Hno & He & Hj).
  destruct (direct_paths_only C R h t extra ns ks Hne Hno He Hj Hin)
    as (-> & e & _ & ->).
  split; reflexivity.
Qed.

Lemma reductions_leave_direct_paths_witness :
  ["A"; "B"] = ["A"; "B"] /\ length [0] = 1.
Proof.
  apply (reductions_leave_direct_paths best_path fidTransform 3
           Samples.parallel "A" "B" None (1 # 2)
           (More.returned Samples.apart
              (purify_reduce best_path fidTransform 3 Samples.parallel
                 "A" "B" None (1 # 2)))).
  - discriminate.
  - left. reflexivity.
  - left. reflexivity.
Defined.

(** ** percolate *)

Lemma percolate_inv Q0 prob pair_method g P pairs g' :
  percolate Q0 prob pair_method g = Ok ((P, pairs), g') ->
  exists r g1 kill,
    pair_method Q0 g = Ok (r, g1)
    /\ pairs = match r with PairList l => l | OnePair p => [p] end
    /\ mark_nodes prob pairs (map name (nodes Q0)) g1 = (kill, g')
    /\ P = remove_nodes_from Q0 kill.
Proof.
  unfold percolate.
  destruct (pair_method Q0 g) as [[r g1]|]; [|discriminate]. cbn [bind].
  destruct (mark_nodes _ _ _ _) as [kill g2] eqn:E.
  intros H. injection H as <- <- <-. exists r, g1, kill. auto.
Qed.

Lemma gone_false kill x :
  negb (existsb (String.eqb x) kill) = true -> ~ In x kill.
Proof.
  intros H Hin. apply negb_true_iff in H.
  assert (existsb (String.eqb x) kill = true); [|congruence].
  apply existsb_exists. exists x. split; auto. apply String.eqb_refl.
Qed.

Lemma has_node_kept G kill x :
  has_node (remove_nodes_from G kill) x = true -> ~ In x kill.
Proof.
  unfold has_node, remove_nodes_from. cbn [nodes]. intros H.
  apply existsb_exists in H as (y & Hy & Hn). apply String.eqb_eq in Hn.
  apply filter_In in Hy as [_ Hy]. subst x. now apply gone_false.
Qed.

Lemma remove_nodes_edge_ends G kill e :
  In e (edges (remove_nodes_from G kill)) ->
  In e (edges G) /\ ~ In (src e) kill /\ ~ In (dst e) kill.
Proof.
  unfold remove_nodes_from. cbn [edges]. intros H.
  apply filter_In in H as [He H]. apply negb_true_iff in H.
  apply orb_false_elim in H as [Hs Hd].
  split; [exact He|]. split; apply gone_false; now apply negb_true_iff.
Qed.

Lemma remove_nodes_well_formed G kill :
  well_formed G = true -> well_formed (remove_nodes_from G kill) = true.
Proof.
  intros H. destruct (well_formed_spec _ H) as (Hf & He & Hn & Hch).
  unfold well_formed.
  change (conversions (remove_nodes_from G kill)) with (conversions G).
  rewrite Hf, He. cbn [andb]. apply andb_true_intro. split.
  - apply forallb_forall. intros n Hin. apply Hn.
    unfold remove_nodes_from in Hin. cbn [nodes] in Hin.
    now apply filter_In in Hin.
  - apply forallb_forall. intros e Hin.
    apply remove_nodes_edge_ends in Hin as (Hin & Hs & Hd).
    destruct (chan_ok_spec _ _ (Hch _ Hin)) as (H1 & H2 & H3 & H4 & H5).
    unfold chan_ok.
    change (conversions (remove_nodes_from G kill)) with (conversions G).
    rewrite H1, H2, H3, !has_node_remove, H4, H5; auto.
Qed.

(** X19: [percolate], lines 45-58: what is returned is a subgraph of the
    snapshot with the same conversions.  An edge of the snapshot is kept
    exactly when both its ends are, so none is left dangling, and a
    well-formed snapshot stays well-formed: the reductions can run on
    it. *)
Theorem percolate_returns_subgraph Q0 prob pair_method g P pairs g' :
  percolate Q0 prob pair_method g = Ok ((P, pairs), g') ->
  incl (nodes P) (nodes Q0) /\ incl (edges P) (edges Q0)
  /\ conversions P = conversions Q0
  /\ (forall e, In e (edges P) ->
        has_node P (src e) = has_node Q0 (src e)
        /\ has_node P (dst e) = has_node Q0 (dst e))
  /\ (forall e, In e (edges Q0) ->
        has_node P (src e) = true -> has_node P (dst e) = true ->
        In e (edges P))
  /\ (well_formed Q0 = true -> well_formed P = true).
Proof.
  intros H. apply percolate_inv in H as (r & g1 & kill & _ & _ & _ & ->).
  split; [|split; [|split; [|split; [|split]]]].
  - unfold remove_nodes_from. cbn [nodes]. apply incl_filter.
  - unfold remove_nodes_from. cbn [edges]. apply incl_filter.
  - reflexivity.
  - intros e He. apply remove_nodes_edge_ends in He as (_ & Hs & Hd).
    split; now apply has_node_remove.
  - intros e He Hs Hd. apply has_node_kept in Hs, Hd.
    unfold remove_nodes_from. cbn [edges]. apply filter_In.
    split; [exact He|]. apply negb_true_iff. apply orb_false_intro;
      apply not_true_iff_false; intros Hk;
      apply existsb_exists in Hk as (z & Hz & Hez);
      apply String.eqb_eq in Hez; subst z; contradiction.
  - apply remove_nodes_well_formed.
Qed.

Lemma percolate_returns_subgraph_witness :
  incl (nodes (fst (fst More.thinned))) (nodes Samples.two_hop)
  /\ incl (edges (fst (fst More.thinned))) (edges Samples.two_hop)
  /\ conversions (fst (fst More.thinned)) = conversions Samples.two_hop
  /\ (forall e, In e (edges (fst (fst More.thinned))) ->
        has_node (fst (fst More.thinned)) (src e)
        = has_node Samples.two_hop (src e)
        /\ has_node (fst (fst More.thinned)) (dst e)
           = has_node Samples.two_hop (dst e))
  /\ (forall e, In e (edges Samples.two_hop) ->
        has_node (fst (fst More.thinned)) (src e) = true ->
        has_node (fst (fst More.thinned)) (dst e) = true ->
        In e (edges (fst (fst More.thinned))))
  /\ (well_formed Samples.two_hop = true ->
      well_formed (fst (fst More.thinned)) = true).
Proof.
  apply (percolate_returns_subgraph Samples.two_hop 1
           (Samples.fixed_pair "A" "B") Samples.halves
           (fst (fst More.thinned)) (snd (fst More.thinned))
           (snd More.thinned)).
  reflexivity.
Defined.

Lemma mark_nodes_all_below prob u v : forall ns g,
  (forall i, Qltb (sample g i) prob = true) ->
  fst (mark_nodes prob [(u, v)] ns g)
  = filter (fun n => negb (node_in n (u, v))) ns.
Proof.
  induction ns as [|n ns IH]; intros g Hg; [reflexivity|].
  cbn [mark_nodes existsb filter]. rewrite orb_false_r.
  destruct (negb (node_in n (u, v))).
  - cbn [random_uniform01].
    specialize (IH (mkRng (sample g) (S (cursor g))) Hg).
    destruct (mark_nodes prob [(u, v)] ns _) as [kill g1].
    cbn [fst] in *. now rewrite Hg, IH.
  - apply IH, Hg.
Qed.

(** X20: [percolate], lines 46-58: with one selected pair the two parties
    are kept, and when every draw falls below [prob] they are all that is
    left of the nodes. *)
Theorem percolate_single_pair Q0 prob pair_method g u v g1 P pairs g' :
  pair_method Q0 g = Ok (OnePair (u, v), g1) ->
  percolate Q0 prob pair_method g = Ok ((P, pairs), g') ->
  pairs = [(u, v)]
  /\ has_node P u = has_node Q0 u /\ has_node P v = has_node Q0 v
  /\ ((forall i, Qltb (sample g1 i) prob = true) ->
      nodes P = filter (fun x => node_in (name x) (u, v)) (nodes Q0)).
Proof.
  intros Hpm H.
  destruct (percolate_keeps_single_pair _ _ _ _ _ _ _ _ _ _ Hpm H)
    as (Hp & Hu & Hv).
  split; [exact Hp|]. split; [exact Hu|]. split; [exact Hv|].
  intros Hg. apply percolate_inv in H as (r & g2 & kill & Hr & _ & Hk & ->).
  rewrite Hpm in Hr. injection Hr as <- <-. subst pairs.
  pose proof (mark_nodes_all_below prob u v (map name (nodes Q0)) g1 Hg)
    as Hall.
  rewrite Hk in Hall. cbn [fst] in Hall. subst kill.
  unfold remove_nodes_from. cbn [nodes]. apply filter_ext_in.
  intros x Hx. destruct (node_in (name x) (u, v)) eqn:En.
  - apply negb_true_iff. apply not_true_iff_false. intros Hk'.
    apply existsb_exists in Hk' as (z & Hz & Hez).
    apply String.eqb_eq in Hez. subst z.
    apply filter_In in Hz as [_ Hz]. rewrite En in Hz. discriminate.
  - apply negb_false_iff. apply existsb_exists. exists (name x).
    split; [|apply String.eqb_refl]. apply filter_In.
    split; [now apply in_map|]. now rewrite En.
Qed.

Lemma percolate_single_pair_witness :
  snd (fst More.thinned) = [("A", "B")]
  /\ has_node (fst (fst More.thinned)) "A" = has_node Samples.two_hop "A"
  /\ has_node (fst (fst More.thinned)) "B" = has_node Samples.two_hop "B"
  /\ ((forall i, Qltb (sample Samples.halves i) 1 = true) ->
      nodes (fst (fst More.thinned))
      = filter (fun x => node_in (name x) ("A", "B"))
          (nodes Samples.two_hop)).
Proof.
  apply (percolate_single_pair Samples.two_hop 1
           (Samples.fixed_pair "A" "B") Samples.halves "A" "B"
           Samples.halves (fst (fst More.thinned)) (snd (fst More.thinned))
           (snd More.thinned)).
  - reflexivity.
  - reflexivity.
Defined.

Lemma mark_nodes_none_below prob pairs : forall ns g,
  (forall i, (prob <= sample g i)%Q) ->
  fst (mark_nodes prob pairs ns g) = [].
Proof.
  induction ns as [|n ns IH]; intros g Hg; simpl; auto.
  destruct (existsb _ pairs); [|auto].
  specialize (IH (mkRng (sample g) (S (cursor g))) Hg).
  destruct (mark_nodes prob pairs ns _) as [kill g1]. simpl in *.
  unfold Qltb. rewrite (proj2 (Qle_bool_iff prob _) (Hg (cursor g))).
  exact IH.
Qed.

(** X21: [percolate], lines 52-57: when no draw falls below [prob],
    nothing is removed, whatever the pairs. *)
Theorem percolate_no_draw_below_prob Q0 prob pair_method g r g1 P pairs g' :
  pair_method Q0 g = Ok (r, g1) ->
  (forall i, (prob <= sample g1 i)%Q) ->
  percolate Q0 prob pair_method g = Ok ((P, pairs), g') ->
  P = Q0.
Proof.
  intros Hpm Hg H.
  apply percolate_inv in H as (r' & g2 & kill & Hr & _ & Hk & ->).
  rewrite Hpm in Hr. injection Hr as <- <-.
  pose proof (mark_nodes_none_below prob pairs (map name (nodes Q0)) g1 Hg)
    as Hnone.
  rewrite Hk in Hnone. cbn [fst] in Hnone. subst kill.
  unfold remove_nodes_from. cbn [existsb negb orb].
  rewrite !filter_all by reflexivity. now destruct Q0.
Qed.

Lemma percolate_no_draw_below_prob_witness :
  fst (fst More.kept) = Samples.two_pairs.
Proof.
  apply (percolate_no_draw_below_prob Samples.two_pairs (1 # 2)
           (Samples.fixed_pairs [("A", "B"); ("C", "D")]) Samples.halves
           (PairList [("A", "B"); ("C", "D")]) Samples.halves
           (fst (fst More.kept)) (snd (fst More.kept)) (snd More.kept)).
  - reflexivity.
  - intros i. simpl. unfold Qle. simpl. lia.
  - reflexivity.
Defined.

(** ** reduce_graph and generate_graphs *)

Lemma some_pair_disconnected_inv P : forall pairs b,
  some_pair_disconnected P pairs = Ok b ->
  if b then Exists (fun p => has_path P (fst p) (snd p) = Ok false) pairs
  else Forall (fun p => has_path P (fst p) (snd p) = Ok true) pairs.
Proof.
  induction pairs as [|p pairs IH]; intros b H; simpl in H.
  - injection H as <-. constructor.
  - destruct (has_path P (fst p) (snd p)) as [[|]|] eqn:E; cbn [bind] in H;
      try discriminate.
    + apply IH in H. destruct b; [now right | now constructor].
    + injection H as <-. now left.
Qed.

(** X22: [reduce_graph], lines 97-105: the outcome is the sentinel
    [(None, None)] exactly when some selected pair has no path in the
    percolated graph; otherwise every pair has one, and the outcome is the
    pairs with what the reduction returns for the first of them on the
    percolated graph. *)
Theorem reduce_graph_outcome Q0 pair_method prob reduction_method g R ps g' :
  reduce_graph Q0 pair_method prob reduction_method g = Ok ((R, ps), g') ->
  exists P pairs,
    percolate Q0 prob pair_method g = Ok ((P, pairs), g')
    /\ ((R = None /\ ps = None
         /\ Exists (fun p => has_path P (fst p) (snd p) = Ok false) pairs)
        \/ (exists u v rest r,
              pairs = (u, v) :: rest /\ ps = Some pairs /\ R = Some r
              /\ reduction_method P u v = Ok r
              /\ Forall (fun p => has_path P (fst p) (snd p) = Ok true)
                   pairs)).
Proof.
  unfold reduce_graph.
  destruct (percolate Q0 prob pair_method g) as [[[P pairs] g1]|];
    [|discriminate].
  cbn [bind].
  destruct (some_pair_disconnected P pairs) as [b|] eqn:Hd; [|discriminate].
  cbn [bind]. apply some_pair_disconnected_inv in Hd. destruct b.
  - intros H. injection H as <- <- <-. exists P, pairs.
    split; [reflexivity|]. left. split; [reflexivity|].
    split; [reflexivity | exact Hd].
  - destruct pairs as [|[u v] rest]; [discriminate|].
    destruct (reduction_method P u v) as [r|] eqn:Hr; [|discriminate].
    cbn [bind]. intros H. injection H as <- <- <-.
    exists P, ((u, v) :: rest). split; [reflexivity|]. right.
    exists u, v, rest, r. split; [reflexivity|]. split; [reflexivity|].
    split; [reflexivity|]. split; [exact Hr | exact Hd].
Qed.

Lemma reduce_graph_outcome_witness :
  exists P pairs,
    percolate Samples.two_hop 1 (Samples.fixed_pair "A" "B") Samples.halves
    = Ok ((P, pairs), snd More.thinned)
    /\ ((@None Qnet = None /\ @None (list pair) = None
         /\ Exists (fun p => has_path P (fst p) (snd p) = Ok false) pairs)
        \/ (exists u v rest r,
              pairs = (u, v) :: rest /\ None = Some pairs /\ None = Some r
              /\ Samples.purify P u v = Ok r
              /\ Forall (fun p => has_path P (fst p) (snd p) = Ok true)
                   pairs)).
Proof.
  apply (reduce_graph_outcome Samples.two_hop (Samples.fixed_pair "A" "B") 1
           Samples.purify Samples.halves None None (snd More.thinned)).
  reflexivity.
Defined.

Lemma reduce_graph_shape Q0 pair_method prob reduction_method g out g' :
  reduce_graph Q0 pair_method prob reduction_method g = Ok (out, g') ->
  out = (None, None)
  \/ exists r pairs, out = (Some r, Some pairs) /\ pairs <> [].
Proof.
  unfold reduce_graph.
  destruct (percolate Q0 prob pair_method g) as [[[P pairs] g1]|];
    [|discriminate].
  cbn [bind].
  destruct (some_pair_disconnected P pairs) as [[|]|]; [| |discriminate];
    cbn [bind].
  - intros H. injection H as <- _. now left.
  - destruct pairs as [|[u v] rest]; [discriminate|].
    destruct (reduction_method P u v) as [r|]; [|discriminate].
    cbn [bind]. intros H. injection H as <- _. right.
    exists r, ((u, v) :: rest). split; [reflexivity | discriminate].
Qed.

(** X23: [generate_graphs], lines 128-133: the list has one outcome for
    each of the [num_iters] trials, the sentinels included: each is
    [(None, None)] or a reduced graph with its pairs, of which there is at
    least one. *)
Theorem generate_graphs_outcomes Q0 pair_method reduction_method prob :
  forall num_iters g graph_list g',
    generate_graphs Q0 pair_method reduction_method num_iters prob g
    = Ok (graph_list, g') ->
    length graph_list = num_iters
    /\ Forall (fun out =>
                 out = (None, None)
                 \/ exists r pairs,
                      out = (Some r, Some pairs) /\ pairs <> [])
         graph_list.
Proof.
  induction num_iters as [|n IH]; intros g l g' H; cbn [generate_graphs] in H.
  - injection H as <- _. split; [reflexivity | constructor].
  - destruct (reduce_graph Q0 pair_method prob reduction_method g)
      as [[out g1]|] eqn:Hr; [|discriminate].
    cbn [bind] in H.
    destruct (generate_graphs Q0 pair_method reduction_method n prob g1)
      as [[l' g2]|] eqn:Hg; [|discriminate].
    cbn [bind] in H. injection H as <- _.
    destruct (IH _ _ _ Hg) as [Hlen Hall]. split; [simpl; congruence|].
    constructor; [|exact Hall]. eapply reduce_graph_shape; eauto.
Qed.

Lemma generate_graphs_outcomes_witness :
  length (fst (More.returned ([], Samples.halves)
                 (generate_graphs Samples.two_hop
                    (Samples.fixed_pair "A" "B") Samples.purify 3 1
                    Samples.halves))) = 3
  /\ Forall (fun out =>
               out = (None, None)
               \/ exists r pairs,
                    out = (Some r, Some pairs) /\ pairs <> [])
       (fst (More.returned ([], Samples.halves)
               (generate_graphs Samples.two_hop
                  (Samples.fixed_pair "A" "B") Samples.purify 3 1
                  Samples.halves))).
Proof.
  apply (generate_graphs_outcomes Samples.two_hop
           (Samples.fixed_pair "A" "B") Samples.purify 1 3 Samples.halves
           _ (snd (More.returned ([], Samples.halves)
                     (generate_graphs Samples.two_hop
                        (Samples.fixed_pair "A" "B") Samples.purify 3 1
                        Samples.halves)))).
  reflexivity.
Defined.

(** ** Trials that always return *)

Section Trials.

Variable bp : Qnet -> string -> string -> string -> result Path.
Variable ft : Q -> Q -> Q.

Hypothesis bp_simple : forall G u v cost_type,
  has_path G u v = Ok true ->
  exists ns ks,
    In (ns, ks) (all_simple_paths G u v)
    /\ bp G u v cost_type = Path_init G ns (Some ks).

Lemma purify_reduce_ok fuel P h t threshold prob :
  well_formed P = true -> h <> t -> check_threshold threshold = Ok tt ->
  has_path P h t = Ok true -> length (edges P) < fuel ->
  exists R, purify_reduce bp ft fuel P h t threshold prob = Ok R.
Proof.
  intros Hwf Hne Hthr Hpath Hfuel.
  destruct (has_path_nodes _ _ _ _ Hpath) as [Hh Ht].
  destruct (getNode_some _ _ Hh) as (x & Hx & Hxn & _).
  destruct (getNode_some _ _ Ht) as (y & Hy & Hyn & _).
  destruct (purify_loop_ok bp bp_simple threshold h t Hne Hthr fuel P [] 0)
    as (paths & cvs & Hloop & Hex & Hlen & Hgood & Hsize & Hincl & Hsome);
    auto.
  destruct (well_formed_spec _ Hwf) as (Hcf & Hce & _ & _).
  assert (Hpaths : paths <> []).
  { apply Hsome; auto. now apply counter_exceeds_zero. }
  destruct (purified_cost_vector_ok ft P prob cvs (length cvs) Hcf Hce)
    as (new_cv & Hcv); auto.
  { destruct cvs; [|discriminate]. destruct paths; [congruence|discriminate]. }
  eexists. unfold purify_reduce. rewrite Hthr. cbn [bind].
  rewrite Hx, Hy, Hxn, Hyn, Hloop. cbn [bind app Nat.add].
  rewrite Hcv. reflexivity.
Qed.

Lemma swap_reduce_ok fuel P h t threshold :
  well_formed P = true -> h <> t -> check_threshold threshold = Ok tt ->
  has_path P h t = Ok true -> length (edges P) < fuel ->
  exists R, swap_reduce bp fuel P h t threshold = Ok R.
Proof.
  intros Hwf Hne Hthr Hpath Hfuel.
  destruct (has_path_nodes _ _ _ _ Hpath) as [Hh Ht].
  destruct (getNode_some _ _ Hh) as (x & Hx & Hxn & _).
  destruct (getNode_some _ _ Ht) as (y & Hy & Hyn & _).
  destruct (swap_loop_ok bp bp_simple h t Hne fuel P [] Hwf Hh Ht Hfuel)
    as (paths & news & Hloop & _).
  eexists. unfold swap_reduce. rewrite Hthr. cbn [bind].
  rewrite Hx, Hy, Hxn, Hyn, Hloop. reflexivity.
Qed.

Variable Q0 : Qnet.
Variable pair_method : Qnet -> rand pairs_value.
Variable u v : string.

Hypothesis Q0_well_formed : well_formed Q0 = true.
Hypothesis parties_differ : u <> v.
Hypothesis u_in_Q0 : has_node Q0 u = true.
Hypothesis v_in_Q0 : has_node Q0 v = true.
Hypothesis one_pair : forall g, exists g1,
  pair_method Q0 g = Ok (OnePair (u, v), g1).

Lemma reduce_graph_returns reduction_method prob g :
  (forall P, well_formed P = true ->
     length (edges P) <= length (edges Q0) ->
     has_path P u v = Ok true -> exists R, reduction_method P u v = Ok R) ->
  exists out g', reduce_graph Q0 pair_method prob reduction_method g
                 = Ok (out, g').
Proof.
  intros Hrm. destruct (one_pair g) as [g1 Hpm].
  unfold reduce_graph.
  destruct (percolate Q0 prob pair_method g) as [[[P pairs] g2]|] eqn:Hp.
  - destruct (percolate_keeps_single_pair _ _ _ _ _ _ _ _ _ _ Hpm Hp)
      as (-> & Hu & Hv).
    pose proof Hp as Hp'.
    apply percolate_inv in Hp' as (_ & _ & kill & _ & _ & _ & HP).
    assert (Hwf : well_formed P = true).
    { subst P. now apply remove_nodes_well_formed. }
    assert (Hlen : length (edges P) <= length (edges Q0)).
    { subst P. unfold remove_nodes_from. cbn [edges].
      apply filter_length_le. }
    cbn [bind some_pair_disconnected fst snd].
    unfold has_path at 1. rewrite Hu, Hv, u_in_Q0, v_in_Q0. cbn [andb bind].
    destruct (all_simple_paths P u v) eqn:Hs.
    + do 2 eexists. reflexivity.
    + cbn [bind]. destruct (Hrm P Hwf Hlen) as [R HR].
      { unfold has_path. rewrite Hu, Hv, u_in_Q0, v_in_Q0, Hs. reflexivity. }
      rewrite HR. do 2 eexists. reflexivity.
  - exfalso. unfold percolate in Hp. rewrite Hpm in Hp. cbn [bind] in Hp.
    destruct (mark_nodes _ _ _ _); discriminate.
Qed.

Lemma generate_graphs_returns reduction_method prob :
  (forall P, well_formed P = true ->
     length (edges P) <= length (edges Q0) ->
     has_path P u v = Ok true -> exists R, reduction_method P u v = Ok R) ->
  forall num_iters g,
    exists graph_list g',
      generate_graphs Q0 pair_method reduction_method num_iters prob g
      = Ok (graph_list, g').
Proof.
  intros Hrm. induction num_iters as [|n IH]; intros g;
    cbn [generate_graphs].
  - do 2 eexists. reflexivity.
  - destruct (reduce_graph_returns reduction_method prob g Hrm)
      as (out & g1 & ->).
    cbn [bind]. destruct (IH g1) as (l & g2 & ->). cbn [bind].
    do 2 eexists. reflexivity.
Qed.

(** X24: [generate_graphs], lines 128-133, over [reduce_graph],
    [percolate] and the two reductions: on a well-formed snapshot, with a
    pair method that always selects the same two distinct nodes of it, a
    valid threshold and fuel beyond the number of edges, every batch of
    trials returns, for purification and for swapping alike: no trial
    raises, whatever the draws and the percolation probability. *)
Theorem trials_return_for_one_pair fuel threshold pur_prob num_iters prob g :
  check_threshold threshold = Ok tt ->
  length (edges Q0) < fuel ->
  (exists graph_list g',
     generate_graphs Q0 pair_method
       (fun P h t => purify_reduce bp ft fuel P h t threshold pur_prob)
       num_iters prob g = Ok (graph_list, g'))
  /\ (exists graph_list g',
        generate_graphs Q0 pair_method
          (fun P h t => swap_reduce bp fuel P h t threshold)
          num_iters prob g = Ok (graph_list, g')).
Proof.
  intros Hthr Hfuel. split; apply generate_graphs_returns.
  - intros P Hwf Hlen Hpath.
    apply purify_reduce_ok; auto. lia.
  - intros P Hwf Hlen Hpath.
    apply swap_reduce_ok; auto. lia.
Qed.

End Trials.

Lemma trials_return_for_one_pair_witness :
  (exists graph_list g',
     generate_graphs Samples.two_hop (Samples.fixed_pair "A" "B")
       (fun P h t =>
          purify_reduce best_path fidTransform 3 P h t (Some (ArgInt 2))
            (1 # 2))
       4 (1 # 3) Samples.halves = Ok (graph_list, g'))
  /\ (exists graph_list g',
        generate_graphs Samples.two_hop (Samples.fixed_pair "A" "B")
          (fun P h t => swap_reduce best_path 3 P h t (Some (ArgInt 2)))
          4 (1 # 3) Samples.halves = Ok (graph_list, g')).
Proof.
  apply (trials_return_for_one_pair best_path fidTransform best_path_simple
           Samples.two_hop (Samples.fixed_pair "A" "B") "A" "B").
  - reflexivity.
  - discriminate.
  - reflexivity.
  - reflexivity.
  - intros g. exists g. reflexivity.
  - reflexivity.
  - simpl. lia.
Defined.
